(** * Contact form of the Rocha portfolio: validation and submission

    A shallow embedding of the contact-form script (FORM_CONFIG,
    FormValidator, handleFormSubmit and its helpers, the form-message
    helpers and checkRateLimit) together with the properties of the
    validation and submission pipeline.  The other utilities of that
    script (sanitizeInput, isValidEmailDomain, getFormStats) and, from
    the main script of the page, throttle, debounce, the mobile menu, the
    project modal and the project filters are embedded as well, each in
    a module of its own.

    Conventions of the embedding.
    - The value of a form control is a JavaScript string: a sequence of
      UTF-16 code units.  [length], [trim] and the (non-unicode-flag)
      regular expressions of the script all work on code units, so values
      are lists of code units.  Property keys, message texts, class names
      and style values are opaque texts and are kept as [string].
    - [undefined] is [None]; a missing DOM element (a [null] returned by
      getElementById / querySelector) is an absent map entry or [None].
    - A function that may raise threads the page state and returns a
      completion, normal or abrupt, as in the language definition.
    - console output, scrolling and focus are not part of the state.
    - The form [contact-form] exists and [formValidator] has been
      constructed: the script registers its listeners only then.  The
      controls of the form are its [input] and [textarea] elements,
      addressed by distinct [name] attributes that no other element of
      the document bears. *)

From Stdlib Require Import ZArith NArith Ascii String List Lia DecimalString.
From Stdlib Require Import DecimalPos DecimalZ.
From stdpp Require Import base option gmap strings list fin_maps.

Local Open Scope Z_scope.
Local Open Scope string_scope.

(** ** JavaScript strings as code-unit sequences *)

Module JsString.

Definition t := list N.

(** Code units of an ASCII literal. *)
Fixpoint of_ascii (s : string) : t :=
  match s with
  | EmptyString => []
  | String a rest => N_of_ascii a :: of_ascii rest
  end.

(** WhiteSpace and LineTerminator code points of the language: TAB, LF,
    VT, FF, CR, SP, NBSP, the Zs category, LS, PS and ZWNBSP.  This is
    both what [String.prototype.trim] strips and what [\s] matches. *)
Definition isWhiteSpace (c : N) : bool :=
  ((9 <=? c) && (c <=? 13) || (c =? 32) || (c =? 160) || (c =? 5760)
   || (8192 <=? c) && (c <=? 8202) || (c =? 8232) || (c =? 8233)
   || (c =? 8239) || (c =? 8287) || (c =? 12288) || (c =? 65279))%N.

Fixpoint trimStart (s : t) : t :=
  match s with
  | [] => []
  | c :: rest => if isWhiteSpace c then trimStart rest else s
  end.

Definition trimEnd (s : t) : t := rev (trimStart (rev s)).

(** [s.trim()] *)
Definition trim (s : t) : t := trimEnd (trimStart s).

(** [s.length] *)
Definition length (s : t) : Z := Z.of_nat (List.length s).

(** ToBoolean on a string: only the empty string is falsy. *)
Definition truthy (s : t) : bool :=
  match s with [] => false | _ :: _ => true end.

End JsString.

(** ** Regular expressions

    The two patterns of the configuration are of the form [/^body$/]
    with no flags, so [test] succeeds exactly when the whole subject is
    in the language of the body; membership is decided with
    derivatives. *)

Module Regex.

Inductive t :=
| Fail
| Eps
| Class (p : N -> bool)
| Cat (r s : t)
| Alt (r s : t)
| Star (r : t).

(** [r+] *)
Definition Plus (r : t) : t := Cat r (Star r).

Fixpoint nullable (r : t) : bool :=
  match r with
  | Fail => false
  | Eps => true
  | Class _ => false
  | Cat r s => nullable r && nullable s
  | Alt r s => nullable r || nullable s
  | Star _ => true
  end.

Fixpoint deriv (c : N) (r : t) : t :=
  match r with
  | Fail => Fail
  | Eps => Fail
  | Class p => if p c then Eps else Fail
  | Cat r s =>
      if nullable r then Alt (Cat (deriv c r) s) (deriv c s)
      else Cat (deriv c r) s
  | Alt r s => Alt (deriv c r) (deriv c s)
  | Star r => Cat (deriv c r) (Star r)
  end.

Fixpoint matches (r : t) (s : JsString.t) : bool :=
  match s with
  | [] => nullable r
  | c :: rest => matches (deriv c r) rest
  end.

(** [/^body$/.test(s)] *)
Definition test (body : t) (s : JsString.t) : bool := matches body s.

(** The language of a regular expression, as a relation. *)
Inductive lang : t -> JsString.t -> Prop :=
| lang_eps : lang Eps []
| lang_class p c : p c = true -> lang (Class p) [c]
| lang_cat r s u v : lang r u -> lang s v -> lang (Cat r s) (u ++ v)%list
| lang_alt_l r s u : lang r u -> lang (Alt r s) u
| lang_alt_r r s u : lang s u -> lang (Alt r s) u
| lang_star_nil r : lang (Star r) []
| lang_star_cons r u v :
    lang r u -> lang (Star r) v -> lang (Star r) (u ++ v)%list.

End Regex.

(** ** FORM_CONFIG *)

(** One entry of [FORM_CONFIG.validation]. *)
Record rules := {
  minLength : option Z;
  maxLength : option Z;
  pattern : option Regex.t
}.

(** One entry of [FORM_CONFIG.errorMessages]. *)
Record messages := {
  required : option string;
  minLengthMsg : option string;
  maxLengthMsg : option string;
  patternMsg : option string
}.

Record uiConfig := {
  submitDelay : Z;
  successMessageDuration : Z;
  errorMessageDuration : Z
}.

Record emailjsConfig := {
  serviceId : string;
  templateId : string;
  publicKey : string
}.

Record config := {
  emailjs : emailjsConfig;
  validation : gmap string rules;
  errorMessages : gmap string messages;
  ui : uiConfig
}.

(** Code unit in one of the ranges or among the listed units. *)
Definition inRange (lo hi c : N) : bool := ((lo <=? c) && (c <=? hi))%N.

(** [[a-zA-ZáéíóúÁÉÍÓÚñÑ\s]] *)
Definition nameChar (c : N) : bool :=
  inRange 97 122 c || inRange 65 90 c
  || existsb (N.eqb c) [225; 233; 237; 243; 250; 193; 201; 205; 211; 218; 241; 209]%N
  || JsString.isWhiteSpace c.

(** [[^\s@]] *)
Definition emailChar (c : N) : bool :=
  negb (JsString.isWhiteSpace c || (c =? 64)%N).

(** [/^[a-zA-ZáéíóúÁÉÍÓÚñÑ\s]+$/] *)
Definition namePattern : Regex.t := Regex.Plus (Regex.Class nameChar).

(** [/^[^\s@]+@[^\s@]+\.[^\s@]+$/] *)
Definition emailPattern : Regex.t :=
  Regex.Cat (Regex.Plus (Regex.Class emailChar))
    (Regex.Cat (Regex.Class (N.eqb 64))
       (Regex.Cat (Regex.Plus (Regex.Class emailChar))
          (Regex.Cat (Regex.Class (N.eqb 46))
             (Regex.Plus (Regex.Class emailChar))))).

(** [FORM_CONFIG.validation.name] and the three other rule sets. *)
Definition nameRules : rules :=
  {| minLength := Some 2; maxLength := Some 50; pattern := Some namePattern |}.
Definition emailRules : rules :=
  {| minLength := None; maxLength := None; pattern := Some emailPattern |}.
Definition subjectRules : rules :=
  {| minLength := Some 5; maxLength := Some 100; pattern := None |}.
Definition messageRules : rules :=
  {| minLength := Some 10; maxLength := Some 1000; pattern := None |}.

(** [FORM_CONFIG.errorMessages.name] and the three other message sets. *)
Definition nameMessages : messages :=
  {| required := Some "El nombre es obligatorio";
     minLengthMsg := Some "El nombre debe tener al menos 2 caracteres";
     maxLengthMsg := Some "El nombre no puede exceder 50 caracteres";
     patternMsg := Some "El nombre solo puede contener letras y espacios" |}.
Definition emailMessages : messages :=
  {| required := Some "El email es obligatorio";
     minLengthMsg := None;
     maxLengthMsg := None;
     patternMsg := Some "Por favor ingresa un email válido" |}.
Definition subjectMessages : messages :=
  {| required := Some "El asunto es obligatorio";
     minLengthMsg := Some "El asunto debe tener al menos 5 caracteres";
     maxLengthMsg := Some "El asunto no puede exceder 100 caracteres";
     patternMsg := None |}.
Definition messageMessages : messages :=
  {| required := Some "El mensaje es obligatorio";
     minLengthMsg := Some "El mensaje debe tener al menos 10 caracteres";
     maxLengthMsg := Some "El mensaje no puede exceder 1000 caracteres";
     patternMsg := None |}.

Definition FORM_CONFIG : config := {|
  emailjs := {|
    serviceId := "service_rocha_portfolio";
    templateId := "template_contact_form";
    publicKey := "YOUR_EMAILJS_PUBLIC_KEY"
  |};
  validation :=
    <["name" := nameRules]> (<["email" := emailRules]>
   (<["subject" := subjectRules]> (<["message" := messageRules]> ∅)));
  errorMessages :=
    <["name" := nameMessages]> (<["email" := emailMessages]>
   (<["subject" := subjectMessages]> (<["message" := messageMessages]> ∅)));
  ui := {|
    submitDelay := 1000;
    successMessageDuration := 5000;
    errorMessageDuration := 7000
  |}
|}.

(** ** Property access on object literals

    [FORM_CONFIG.validation], [FORM_CONFIG.errorMessages] and
    [this.errors] are plain object literals, so their prototype is
    [Object.prototype]: a read [obj[key]] that finds no own property
    continues there.  The inherited values (functions, and
    [Object.prototype] itself for [__proto__]) carry none of the
    properties the validator reads. *)

Definition objectPrototypeKeys : list string :=
  [ "constructor"; "hasOwnProperty"; "isPrototypeOf"; "propertyIsEnumerable";
    "toLocaleString"; "toString"; "valueOf"; "__proto__";
    "__defineGetter__"; "__defineSetter__"; "__lookupGetter__";
    "__lookupSetter__" ].

(** [obj[key]], where [inherited] abstracts every value found on the
    prototype; [None] is [undefined]. *)
Definition getProperty {A : Type} (inherited : A) (obj : gmap string A)
    (key : string) : option A :=
  match obj !! key with
  | Some v => Some v
  | None => if bool_decide (key ∈ objectPrototypeKeys) then Some inherited else None
  end.

(** What [.minLength], [.maxLength] and [.pattern] read on an inherited
    value: all [undefined]. *)
Definition inheritedRules : rules :=
  {| minLength := None; maxLength := None; pattern := None |}.

Definition inheritedMessages : messages :=
  {| required := None; minLengthMsg := None; maxLengthMsg := None;
     patternMsg := None |}.

(** [obj[key] = v] for a string or [undefined] value [v]: an own property
    is created or overwritten, except for the key [__proto__], whose
    inherited setter ignores values that are neither objects nor null. *)
Definition setProperty {A : Type} (key : string) (v : A) (obj : gmap string A)
    : gmap string A :=
  if bool_decide (key = "__proto__") then obj else <[key := v]> obj.

(** [delete obj[key]] *)
Definition deleteProperty {A : Type} (key : string) (obj : gmap string A)
    : gmap string A :=
  delete key obj.

(** ** The page state *)

(** An [input] or [textarea] of the form. *)
Record field := {
  value : JsString.t;
  defaultValue : JsString.t;
  hasErrorClass : bool;
  ariaInvalid : bool
}.

(** The element with id [{name}-error]. *)
Record errorElement := {
  errorText : string;
  errorDisplay : string
}.

(** The element with id [form-message]. *)
Record messageElement := {
  textContent : string;
  className : string;
  display : string
}.

(** The element with id [submit-btn]; [btnText] and [btnLoading] hold the
    [style.display] of its [.btn-text] and [.btn-loading] children, when
    they exist. *)
Record submitButton := {
  disabled : bool;
  loading : bool;
  btnText : option string;
  btnLoading : option string
}.

(** What a pending [setTimeout] callback does when it fires. *)
Inductive timerAction :=
| HideFormMessage
| ScrollToFormMessage
| DemoSendDone.

Record timer := {
  due : Z;
  action : timerAction
}.

(** The object returned by [getFormData]. *)
Record formData := {
  fd_name : JsString.t;
  fd_email : JsString.t;
  fd_subject : JsString.t;
  fd_message : JsString.t;
  fd_timestamp : Z;
  fd_userAgent : string
}.

(** The template parameters handed to [emailjs.send]. *)
Record templateParams := {
  from_name : JsString.t;
  from_email : JsString.t;
  subject : JsString.t;
  message : JsString.t;
  timestamp : Z;
  reply_to : JsString.t
}.

(** One call of [emailjs.send]. *)
Record sendCall := {
  call_serviceId : string;
  call_templateId : string;
  call_params : templateParams
}.

(** The state the script reads and writes: its two global flags, the
    [errors] of the validator, the DOM surface (controls of the form by
    name, error elements by field name, message element, submit button),
    the durable storage, the clock, the pending timers, the calls made to
    the collaborator so far, and the user agent. *)
Record world := {
  isSubmitting : bool;
  emailjsInitialized : bool;
  errors : gmap string (option string);
  fields : gmap string field;
  errorElements : gmap string errorElement;
  formMessage : option messageElement;
  submitBtn : option submitButton;
  localStorage : gmap string JsString.t;
  now : Z;
  timers : list timer;
  sendCalls : list sendCall;
  userAgent : string
}.

Definition set_isSubmitting (b : bool) (w : world) : world :=
  {| isSubmitting := b; emailjsInitialized := emailjsInitialized w;
     errors := errors w; fields := fields w;
     errorElements := errorElements w; formMessage := formMessage w;
     submitBtn := submitBtn w; localStorage := localStorage w; now := now w;
     timers := timers w; sendCalls := sendCalls w; userAgent := userAgent w |}.

Definition set_errors (e : gmap string (option string)) (w : world) : world :=
  {| isSubmitting := isSubmitting w; emailjsInitialized := emailjsInitialized w;
     errors := e; fields := fields w;
     errorElements := errorElements w; formMessage := formMessage w;
     submitBtn := submitBtn w; localStorage := localStorage w; now := now w;
     timers := timers w; sendCalls := sendCalls w; userAgent := userAgent w |}.

Definition set_fields (f : gmap string field) (w : world) : world :=
  {| isSubmitting := isSubmitting w; emailjsInitialized := emailjsInitialized w;
     errors := errors w; fields := f;
     errorElements := errorElements w; formMessage := formMessage w;
     submitBtn := submitBtn w; localStorage := localStorage w; now := now w;
     timers := timers w; sendCalls := sendCalls w; userAgent := userAgent w |}.

Definition set_errorElements (e : gmap string errorElement) (w : world) : world :=
  {| isSubmitting := isSubmitting w; emailjsInitialized := emailjsInitialized w;
     errors := errors w; fields := fields w;
     errorElements := e; formMessage := formMessage w;
     submitBtn := submitBtn w; localStorage := localStorage w; now := now w;
     timers := timers w; sendCalls := sendCalls w; userAgent := userAgent w |}.

Definition set_formMessage (m : option messageElement) (w : world) : world :=
  {| isSubmitting := isSubmitting w; emailjsInitialized := emailjsInitialized w;
     errors := errors w; fields := fields w;
     errorElements := errorElements w; formMessage := m;
     submitBtn := submitBtn w; localStorage := localStorage w; now := now w;
     timers := timers w; sendCalls := sendCalls w; userAgent := userAgent w |}.

Definition set_submitBtn (b : option submitButton) (w : world) : world :=
  {| isSubmitting := isSubmitting w; emailjsInitialized := emailjsInitialized w;
     errors := errors w; fields := fields w;
     errorElements := errorElements w; formMessage := formMessage w;
     submitBtn := b; localStorage := localStorage w; now := now w;
     timers := timers w; sendCalls := sendCalls w; userAgent := userAgent w |}.

Definition set_localStorage (s : gmap string JsString.t) (w : world) : world :=
  {| isSubmitting := isSubmitting w; emailjsInitialized := emailjsInitialized w;
     errors := errors w; fields := fields w;
     errorElements := errorElements w; formMessage := formMessage w;
     submitBtn := submitBtn w; localStorage := s; now := now w;
     timers := timers w; sendCalls := sendCalls w; userAgent := userAgent w |}.

Definition set_now (t : Z) (w : world) : world :=
  {| isSubmitting := isSubmitting w; emailjsInitialized := emailjsInitialized w;
     errors := errors w; fields := fields w;
     errorElements := errorElements w; formMessage := formMessage w;
     submitBtn := submitBtn w; localStorage := localStorage w; now := t;
     timers := timers w; sendCalls := sendCalls w; userAgent := userAgent w |}.

Definition set_timers (t : list timer) (w : world) : world :=
  {| isSubmitting := isSubmitting w; emailjsInitialized := emailjsInitialized w;
     errors := errors w; fields := fields w;
     errorElements := errorElements w; formMessage := formMessage w;
     submitBtn := submitBtn w; localStorage := localStorage w; now := now w;
     timers := t; sendCalls := sendCalls w; userAgent := userAgent w |}.

Definition set_sendCalls (c : list sendCall) (w : world) : world :=
  {| isSubmitting := isSubmitting w; emailjsInitialized := emailjsInitialized w;
     errors := errors w; fields := fields w;
     errorElements := errorElements w; formMessage := formMessage w;
     submitBtn := submitBtn w; localStorage := localStorage w; now := now w;
     timers := timers w; sendCalls := c; userAgent := userAgent w |}.

(** [setTimeout(callback, delay)] *)
Definition setTimeout (a : timerAction) (delay : Z) (w : world) : world :=
  set_timers (timers w ++ [{| due := now w + delay; action := a |}])%list w.

(** ** Completions and the monad of page code *)

Inductive exn :=
| TypeError.

Inductive completion (A : Type) :=
| Normal (a : A)
| Throw (e : exn).
Arguments Normal {A} a.
Arguments Throw {A} e.

Definition M (A : Type) : Type := world -> completion A * world.

#[global] Instance M_ret : MRet M := fun A a w => (Normal a, w).

#[global] Instance M_bind : MBind M := fun A B f m w =>
  match m w with
  | (Normal a, w') => f a w'
  | (Throw e, w') => (Throw e, w')
  end.

Definition throw {A : Type} (e : exn) : M A := fun w => (Throw e, w).

Definition get : M world := fun w => (Normal w, w).

Definition modify (f : world -> world) : M unit := fun w => (Normal tt, f w).

(** [try { body } catch (error) { handler }] *)
Definition tryCatch {A : Type} (body : M A) (handler : exn -> M A) : M A :=
  fun w =>
    match body w with
    | (Normal a, w') => (Normal a, w')
    | (Throw e, w') => handler e w'
    end.

(** [try { body } finally { cleanup }]: the cleanup always runs; when it
    completes abruptly its completion replaces that of the body. *)
Definition tryFinally {A : Type} (body : M A) (cleanup : M unit) : M A :=
  fun w =>
    match body w with
    | (c, w') =>
        match cleanup w' with
        | (Normal _, w'') => (c, w'')
        | (Throw e, w'') => (Throw e, w'')
        end
    end.

(** ** class FormValidator

    The validator object holds [form], [config] and [errors]; [errors] is
    the [errors] component of the page state, [form] its [fields], and
    the configuration is a parameter.  A field element is passed as the
    two properties the code reads from it, [name] and [value]. *)

Module FormValidator.

(** ToBoolean on a number that is not NaN: only zero is falsy. *)
Definition numberTruthy (n : Z) : bool := negb (n =? 0)%Z.

(** [rules.minLength && value.length < rules.minLength] *)
Definition belowMin (r : rules) (v : JsString.t) : bool :=
  match minLength r with
  | Some n => numberTruthy n && (JsString.length v <? n)%Z
  | None => false
  end.

(** [rules.maxLength && value.length > rules.maxLength] *)
Definition aboveMax (r : rules) (v : JsString.t) : bool :=
  match maxLength r with
  | Some n => numberTruthy n && (JsString.length v >? n)%Z
  | None => false
  end.

(** [rules.pattern && !rules.pattern.test(value)] *)
Definition patternFails (r : rules) (v : JsString.t) : bool :=
  match pattern r with
  | Some p => negb (Regex.test p v)
  | None => false
  end.

(** [this.errors[fieldName] = messages.kind; return false;], where
    reading a property of an undefined [messages] raises. *)
Definition fail (fieldName : string) (msgs : option messages)
    (kind : messages -> option string) : M bool :=
  match msgs with
  | None => throw TypeError
  | Some m =>
      modify (fun w => set_errors (setProperty fieldName (kind m) (errors w)) w) ;;
      mret false
  end.

Definition validateField (cfg : config) (fieldName : string)
    (fieldValue : JsString.t) : M bool :=
  let value := JsString.trim fieldValue in
  let rules := getProperty inheritedRules (validation cfg) fieldName in
  let messages := getProperty inheritedMessages (errorMessages cfg) fieldName in
  modify (fun w => set_errors (deleteProperty fieldName (errors w)) w) ;;
  if negb (JsString.truthy value) then fail fieldName messages required
  else
    match rules with
    | None => throw TypeError
    | Some r =>
        if belowMin r value then fail fieldName messages minLengthMsg
        else if aboveMax r value then fail fieldName messages maxLengthMsg
        else if patternFails r value then fail fieldName messages patternMsg
        else mret true
    end.

Definition knownFields : list string := ["name"; "email"; "subject"; "message"].

(** The body of [fields.forEach(...)], with the captured [isValid]. *)
Fixpoint forEachField (cfg : config) (names : list string) (isValid : bool)
    : M bool :=
  match names with
  | [] => mret isValid
  | fieldName :: rest =>
      w ← get;
      match fields w !! fieldName with
      | Some f =>
          validateField cfg fieldName (value f) ≫= fun ok : bool =>
          forEachField cfg rest (if ok then isValid else false)
      | None => forEachField cfg rest isValid
      end
  end.

Definition validateForm (cfg : config) : M bool :=
  modify (set_errors ∅) ;;
  forEachField cfg knownFields true.

(** [getErrors()] *)
Definition getErrors (w : world) : gmap string (option string) := errors w.

(** [hasErrors()] *)
Definition hasErrors (w : world) : bool :=
  bool_decide (0 < size (errors w))%nat.

End FormValidator.

Definition blankField : field :=
  {| value := []; defaultValue := []; hasErrorClass := false;
     ariaInvalid := false |}.

Definition withValue (v : JsString.t) : field :=
  {| value := v; defaultValue := []; hasErrorClass := false;
     ariaInvalid := false |}.

(** A freshly loaded page: the four blank controls with their error
    elements, the message element and the idle submit button. *)
Definition initialWorld : world :=
  {| isSubmitting := false;
     emailjsInitialized := false;
     errors := ∅;
     fields := <["name" := blankField]> (<["email" := blankField]>
              (<["subject" := blankField]> (<["message" := blankField]> ∅)));
     errorElements :=
       let e := {| errorText := ""; errorDisplay := "none" |} in
       <["name" := e]> (<["email" := e]> (<["subject" := e]> (<["message" := e]> ∅)));
     formMessage := Some {| textContent := ""; className := "form-message";
                            display := "none" |};
     submitBtn := Some {| disabled := false; loading := false;
                          btnText := Some "inline"; btnLoading := Some "none" |};
     localStorage := ∅;
     now := 0;
     timers := [];
     sendCalls := [];
     userAgent := "Mozilla/5.0" |}.

(** ** Per-field error display *)

(** [classList.add/remove('error')] together with setting or removing
    the [aria-invalid] attribute. *)
Definition markField (invalid : bool) (f : field) : field :=
  {| value := value f; defaultValue := defaultValue f;
     hasErrorClass := invalid; ariaInvalid := invalid |}.

(** An error element after [clearFieldError]. *)
Definition hiddenError : errorElement :=
  {| errorText := ""; errorDisplay := "none" |}.

(** [showFieldError(field, message)]; assigning [undefined] to
    [textContent] empties the element. *)
Definition showFieldError (fieldName : string) (message : option string)
    (w : world) : world :=
  let w1 :=
    match errorElements w !! fieldName with
    | Some _ =>
        set_errorElements
          (<[fieldName := {| errorText := default "" message;
                             errorDisplay := "block" |}]> (errorElements w)) w
    | None => w
    end in
  set_fields (alter (markField true) fieldName (fields w1)) w1.

(** [clearFieldError(field)] *)
Definition clearFieldError (fieldName : string) (w : world) : world :=
  let w1 :=
    match errorElements w !! fieldName with
    | Some _ =>
        set_errorElements (<[fieldName := hiddenError]> (errorElements w)) w
    | None => w
    end in
  set_fields (alter (markField false) fieldName (fields w1)) w1.

(** [formValidator.getErrors()[fieldName]] as the text that
    [showFieldError] assigns.  The read follows the prototype chain; it
    finds no own property only for a field named [__proto__], whose
    assignment in [validateField] is ignored, and the inherited object
    then converts to the text below. *)
Definition readError (errs : gmap string (option string)) (fieldName : string)
    : option string :=
  mjoin (getProperty (Some "[object Object]") errs fieldName).

(** The global [validateField(field)], the [blur] listener of a control. *)
Definition validateField (cfg : config) (fieldName : string)
    (fieldValue : JsString.t) : M bool :=
  FormValidator.validateField cfg fieldName fieldValue ≫= fun isValid : bool =>
  if negb isValid then
    w ← get;
    modify (showFieldError fieldName
              (readError (FormValidator.getErrors w) fieldName)) ;;
    mret false
  else
    modify (clearFieldError fieldName) ;;
    mret true.

(** [clearAllFieldErrors()]: every [input] and [textarea] of the form. *)
Definition clearAllFieldErrors (w : world) : world :=
  foldr clearFieldError w (map_to_list (fields w)).*1.

(** [displayValidationErrors(errors)], up to the scroll and focus on the
    first element of class [error]. *)
Definition displayValidationErrors (errs : gmap string (option string))
    (w : world) : world :=
  foldr (fun '(fieldName, message) w' =>
           match fields w' !! fieldName with
           | Some _ => showFieldError fieldName message w'
           | None => w'
           end)
        w (map_to_list errs).

(** ** The form message *)

(** The message element after [hideFormMessage]. *)
Definition hiddenMessage : messageElement :=
  {| textContent := ""; className := "form-message"; display := "none" |}.

(** The message element after [showFormMessage(message, type)]. *)
Definition shownMessage (message type : string) : messageElement :=
  {| textContent := message; className := "form-message " +:+ type;
     display := "block" |}.

(** [hideFormMessage()] *)
Definition hideFormMessage (w : world) : world :=
  match formMessage w with
  | Some _ => set_formMessage (Some hiddenMessage) w
  | None => w
  end.

(** [showFormMessage(message, type)] *)
Definition showFormMessage (cfg : config) (message type : string) (w : world)
    : world :=
  match formMessage w with
  | Some _ =>
      let w1 := set_formMessage (Some (shownMessage message type)) w in
      let duration :=
        if String.eqb type "success" then successMessageDuration (ui cfg)
        else errorMessageDuration (ui cfg) in
      setTimeout HideFormMessage duration w1
  | None => w
  end.

(** [scrollToFormMessage()] *)
Definition scrollToFormMessage (w : world) : world :=
  match formMessage w with
  | Some m =>
      if negb (String.eqb (display m) "none")
      then setTimeout ScrollToFormMessage 100 w
      else w
  | None => w
  end.

(** ** Submission *)

(** [setSubmittingState(submitting)]: the flag is assigned first; the
    button and its two children are then dereferenced without a guard. *)
Definition setSubmittingState (submitting : bool) : M unit :=
  modify (set_isSubmitting submitting) ;;
  w ← get;
  match submitBtn w with
  | None => throw TypeError
  | Some b =>
      let b1 := {| disabled := submitting; loading := submitting;
                   btnText := btnText b; btnLoading := btnLoading b |} in
      modify (set_submitBtn (Some b1)) ;;
      match btnText b1 with
      | None => throw TypeError
      | Some _ =>
          let b2 := {| disabled := disabled b1; loading := loading b1;
                       btnText := Some (if submitting then "none" else "inline");
                       btnLoading := btnLoading b1 |} in
          modify (set_submitBtn (Some b2)) ;;
          match btnLoading b2 with
          | None => throw TypeError
          | Some _ =>
              modify (set_submitBtn
                (Some {| disabled := disabled b2; loading := loading b2;
                         btnText := btnText b2;
                         btnLoading :=
                           Some (if submitting then "inline-flex" else "none") |}))
          end
      end
  end.

(** [formData.get(name).trim()]: [get] answers [null] when the form has
    no control of that name. *)
Definition getTrimmed (fieldName : string) : M JsString.t :=
  w ← get;
  match fields w !! fieldName with
  | Some f => mret (JsString.trim (value f))
  | None => throw TypeError
  end.

(** [getFormData()]; the locale formatting of the date is left out. *)
Definition getFormData : M formData :=
  n ← getTrimmed "name";
  e ← getTrimmed "email";
  s ← getTrimmed "subject";
  m ← getTrimmed "message";
  w ← get;
  mret {| fd_name := n; fd_email := e; fd_subject := s; fd_message := m;
          fd_timestamp := now w; fd_userAgent := userAgent w |}.

(** What [sendEmail] is waiting for at its [await]. *)
Inductive pendingSend :=
| DemoDelay
| EmailjsSend.

(** How the awaited operation ends: the demo timer fires, the promise of
    [emailjs.send] is fulfilled, or the call fails (a rejected promise or
    an exception raised by the call). *)
Inductive settlement :=
| TimerFired
| Fulfilled
| Failed.

(** [sendEmail(data)] up to its [await]. *)
Definition sendEmailStart (cfg : config) (data : formData) : M pendingSend :=
  w ← get;
  if negb (emailjsInitialized w) then
    modify (setTimeout DemoSendDone 2000) ;;
    mret DemoDelay
  else
    modify (fun w =>
      set_sendCalls
        (sendCalls w ++
           [{| call_serviceId := serviceId (emailjs cfg);
               call_templateId := templateId (emailjs cfg);
               call_params :=
                 {| from_name := fd_name data; from_email := fd_email data;
                    subject := fd_subject data; message := fd_message data;
                    timestamp := fd_timestamp data;
                    reply_to := fd_email data |} |}])%list w) ;;
    mret EmailjsSend.

(** The boolean [sendEmail] resolves to: [true] after either [await]
    completes, [false] from its [catch]. *)
Definition sendEmailResult (s : settlement) : bool :=
  match s with
  | TimerFired => true
  | Fulfilled => true
  | Failed => false
  end.

Definition successText : string :=
  "¡Mensaje enviado correctamente! Te responderé pronto.".
Definition sendFailedText : string :=
  "Error al enviar el mensaje. Por favor intenta nuevamente.".
Definition unexpectedText : string :=
  "Ocurrió un error inesperado. Por favor intenta más tarde.".
Definition rateLimitText : string :=
  "Por favor espera un momento antes de enviar otro mensaje.".

(** A control after [form.reset()]. *)
Definition resetField (f : field) : field :=
  {| value := defaultValue f; defaultValue := defaultValue f;
     hasErrorClass := hasErrorClass f; ariaInvalid := ariaInvalid f |}.

(** [form.reset()]: every control goes back to its default value. *)
Definition resetForm (w : world) : world :=
  set_fields (resetField <$> fields w) w.

(** [handleSubmitSuccess()] *)
Definition handleSubmitSuccess (cfg : config) (w : world) : world :=
  scrollToFormMessage
    (clearAllFieldErrors
       (showFormMessage cfg successText "success" (resetForm w))).

(** [handleSubmitError(message)] *)
Definition handleSubmitError (cfg : config) (message : string) (w : world)
    : world :=
  scrollToFormMessage (showFormMessage cfg message "error" w).

(** The [catch] and [finally] clauses of [handleFormSubmit], around a
    [try] body. *)
Definition guarded {A : Type} (cfg : config) (dflt : A) (body : M A) : M A :=
  tryFinally
    (tryCatch body
       (fun _ => modify (handleSubmitError cfg unexpectedText) ;; mret dflt))
    (setSubmittingState false).

(** The [try] body of [handleFormSubmit] up to the [await]: [None] is the
    early [return] after a failed validation, [Some p] the suspension. *)
Definition beforeAwait (cfg : config) : M (option pendingSend) :=
  FormValidator.validateForm cfg ≫= fun ok : bool =>
  if negb ok then
    w ← get;
    modify (displayValidationErrors (FormValidator.getErrors w)) ;;
    mret None
  else
    setSubmittingState true ;;
    formData ← getFormData;
    p ← sendEmailStart cfg formData;
    mret (Some p).

(** The [try] body of [handleFormSubmit] after the [await]. *)
Definition afterAwait (cfg : config) (s : settlement) : M unit :=
  if sendEmailResult s then modify (handleSubmitSuccess cfg)
  else modify (handleSubmitError cfg sendFailedText).

(** [handleFormSubmit(e)] from the event to the [await], or to its end
    when the [await] is not reached.  The result tells whether a send is
    now awaited. *)
Definition handleFormSubmit (cfg : config) : M (option pendingSend) :=
  fun w =>
    if isSubmitting w then (Normal None, w)
    else
      match beforeAwait cfg w with
      | (Normal (Some p), w') => (Normal (Some p), w')
      | (c, w') => guarded cfg None (fun w'' => (c, w'')) w'
      end.

(** [handleFormSubmit(e)] from the [await] to its end. *)
Definition handleFormSubmitResume (cfg : config) (s : settlement) : M unit :=
  guarded cfg tt (afterAwait cfg s).

(** ** Rate limiting *)

(** The value of a code unit as a digit in the given radix, if any. *)
Definition digitValue (radix : Z) (c : N) : option Z :=
  let d :=
    if inRange 48 57 c then Some (Z.of_N c - 48)
    else if inRange 97 122 c then Some (Z.of_N c - 87)
    else if inRange 65 90 c then Some (Z.of_N c - 55)
    else None in
  match d with
  | Some v => if (v <? radix)%Z then Some v else None
  | None => None
  end.

(** The integer denoted by the longest prefix of digits; [acc] is the
    value read so far, [None] when no digit has been read. *)
Fixpoint readDigits (radix : Z) (acc : option Z) (s : JsString.t) : option Z :=
  match s with
  | [] => acc
  | c :: rest =>
      match digitValue radix c with
      | Some d => readDigits radix (Some (radix * default 0 acc + d)) rest
      | None => acc
      end
  end.

(** [parseInt(s)] with no radix argument; [None] is NaN.  Integers are
    exact here, as they are in the script for the magnitudes of
    millisecond clocks. *)
Definition parseInt (s : JsString.t) : option Z :=
  let s1 := JsString.trimStart s in
  let '(sign, s2) :=
    match s1 with
    | 45%N :: rest => (-1, rest)
    | 43%N :: rest => (1, rest)
    | _ => (1, s1)
    end in
  let '(radix, s3) :=
    match s2 with
    | 48%N :: 120%N :: rest => (16, rest)
    | 48%N :: 88%N :: rest => (16, rest)
    | _ => (10, s2)
    end in
  (fun n => sign * n) <$> readDigits radix None s3.

(** [n.toString()] for an integer [n]. *)
Definition numberToString (n : Z) : JsString.t :=
  JsString.of_ascii (DecimalString.NilEmpty.string_of_int (Z.to_int n)).

Definition lastFormSubmit : string := "lastFormSubmit".

(** [checkRateLimit()] *)
Definition checkRateLimit (cfg : config) (w : world) : bool * world :=
  let lastSubmit := localStorage w !! lastFormSubmit in
  let now := now w in
  let minInterval := 60000 in
  let tooSoon :=
    match lastSubmit with
    | Some s =>
        JsString.truthy s &&
        match parseInt s with
        | Some t => (now - t <? minInterval)%Z
        | None => false
        end
    | None => false
    end in
  if tooSoon then (false, showFormMessage cfg rateLimitText "error" w)
  else
    (true,
     set_localStorage
       (<[lastFormSubmit := numberToString now]> (localStorage w)) w).

(** ** The page as an event-driven machine

    Between two events the script does not run.  A page is the state
    together with the suspended [handleFormSubmit] activations, each
    recorded as what it awaits. *)

Record page := {
  state : world;
  pending : list pendingSend
}.

(** [Submit] is a submit event of the form or the Enter key on one of
    its controls other than a textarea (both call [handleFormSubmit]);
    [TimerFires i] is the i-th pending timer firing; [SendSettles s] is
    the promise of [emailjs.send] settling; [ClickOutside] is a click
    outside the form; [Input] is the user changing a control; [Blur] is a
    control losing focus; [Elapse] is time passing. *)
Inductive event :=
| Submit
| TimerFires (i : nat)
| SendSettles (s : settlement)
| ClickOutside
| Input (fieldName : string) (v : JsString.t)
| Blur (fieldName : string)
| Elapse (dt : Z).

(** Remove the first occurrence of an awaited operation. *)
Fixpoint removeFirst (k : pendingSend) (l : list pendingSend)
    : option (list pendingSend) :=
  match l with
  | [] => None
  | k' :: rest =>
      match k, k' with
      | DemoDelay, DemoDelay | EmailjsSend, EmailjsSend => Some rest
      | _, _ => cons k' <$> removeFirst k rest
      end
  end.

(** Resume the activation awaiting [k] with settlement [s]. *)
Definition resume (cfg : config) (k : pendingSend) (s : settlement)
    (w : world) (pend : list pendingSend) : option page :=
  match removeFirst k pend with
  | Some rest =>
      Some {| state := snd (handleFormSubmitResume cfg s w); pending := rest |}
  | None => None
  end.

(** The reaction of the page to one event; [None] when the event cannot
    occur in that state (a timer that is not due, a settlement nobody
    awaits). *)
Definition deliver (cfg : config) (e : event) (p : page) : option page :=
  let w := state p in
  match e with
  | Submit =>
      let '(c, w') := handleFormSubmit cfg w in
      Some {| state := w';
              pending :=
                match c with
                | Normal (Some k) => (pending p ++ [k])%list
                | _ => pending p
                end |}
  | TimerFires i =>
      match timers w !! i with
      | Some t =>
          if (due t <=? now w)%Z then
            let w1 := set_timers (delete i (timers w)) w in
            match action t with
            | HideFormMessage =>
                Some {| state := hideFormMessage w1; pending := pending p |}
            | ScrollToFormMessage =>
                Some {| state := w1; pending := pending p |}
            | DemoSendDone => resume cfg DemoDelay TimerFired w1 (pending p)
            end
          else None
      | None => None
      end
  | SendSettles s =>
      match s with
      | TimerFired => None
      | _ => resume cfg EmailjsSend s w (pending p)
      end
  | ClickOutside =>
      match formMessage w with
      | Some m =>
          if negb (String.eqb (display m) "none")
          then Some {| state := hideFormMessage w; pending := pending p |}
          else Some p
      | None => Some p
      end
  | Input fieldName v =>
      match fields w !! fieldName with
      | Some f =>
          let f' := {| value := v; defaultValue := defaultValue f;
                       hasErrorClass := hasErrorClass f;
                       ariaInvalid := ariaInvalid f |} in
          Some {| state :=
                    clearFieldError fieldName
                      (set_fields (<[fieldName := f']> (fields w)) w);
                  pending := pending p |}
      | None => None
      end
  | Blur fieldName =>
      match fields w !! fieldName with
      | Some f =>
          Some {| state := snd (validateField cfg fieldName (value f) w);
                  pending := pending p |}
      | None => None
      end
  | Elapse dt =>
      if (0 <=? dt)%Z
      then Some {| state := set_now (now w + dt) w; pending := pending p |}
      else None
  end.

Fixpoint run (cfg : config) (evs : list event) (p : page) : option page :=
  match evs with
  | [] => Some p
  | e :: rest =>
      match deliver cfg e p with
      | Some p' => run cfg rest p'
      | None => None
      end
  end.

(** At most one submission is in flight, and the flag says so. *)
Definition consistent (p : page) : Prop :=
  (pending p = [] /\ isSubmitting (state p) = false)
  \/ (exists k, pending p = [k] /\ isSubmitting (state p) = true).

(** ** The validation rules as the specification words them

    A value is trimmed; the violation kinds are examined in the order
    required, minLength, maxLength, pattern, and the first one that
    applies is the verdict. *)

Inductive violation :=
| Required
| MinLength
| MaxLength
| Pattern.

Definition precedence : list violation :=
  [Required; MinLength; MaxLength; Pattern].

Definition violates (r : rules) (trimmed : JsString.t) (k : violation) : bool :=
  match k with
  | Required => bool_decide (trimmed = [])
  | MinLength =>
      match minLength r with
      | Some n => bool_decide (JsString.length trimmed < n)%Z
      | None => false
      end
  | MaxLength =>
      match maxLength r with
      | Some n => bool_decide (n < JsString.length trimmed)%Z
      | None => false
      end
  | Pattern =>
      match pattern r with
      | Some p => negb (Regex.test p trimmed)
      | None => false
      end
  end.

Definition verdict (r : rules) (raw : JsString.t) : option violation :=
  List.find (violates r (JsString.trim raw)) precedence.

Definition messageFor (m : messages) (k : violation) : option string :=
  match k with
  | Required => required m
  | MinLength => minLengthMsg m
  | MaxLength => maxLengthMsg m
  | Pattern => patternMsg m
  end.

(** The Validation Result after a validation pass, as the data model
    words it: a known field that is present and failing is mapped to the
    message of its violation; every other name is absent. *)
Definition formVerdict (cfg : config) (flds : gmap string field)
    (fieldName : string) : option (option string) :=
  if bool_decide (fieldName ∈ FormValidator.knownFields) then
    match validation cfg !! fieldName, errorMessages cfg !! fieldName,
          flds !! fieldName with
    | Some r, Some m, Some f => messageFor m <$> verdict r (value f)
    | _, _, _ => None
    end
  else None.

(** ** Sample pages *)

(** A page whose four controls hold values that satisfy every rule. *)
Definition filledWorld : world :=
  set_fields
    (<["name" := withValue [65; 110; 97; 32; 76; 243; 112; 101; 122]%N]>
    (<["email" := withValue (JsString.of_ascii "ana@example.com")]>
    (<["subject" := withValue (JsString.of_ascii "Consulta")]>
    (<["message" := withValue (JsString.of_ascii "Hola, quisiera un presupuesto.")]>
       ∅))))
    initialWorld.

(** That page while its submission is in flight, in demo mode. *)
Definition sendingWorld : world :=
  snd (handleFormSubmit FORM_CONFIG filledWorld).

Definition sendingPage : page :=
  {| state := sendingWorld; pending := [DemoDelay] |}.

(** A page with the collaborator initialised, and a run on which an
    error message is superseded by a success message: a send that fails
    at once, a second send 3000 ms later that succeeds, and 4000 ms
    more. *)
Definition supersedingPage : page :=
  {| state :=
       {| isSubmitting := false; emailjsInitialized := true;
          errors := ∅; fields := fields filledWorld;
          errorElements := errorElements filledWorld;
          formMessage := formMessage filledWorld;
          submitBtn := submitBtn filledWorld;
          localStorage := ∅; now := 0; timers := []; sendCalls := [];
          userAgent := userAgent filledWorld |};
     pending := [] |}.

Definition supersedingEvents : list event :=
  [Submit; SendSettles Failed; Elapse 3000; Submit; SendSettles Fulfilled;
   Elapse 4000].

(** The same page one second after a submission stamped at time 1000. *)
Definition recentlySubmittedWorld : world :=
  set_now 2000
    (set_localStorage (<[lastFormSubmit := numberToString 1000]> ∅) filledWorld).

(** A page computation keeps a component of the state, whatever its
    completion. *)
Definition keeps {A B : Type} (proj : world -> A) (m : M B) : Prop :=
  forall w, proj (snd (m w)) = proj w.

(** Unfold the monad operations of a page computation. *)
Ltac run_m :=
  unfold mbind, mret, M_bind, M_ret, modify, get, throw; simpl.

(** ** The other utilities of the form script *)

(** [sanitizeInput(input)]: trim, drop every [<] and [>], keep the first
    1000 code units. *)
Definition notAngle (c : N) : bool := negb ((c =? 60) || (c =? 62))%N.

Definition sanitizeInput (input : JsString.t) : JsString.t :=
  take 1000 (List.filter notAngle (JsString.trim input)).

(** [s.split(sep)] for a separator of one code unit. *)
Fixpoint splitOn (sep : N) (s : JsString.t) : list JsString.t :=
  match s with
  | [] => [[]]
  | c :: rest =>
      if (c =? sep)%N then [] :: splitOn sep rest
      else
        match splitOn sep rest with
        | piece :: pieces => (c :: piece) :: pieces
        | [] => [[c]]
        end
  end.

Definition tempDomains : list JsString.t :=
  [ JsString.of_ascii "10minutemail.com";
    JsString.of_ascii "guerrillamail.com";
    JsString.of_ascii "mailinator.com";
    JsString.of_ascii "tempmail.org" ].

(** [isValidEmailDomain(email)]; [split('@')[1]] is [undefined] when the
    address has no at sign, and [includes(undefined)] is false. *)
Definition isValidEmailDomain (email : JsString.t) : bool :=
  match splitOn 64 email !! 1%nat with
  | Some domain => negb (bool_decide (domain ∈ tempDomains))
  | None => true
  end.

(** A value of [getFormStats]: a stored text, or the number 0 that
    [getItem(key) || 0] yields for a missing or empty entry. *)
Inductive statValue :=
| StatText (s : JsString.t)
| StatZero.

Definition orZero (item : option JsString.t) : statValue :=
  match item with
  | Some s => if JsString.truthy s then StatText s else StatZero
  | None => StatZero
  end.

Record formStats := {
  submissionsToday : statValue;
  lastSubmission : option JsString.t;
  totalSubmissions : statValue
}.

(** [getFormStats()] *)
Definition getFormStats (w : world) : formStats :=
  {| submissionsToday := orZero (localStorage w !! "submissionsToday");
     lastSubmission := localStorage w !! lastFormSubmit;
     totalSubmissions := orZero (localStorage w !! "totalSubmissions") |}.

(** An error element after [showFieldError(field, message)]. *)
Definition shownError (message : option string) : errorElement :=
  {| errorText := default "" message; errorDisplay := "block" |}.
(** The filled page without its message control. *)
Definition noMessageWorld : world :=
  set_fields (delete "message" (fields filledWorld)) filledWorld.

(** ** The utilities of the main script: [throttle] and [debounce]

    A wrapper made by [throttle(func, limit)] or [debounce(func, wait)]
    owns one closure variable and registers timers.  Its state below
    holds that variable, the pending timers, the clock, whatever [func]
    acts on, and the history of what happened (most recent first), which
    the script does not keep and which only the properties read.  As on
    the page, a timer may fire at any time from its due time on.  The
    wrapped function acts on its own target: it does not call the
    wrapper that wraps it. *)

Module Throttle.
Section Wrapper.
Context {A T : Type}.
Variable func : A -> T -> completion unit * T.
Variable limit : Z.

(** One execution of [func]: when, with what arguments, and whether it
    returned. *)
Record execution := {
  at_time : Z;
  with_args : A;
  returned : bool
}.

Record state := {
  inThrottle : bool;
  resets : list Z;
  clock : Z;
  target : T;
  executions : list execution
}.

(** The closure right after [throttle(func, limit)]: [inThrottle] is
    [undefined], which is falsy. *)
Definition created (t0 : Z) (x : T) : state :=
  {| inThrottle := false; resets := []; clock := t0; target := x;
     executions := [] |}.

(** One call of the wrapper.  When [func] throws, the two statements
    after it are not reached. *)
Definition invoke (a : A) (st : state) : completion unit * state :=
  if inThrottle st then (Normal tt, st)
  else
    let '(c, x) := func a (target st) in
    match c with
    | Normal _ =>
        (Normal tt,
         {| inThrottle := true;
            resets := (resets st ++ [clock st + limit])%list;
            clock := clock st; target := x;
            executions :=
              {| at_time := clock st; with_args := a; returned := true |}
              :: executions st |})
    | Throw e =>
        (Throw e,
         {| inThrottle := inThrottle st; resets := resets st;
            clock := clock st; target := x;
            executions :=
              {| at_time := clock st; with_args := a; returned := false |}
              :: executions st |})
    end.

Inductive event :=
| Invoke (a : A)
| ResetFires (i : nat)
| Elapse (dt : Z).

(** An exception of [func] leaves the wrapper through [invoke]; the
    closure lives on. *)
Definition deliver (e : event) (st : state) : option state :=
  match e with
  | Invoke a => Some (snd (invoke a st))
  | ResetFires i =>
      match resets st !! i with
      | Some d =>
          if (d <=? clock st)%Z then
            Some {| inThrottle := false; resets := delete i (resets st);
                    clock := clock st; target := target st;
                    executions := executions st |}
          else None
      | None => None
      end
  | Elapse dt =>
      if (0 <=? dt)%Z then
        Some {| inThrottle := inThrottle st; resets := resets st;
                clock := clock st + dt; target := target st;
                executions := executions st |}
      else None
  end.

Fixpoint run (evs : list event) (st : state) : option state :=
  match evs with
  | [] => Some st
  | e :: rest =>
      match deliver e st with
      | Some st' => run rest st'
      | None => None
      end
  end.

(** Every execution that returned is followed by none for [limit] ms
    (the list is most recent first). *)
Fixpoint spaced (l : list execution) : Prop :=
  match l with
  | later :: (earlier :: _) as rest =>
      (returned earlier = true -> at_time earlier + limit <= at_time later)
      /\ spaced rest
  | _ => True
  end.

(** What holds between events: a set flag has its reset timer, due
    [limit] ms after the execution that set it; a clear flag has none,
    and the last execution that returned is at least [limit] ms old. *)
Definition invariant (st : state) : Prop :=
  spaced (executions st)
  /\ (forall e, head (executions st) = Some e -> at_time e <= clock st)
  /\ (if inThrottle st then
        exists e, head (executions st) = Some e /\ returned e = true
                  /\ resets st = [at_time e + limit]
      else
        resets st = []
        /\ forall e, head (executions st) = Some e -> returned e = true ->
                     at_time e + limit <= clock st).

End Wrapper.
End Throttle.

Module Debounce.
Section Wrapper.
Context {A T : Type}.
Variable func : A -> T -> completion unit * T.
Variable wait : Z.

(** A pending [setTimeout(later, wait)]: its handle, its due time and
    the arguments that its [later] closes over. *)
Record pendingCall := {
  handle : nat;
  fireAt : Z;
  args : A
}.

Inductive entry :=
| Invoked (t : Z) (a : A)
| Executed (t : Z) (a : A).

Record state := {
  timeout : option nat;
  calls : list pendingCall;
  nextHandle : nat;
  clock : Z;
  target : T;
  history : list entry
}.

(** The closure right after [debounce(func, wait)]. *)
Definition created (t0 : Z) (x : T) : state :=
  {| timeout := None; calls := []; nextHandle := 1%nat; clock := t0;
     target := x; history := [] |}.

(** [clearTimeout(timeout)]: nothing happens for [undefined] and for a
    handle that is not pending. *)
Definition clearTimeout (h : option nat) (l : list pendingCall)
    : list pendingCall :=
  match h with
  | Some i => List.filter (fun c => negb (handle c =? i)%nat) l
  | None => l
  end.

(** One call of the wrapper. *)
Definition invoke (a : A) (st : state) : state :=
  {| timeout := Some (nextHandle st);
     calls :=
       (clearTimeout (timeout st) (calls st)
        ++ [{| handle := nextHandle st; fireAt := clock st + wait;
               args := a |}])%list;
     nextHandle := S (nextHandle st);
     clock := clock st; target := target st;
     history := Invoked (clock st) a :: history st |}.

(** The callback [later] of a timer that fires. *)
Definition later (a : A) (st : state) : completion unit * state :=
  let '(c, x) := func a (target st) in
  (c, {| timeout := timeout st;
         calls := clearTimeout (timeout st) (calls st);
         nextHandle := nextHandle st; clock := clock st; target := x;
         history := Executed (clock st) a :: history st |}).

Inductive event :=
| Invoke (a : A)
| TimerFires (i : nat)
| Elapse (dt : Z).

Definition deliver (e : event) (st : state) : option state :=
  match e with
  | Invoke a => Some (invoke a st)
  | TimerFires i =>
      match calls st !! i with
      | Some c =>
          if (fireAt c <=? clock st)%Z then
            Some (snd (later (args c)
                         {| timeout := timeout st;
                            calls := delete i (calls st);
                            nextHandle := nextHandle st; clock := clock st;
                            target := target st; history := history st |}))
          else None
      | None => None
      end
  | Elapse dt =>
      if (0 <=? dt)%Z then
        Some {| timeout := timeout st; calls := calls st;
                nextHandle := nextHandle st; clock := clock st + dt;
                target := target st; history := history st |}
      else None
  end.

Fixpoint run (evs : list event) (st : state) : option state :=
  match evs with
  | [] => Some st
  | e :: rest =>
      match deliver e st with
      | Some st' => run rest st'
      | None => None
      end
  end.

(** Every execution of [func] comes right after the call of the wrapper
    whose arguments it uses, at least [wait] ms later (the list is most
    recent first). *)
Fixpoint settled (l : list entry) : Prop :=
  match l with
  | Executed t' a' :: rest =>
      match rest with
      | Invoked t a :: _ => a' = a /\ t + wait <= t'
      | _ => False
      end
      /\ settled rest
  | Invoked _ _ :: rest => settled rest
  | [] => True
  end.

(** What holds between events: the only timer that can be pending is
    the one set by the latest call of the wrapper. *)
Definition invariant (st : state) : Prop :=
  settled (history st)
  /\ (calls st = []
      \/ exists c t rest,
           calls st = [c] /\ timeout st = Some (handle c)
           /\ history st = Invoked t (args c) :: rest
           /\ fireAt c = t + wait).

End Wrapper.
End Debounce.

(** A counter as the wrapped function, for the sample runs. *)
Definition countCall (_ : unit) (n : nat) : completion unit * nat :=
  (Normal tt, S n).

(** ** The main script: mobile menu and project modal

    The state is what the two features read and write: the global
    [isMenuOpen], the [active] class of the hamburger button and of the
    navigation menu (when the elements exist), the inline [overflow] of
    the body, the modal element with its inline [display] and its two
    classes, the content of the modal body, the clock and the pending
    timers.  The elements with ids [hamburger], [navbar-menu],
    [project-modal], [modal-body] and [modal-close] exist or not from
    the start; the hamburger button contains none of the other elements
    that carry a listener, and the modal lies outside the navigation
    menu. *)

Module MainPage.

Record modalElement := {
  modalDisplay : string;
  modalActive : bool;
  modalClosing : bool
}.

(** What [getProjectContent] returns: the not-found paragraph, or the
    page rendered from the entry of a project. *)
Inductive html :=
| NotFoundHtml
| ProjectHtml (projectId : string).

Inductive timerAction :=
| AddActive
| FinishClose.

Record timer := {
  due : Z;
  action : timerAction
}.

Record state := {
  isMenuOpen : bool;
  hamburger : option bool;
  navbarMenu : option bool;
  bodyOverflow : string;
  modal : option modalElement;
  modalBody : option (option html);
  modalClose : bool;
  clock : Z;
  timers : list timer
}.

Definition set_menu (o : bool) (overflow : string) (st : state) : state :=
  {| isMenuOpen := o; hamburger := Some o; navbarMenu := Some o;
     bodyOverflow := overflow; modal := modal st; modalBody := modalBody st;
     modalClose := modalClose st; clock := clock st; timers := timers st |}.

Definition set_modal (m : modalElement) (body : option (option html))
    (overflow : string) (t : list timer) (st : state) : state :=
  {| isMenuOpen := isMenuOpen st; hamburger := hamburger st;
     navbarMenu := navbarMenu st; bodyOverflow := overflow;
     modal := Some m; modalBody := body; modalClose := modalClose st;
     clock := clock st; timers := t |}.

(** [toggleMobileMenu()] *)
Definition toggleMobileMenu (st : state) : state :=
  match hamburger st, navbarMenu st with
  | Some _, Some _ =>
      let o := negb (isMenuOpen st) in
      set_menu o (if o then "hidden" else "") st
  | _, _ => st
  end.

(** The keys of the [projects] literal of [getProjectContent]. *)
Definition projectIds : list string :=
  [ "flask-app"; "fastapi-demo"; "data-analysis"; "automation-bot";
    "ml-project"; "web-scraper" ].

(** [getProjectContent(projectId)]; [None] is the [null] that
    [getAttribute] returns for a missing attribute, which reads the key
    ["null"].  A key that [projects] inherits yields a truthy value
    without [technologies], and the template then calls [map] on
    [undefined]. *)
Definition getProjectContent (projectId : option string) : completion html :=
  let key := default "null" projectId in
  if bool_decide (key ∈ projectIds) then Normal (ProjectHtml key)
  else if bool_decide (key ∈ objectPrototypeKeys) then Throw TypeError
  else Normal NotFoundHtml.

(** [openProjectModal(projectId)] *)
Definition openProjectModal (projectId : option string) (st : state)
    : state :=
  match modal st, modalBody st with
  | Some m, Some _ =>
      match getProjectContent projectId with
      | Normal content =>
          set_modal
            {| modalDisplay := "block"; modalActive := modalActive m;
               modalClosing := modalClosing m |}
            (Some (Some content)) "hidden"
            (timers st ++ [{| due := clock st + 10; action := AddActive |}])%list
            st
      | Throw _ => st
      end
  | _, _ => st
  end.

(** [closeModal()] *)
Definition closeModal (st : state) : state :=
  match modal st with
  | Some m =>
      set_modal
        {| modalDisplay := modalDisplay m; modalActive := modalActive m;
           modalClosing := true |}
        (modalBody st) (bodyOverflow st)
        (timers st ++ [{| due := clock st + 300; action := FinishClose |}])%list
        st
  | None => st
  end.

(** The two timer callbacks; both were created where [modal] is an
    element. *)
Definition fire (a : timerAction) (st : state) : state :=
  match modal st with
  | Some m =>
      match a with
      | AddActive =>
          set_modal
            {| modalDisplay := modalDisplay m; modalActive := true;
               modalClosing := modalClosing m |}
            (modalBody st) (bodyOverflow st) (timers st) st
      | FinishClose =>
          set_modal
            {| modalDisplay := "none"; modalActive := false;
               modalClosing := false |}
            (modalBody st) "" (timers st) st
      end
  | None => st
  end.

(** [initMobileMenu] and [initModal] register their listeners only when
    their elements exist. *)
Definition menuListening (st : state) : bool :=
  bool_decide (is_Some (hamburger st)) && bool_decide (is_Some (navbarMenu st)).

Definition modalListening (st : state) : bool :=
  bool_decide (is_Some (modal st)) && modalClose st.

(** What a click lands on.  [inMenu] tells whether the element lies in
    the navigation menu. *)
Inductive clicked :=
| HamburgerButton
| NavLink (sectionExists : bool) (inMenu : bool)
| ViewProject (projectId : option string) (inMenu : bool)
| ModalCloseButton
| ModalBackdrop
| Other (inMenu : bool).

Definition insideMenuOrHamburger (c : clicked) : bool :=
  match c with
  | HamburgerButton => true
  | NavLink _ inMenu | ViewProject _ inMenu | Other inMenu => inMenu
  | ModalCloseButton | ModalBackdrop => false
  end.

(** The listener on the element clicked. *)
Definition elementListener (c : clicked) (st : state) : state :=
  match c with
  | HamburgerButton => if menuListening st then toggleMobileMenu st else st
  | NavLink sectionExists _ =>
      (* handleNavClick; scrolling is not part of this state *)
      if sectionExists && isMenuOpen st then toggleMobileMenu st else st
  | ViewProject projectId _ =>
      if modalListening st then openProjectModal projectId st else st
  | ModalCloseButton | ModalBackdrop =>
      if modalListening st then closeModal st else st
  | Other _ => st
  end.

(** The click listener that [initMobileMenu] puts on the document. *)
Definition documentClick (c : clicked) (st : state) : state :=
  if menuListening st && isMenuOpen st && negb (insideMenuOrHamburger c)
  then toggleMobileMenu st else st.

(** The two keydown listeners on the document, in the order of their
    registration: the modal's, then the menu's. *)
Definition keydown (key : string) (st : state) : state :=
  let st1 :=
    if modalListening st && String.eqb key "Escape"
       && match modal st with
          | Some m => String.eqb (modalDisplay m) "block"
          | None => false
          end
    then closeModal st else st in
  if menuListening st1 && String.eqb key "Escape" && isMenuOpen st1
  then toggleMobileMenu st1 else st1.

Inductive event :=
| Click (c : clicked)
| Key (key : string)
| TimerFires (i : nat)
| Elapse (dt : Z).

Definition deliver (e : event) (st : state) : option state :=
  match e with
  | Click c => Some (documentClick c (elementListener c st))
  | Key key => Some (keydown key st)
  | TimerFires i =>
      match timers st !! i with
      | Some t =>
          if (due t <=? clock st)%Z then
            Some (fire (action t)
                    {| isMenuOpen := isMenuOpen st; hamburger := hamburger st;
                       navbarMenu := navbarMenu st;
                       bodyOverflow := bodyOverflow st; modal := modal st;
                       modalBody := modalBody st; modalClose := modalClose st;
                       clock := clock st; timers := delete i (timers st) |})
          else None
      | None => None
      end
  | Elapse dt =>
      if (0 <=? dt)%Z then
        Some {| isMenuOpen := isMenuOpen st; hamburger := hamburger st;
                navbarMenu := navbarMenu st; bodyOverflow := bodyOverflow st;
                modal := modal st; modalBody := modalBody st;
                modalClose := modalClose st; clock := clock st + dt;
                timers := timers st |}
      else None
  end.

Fixpoint run (evs : list event) (st : state) : option state :=
  match evs with
  | [] => Some st
  | e :: rest =>
      match deliver e st with
      | Some st' => run rest st'
      | None => None
      end
  end.

(** The classes of the two menu elements say what [isMenuOpen] says; a
    page without one of them has the menu closed. *)
Definition menuInSync (st : state) : Prop :=
  match hamburger st, navbarMenu st with
  | Some h, Some n => h = isMenuOpen st /\ n = isMenuOpen st
  | _, _ => isMenuOpen st = false
  end.

(** Events that concern the menu only. *)
Definition menuEvent (e : event) : bool :=
  match e with
  | Click (HamburgerButton | NavLink _ _ | Other _) => true
  | Key _ => true
  | Elapse _ => true
  | _ => false
  end.

(** The part of the state that the menu owns. *)
Definition menuPart (st : state) : bool * option bool * option bool :=
  (isMenuOpen st, hamburger st, navbarMenu st).

(** The scroll lock follows the menu. *)
Definition lockFollowsMenu (st : state) : Prop :=
  bodyOverflow st = if isMenuOpen st then "hidden" else "".

(** While the modal carries the class [closing], the timer that ends
    the closing is pending, due within 300 ms. *)
Definition closingEnds (st : state) : Prop :=
  forall m, modal st = Some m -> modalClosing m = true ->
  exists t, t ∈ timers st /\ action t = FinishClose
            /\ due t <= clock st + 300.

(** A page with every element, the menu closed and the modal hidden. *)
Definition loaded : state :=
  {| isMenuOpen := false; hamburger := Some false; navbarMenu := Some false;
     bodyOverflow := "";
     modal := Some {| modalDisplay := "none"; modalActive := false;
                      modalClosing := false |};
     modalBody := Some None; modalClose := true; clock := 0; timers := [] |}.

End MainPage.

(** Case analysis on the condition of a conditional of the goal. *)
Ltac split_if :=
  match goal with
  | |- context [if ?b then _ else _] => destruct b
  end.

(** Name the state between the two keydown listeners. *)
Ltac name_between st st1 :=
  match goal with
  | |- context [if ?b then MainPage.closeModal st else st] =>
      set (st1 := if b then MainPage.closeModal st else st)
  end.

(** ** The main script: the project filters

    [initProjectFilters] captures the list of project cards once; a
    click on a filter button reaches [handleFilterClick] with the button
    as target.  Timers follow the rule of the timer queue: a timer fires
    from its due time on, and only after every timer that was set before
    it with a delay not greater than its own. *)

Module Filters.

Record card := {
  category : option string;
  display : string;
  hiddenClass : bool;
  visibleClass : bool
}.

Record button := {
  dataFilter : option string;
  active : bool
}.

(** The two callbacks of [filterProjects]: the outer one, with the card
    and [shouldShow] it closes over, and the inner one. *)
Inductive timerAction :=
| Settle (index : nat) (shouldShow : bool)
| Reveal (index : nat).

Record timer := {
  due : Z;
  action : timerAction
}.

Record state := {
  currentFilter : option string;
  buttons : list button;
  cards : list card;
  clock : Z;
  timers : list timer
}.

(** [filter === 'all' || category === filter], on attribute values that
    may be [null]. *)
Definition shows (filter category : option string) : bool :=
  bool_decide (filter = Some "all") || bool_decide (category = filter).

Definition addHidden (c : card) : card :=
  {| category := category c; display := display c; hiddenClass := true;
     visibleClass := visibleClass c |}.

(** The outer timers that one pass of [filterProjects] registers, card
    by card. *)
Fixpoint settleTimers (filter : option string) (t : Z) (index : nat)
    (cs : list card) : list timer :=
  match cs with
  | [] => []
  | c :: rest =>
      {| due := t + 300; action := Settle index (shows filter (category c)) |}
      :: settleTimers filter t (S index) rest
  end.

(** [filterProjects(filter, projectCards)] *)
Definition filterProjects (filter : option string) (st : state) : state :=
  {| currentFilter := currentFilter st; buttons := buttons st;
     cards := addHidden <$> cards st; clock := clock st;
     timers := (timers st
                ++ settleTimers filter (clock st) 0 (cards st))%list |}.

(** [handleFilterClick(e, projectCards)] for a click on the button at
    [target]. *)
Definition handleFilterClick (target : nat) (st : state) : option state :=
  match buttons st !! target with
  | Some b =>
      let filterValue := dataFilter b in
      let cleared :=
        (fun b0 => {| dataFilter := dataFilter b0; active := false |})
          <$> buttons st in
      let marked :=
        alter (fun b0 => {| dataFilter := dataFilter b0; active := true |})
          target cleared in
      let st1 :=
        filterProjects filterValue
          {| currentFilter := currentFilter st; buttons := marked;
             cards := cards st; clock := clock st; timers := timers st |} in
      Some {| currentFilter := filterValue; buttons := buttons st1;
              cards := cards st1; clock := clock st1; timers := timers st1 |}
  | None => None
  end.

(** A timer callback. *)
Definition fire (a : timerAction) (st : state) : state :=
  match a with
  | Settle index true =>
      {| currentFilter := currentFilter st; buttons := buttons st;
         cards :=
           alter (fun c => {| category := category c; display := "block";
                              hiddenClass := hiddenClass c;
                              visibleClass := visibleClass c |})
             index (cards st);
         clock := clock st;
         timers := (timers st
                    ++ [{| due := clock st + 50; action := Reveal index |}])%list |}
  | Settle index false =>
      {| currentFilter := currentFilter st; buttons := buttons st;
         cards :=
           alter (fun c => {| category := category c; display := "none";
                              hiddenClass := hiddenClass c;
                              visibleClass := false |})
             index (cards st);
         clock := clock st; timers := timers st |}
  | Reveal index =>
      {| currentFilter := currentFilter st; buttons := buttons st;
         cards :=
           alter (fun c => {| category := category c; display := display c;
                              hiddenClass := false; visibleClass := true |})
             index (cards st);
         clock := clock st; timers := timers st |}
  end.

(** The delay a timer was set with. *)
Definition delayOf (a : timerAction) : Z :=
  match a with
  | Settle _ _ => 300
  | Reveal _ => 50
  end.

(** No timer set earlier with a delay not greater is still pending. *)
Definition mayFire (i : nat) (t : timer) (l : list timer) : bool :=
  forallb (fun t0 => (delayOf (action t) <? delayOf (action t0))%Z) (take i l).

Inductive event :=
| ClickFilter (target : nat)
| TimerFires (i : nat)
| Elapse (dt : Z).

Definition deliver (e : event) (st : state) : option state :=
  match e with
  | ClickFilter target => handleFilterClick target st
  | TimerFires i =>
      match timers st !! i with
      | Some t =>
          if (due t <=? clock st)%Z && mayFire i t (timers st) then
            Some (fire (action t)
                    {| currentFilter := currentFilter st;
                       buttons := buttons st; cards := cards st;
                       clock := clock st; timers := delete i (timers st) |})
          else None
      | None => None
      end
  | Elapse dt =>
      if (0 <=? dt)%Z then
        Some {| currentFilter := currentFilter st; buttons := buttons st;
                cards := cards st; clock := clock st + dt;
                timers := timers st |}
      else None
  end.

Fixpoint run (evs : list event) (st : state) : option state :=
  match evs with
  | [] => Some st
  | e :: rest =>
      match deliver e st with
      | Some st' => run rest st'
      | None => None
      end
  end.

(** A card is on display unless its inline [display] is [none]. *)
Definition onDisplay (c : card) : bool := negb (String.eqb (display c) "none").

(** What is on display is what the current filter selects. *)
Definition displayFollowsFilter (st : state) : Prop :=
  forall k c, cards st !! k = Some c ->
              onDisplay c = shows (currentFilter st) (category c).

Definition settlePending (t : timer) : bool :=
  match action t with
  | Settle _ _ => true
  | Reveal _ => false
  end.

(** The answer of the outer timer set last for a card, among the
    pending ones. *)
Fixpoint lastSettle (k : nat) (l : list timer) : option bool :=
  match l with
  | [] => None
  | t :: rest =>
      match lastSettle k rest with
      | Some b => Some b
      | None =>
          match action t with
          | Settle k' b => if (k' =? k)%nat then Some b else None
          | Reveal _ => None
          end
      end
  end.

(** What is pending will make the display follow the filter, and what
    is no longer awaited already does. *)
Definition invariant (st : state) : Prop :=
  forall k c, cards st !! k = Some c ->
    match lastSettle k (timers st) with
    | Some b => b = shows (currentFilter st) (category c)
    | None => onDisplay c = shows (currentFilter st) (category c)
    end.

(** Three cards, all on display under the filter [all]. *)
Definition gallery : state :=
  {| currentFilter := Some "all";
     buttons := [ {| dataFilter := Some "all"; active := true |};
                  {| dataFilter := Some "web"; active := false |};
                  {| dataFilter := Some "data"; active := false |} ];
     cards := [ {| category := Some "web"; display := "";
                   hiddenClass := false; visibleClass := false |};
                {| category := Some "data"; display := "";
                   hiddenClass := false; visibleClass := false |};
                {| category := Some "web"; display := "";
                   hiddenClass := false; visibleClass := false |} ];
     clock := 0; timers := [] |}.

End Filters.

(** * Properties *)

(** ** Regular expressions: the matcher decides the language *)

Module RegexFacts.
Import Regex.

Lemma nullable_lang (r : t) : nullable r = true <-> lang r [].
Proof.
  split.
  - induction r; simpl; intros H; try discriminate.
    + constructor.
    + apply andb_prop in H as [H1 H2].
      change (@nil N) with (@nil N ++ @nil N)%list. constructor; auto.
    + apply orb_prop in H as [H | H]; [apply lang_alt_l | apply lang_alt_r]; auto.
    + constructor.
  - induction r; simpl; intros H; inversion H; subst; auto.
    + match goal with E : (_ ++ _)%list = [] |- _ =>
        apply app_eq_nil in E as [-> ->] end.
      rewrite IHr1, IHr2; auto.
    + rewrite IHr1; auto.
    + rewrite IHr2, orb_true_r; auto.
Qed.

Lemma star_cons_inv (r : t) (c : N) (s : JsString.t) :
  lang (Star r) (c :: s) ->
  exists u v, s = (u ++ v)%list /\ lang r (c :: u) /\ lang (Star r) v.
Proof.
  intros H. remember (Star r) as q eqn:Eq. remember (c :: s) as cs eqn:Ecs.
  revert s Ecs.
  induction H; intros s0 Ecs; try discriminate.
  injection Eq as ->.
  destruct u as [|c' u'].
  - simpl in Ecs. apply IHlang2; auto.
  - simpl in Ecs. injection Ecs as -> <-. eauto.
Qed.

Lemma cat_inv (r s : t) (w : JsString.t) :
  lang (Cat r s) w -> exists u v, w = (u ++ v)%list /\ lang r u /\ lang s v.
Proof. intros H. inversion H; subst. eauto. Qed.

Lemma alt_inv (r s : t) (w : JsString.t) :
  lang (Alt r s) w -> lang r w \/ lang s w.
Proof. intros H. inversion H; subst; auto. Qed.

Lemma lang_cat_cons (r s : t) (c : N) (u v : JsString.t) :
  lang r (c :: u) -> lang s v -> lang (Cat r s) (c :: (u ++ v)%list).
Proof.
  intros H1 H2. change (c :: (u ++ v)%list) with ((c :: u) ++ v)%list.
  now constructor.
Qed.

Lemma deriv_lang (r : t) (c : N) (s : JsString.t) :
  lang (deriv c r) s <-> lang r (c :: s).
Proof.
  revert s. induction r; intros s0; simpl.
  - split; intros H; inversion H.
  - split; intros H; inversion H.
  - destruct (p c) eqn:Hp; split; intros H; inversion H; subst.
    + now constructor.
    + constructor.
    + congruence.
  - destruct (nullable r1) eqn:Hn.
    + split; intros H.
      * apply alt_inv in H as [H | H].
        -- apply cat_inv in H as (u & v & -> & H1 & H2).
           apply lang_cat_cons; [apply IHr1 | ]; auto.
        -- change (c :: s0) with ([] ++ c :: s0)%list.
           constructor; [apply nullable_lang | apply IHr2]; auto.
      * apply cat_inv in H as (u & v & E & H1 & H2).
        destruct u as [|c' u']; simpl in E.
        -- subst v. apply lang_alt_r, IHr2; auto.
        -- injection E as <- ->. apply lang_alt_l.
           constructor; [apply IHr1 | ]; auto.
    + split; intros H.
      * apply cat_inv in H as (u & v & -> & H1 & H2).
        apply lang_cat_cons; [apply IHr1 | ]; auto.
      * apply cat_inv in H as (u & v & E & H1 & H2).
        destruct u as [|c' u']; simpl in E.
        -- apply nullable_lang in H1. congruence.
        -- injection E as <- ->. constructor; [apply IHr1 | ]; auto.
  - split; intros H.
    + apply alt_inv in H as [H | H];
        [apply lang_alt_l, IHr1 | apply lang_alt_r, IHr2]; auto.
    + apply alt_inv in H as [H | H];
        [apply lang_alt_l, IHr1 | apply lang_alt_r, IHr2]; auto.
  - split; intros H.
    + apply cat_inv in H as (u & v & -> & H1 & H2).
      change (c :: (u ++ v)%list) with ((c :: u) ++ v)%list.
      constructor; [apply IHr | ]; auto.
    + apply star_cons_inv in H as (u & v & -> & H1 & H2).
      constructor; [apply IHr | ]; auto.
Qed.

Lemma test_lang (r : t) (s : JsString.t) : test r s = true <-> lang r s.
Proof.
  unfold test. revert r. induction s as [|c s IH]; intros r; simpl.
  - apply nullable_lang.
  - rewrite IH. apply deriv_lang.
Qed.

End RegexFacts.

(** ** The validator *)

Module ValidatorFacts.
Import FormValidator.

Lemma belowMin_violates (r : rules) (v : JsString.t) :
  belowMin r v = violates r v MinLength.
Proof.
  unfold belowMin, violates, numberTruthy. destruct (minLength r) as [n|]; auto.
  destruct (Z.eqb_spec n 0) as [-> | Hn]; simpl.
  - symmetry. apply bool_decide_eq_false. unfold JsString.length. lia.
  - destruct (Z.ltb_spec (JsString.length v) n).
    + symmetry. now apply bool_decide_eq_true.
    + symmetry. apply bool_decide_eq_false. lia.
Qed.

Lemma aboveMax_violates (r : rules) (v : JsString.t) :
  maxLength r <> Some 0 -> aboveMax r v = violates r v MaxLength.
Proof.
  unfold aboveMax, violates, numberTruthy. destruct (maxLength r) as [n|]; auto.
  intros Hn. destruct (Z.eqb_spec n 0) as [-> | _]; [congruence | simpl].
  rewrite Z.gtb_ltb. destruct (Z.ltb_spec n (JsString.length v)).
  - symmetry. now apply bool_decide_eq_true.
  - symmetry. apply bool_decide_eq_false. lia.
Qed.

Lemma truthy_violates (r : rules) (v : JsString.t) :
  negb (JsString.truthy v) = violates r v Required.
Proof. destruct v; reflexivity. Qed.

(** The nested conditionals of [FormValidator.validateField] decide
    exactly the first violation in the order of precedence. *)
Lemma validateField_verdict (cfg : config) (fieldName : string) (r : rules)
    (m : messages) (raw : JsString.t) (w : world) :
  getProperty inheritedRules (validation cfg) fieldName = Some r ->
  getProperty inheritedMessages (errorMessages cfg) fieldName = Some m ->
  maxLength r <> Some 0 ->
  FormValidator.validateField cfg fieldName raw w =
    match verdict r raw with
    | None =>
        (Normal true, set_errors (deleteProperty fieldName (errors w)) w)
    | Some k =>
        (Normal false,
         set_errors
           (setProperty fieldName (messageFor m k)
              (deleteProperty fieldName (errors w))) w)
    end.
Proof.
  intros Hr Hm Hmax. unfold FormValidator.validateField, verdict, precedence.
  rewrite Hr, Hm. cbn [List.find].
  rewrite (truthy_violates r), belowMin_violates, (aboveMax_violates _ _ Hmax).
  unfold patternFails, fail.
  change (match pattern r with
          | Some p => negb (Regex.test p (JsString.trim raw))
          | None => false
          end) with (violates r (JsString.trim raw) Pattern).
  generalize (violates r (JsString.trim raw) Required)
    (violates r (JsString.trim raw) MinLength)
    (violates r (JsString.trim raw) MaxLength)
    (violates r (JsString.trim raw) Pattern).
  intros [] [] [] []; reflexivity.
Qed.


Lemma knownFields_cases (fieldName : string) :
  fieldName ∈ knownFields ->
  fieldName = "name" \/ fieldName = "email" \/ fieldName = "subject"
  \/ fieldName = "message".
Proof.
  unfold knownFields. rewrite !elem_of_cons, elem_of_nil. tauto.
Qed.

Lemma unknown_not_configured (fieldName : string) :
  fieldName ∉ knownFields ->
  validation FORM_CONFIG !! fieldName = None
  /\ errorMessages FORM_CONFIG !! fieldName = None.
Proof.
  unfold knownFields. rewrite !not_elem_of_cons. intros (? & ? & ? & ? & _).
  unfold FORM_CONFIG; cbn [validation errorMessages].
  rewrite !lookup_insert_ne, !lookup_empty by congruence. auto.
Qed.

Lemma configured_known (fieldName : string) (r : rules) :
  validation FORM_CONFIG !! fieldName = Some r -> fieldName ∈ knownFields.
Proof.
  intros H. destruct (decide (fieldName ∈ knownFields)) as [|Hn]; [assumption|].
  apply unknown_not_configured in Hn as [Hn _]. congruence.
Qed.

(** Every violation a configured rule set can produce has its message in
    the message table; no configured bound is zero. *)
Lemma configured_cases (fieldName : string) (r : rules) (m : messages) :
  validation FORM_CONFIG !! fieldName = Some r ->
  errorMessages FORM_CONFIG !! fieldName = Some m ->
  (fieldName = "name" /\ r = nameRules /\ m = nameMessages)
  \/ (fieldName = "email" /\ r = emailRules /\ m = emailMessages)
  \/ (fieldName = "subject" /\ r = subjectRules /\ m = subjectMessages)
  \/ (fieldName = "message" /\ r = messageRules /\ m = messageMessages).
Proof.
  unfold FORM_CONFIG; cbn [validation errorMessages]. intros Hr Hm.
  repeat match goal with
    | H : <[_ := _]> _ !! _ = Some _ |- _ =>
        apply lookup_insert_Some in H as [[? ?] | [? H]]
    | H : ∅ !! _ = Some _ |- _ => now rewrite lookup_empty in H
    end; subst; try congruence; tauto.
Qed.

(** Every violation a configured rule set can produce has its message in
    the message table; no configured bound is zero. *)
Lemma configured_sound (fieldName : string) (r : rules) (m : messages) :
  validation FORM_CONFIG !! fieldName = Some r ->
  errorMessages FORM_CONFIG !! fieldName = Some m ->
  maxLength r <> Some 0
  /\ fieldName <> "__proto__"
  /\ forall v k, List.find (violates r v) precedence = Some k ->
       is_Some (messageFor m k).
Proof.
  intros Hr Hm.
  destruct (configured_cases _ _ _ Hr Hm)
    as [(-> & -> & ->) | [(-> & -> & ->) | [(-> & -> & ->) | (-> & -> & ->)]]];
    (split; [discriminate | split; [discriminate | ]]);
    intros v k; cbn [List.find precedence];
    destruct (violates _ v Required);
    try (intros [= <-]; eexists; reflexivity);
    destruct (violates _ v MinLength) eqn:Emin;
    try discriminate Emin;
    try (intros [= <-]; eexists; reflexivity);
    destruct (violates _ v MaxLength) eqn:Emax;
    try discriminate Emax;
    try (intros [= <-]; eexists; reflexivity);
    destruct (violates _ v Pattern) eqn:Epat;
    try discriminate Epat;
    try (intros [= <-]; eexists; reflexivity);
    discriminate.
Qed.

Lemma known_configured (fieldName : string) :
  fieldName ∈ knownFields ->
  exists r m, validation FORM_CONFIG !! fieldName = Some r
              /\ errorMessages FORM_CONFIG !! fieldName = Some m.
Proof.
  intros H. destruct (knownFields_cases _ H) as [-> | [-> | [-> | ->]]];
    eexists; eexists; split; reflexivity.
Qed.

Lemma getProperty_own {A : Type} (inherited : A) (obj : gmap string A)
    (key : string) (v : A) :
  obj !! key = Some v -> getProperty inherited obj key = Some v.
Proof. unfold getProperty. now intros ->. Qed.

Lemma setProperty_insert {A : Type} (key : string) (v : A) (obj : gmap string A) :
  key <> "__proto__" -> setProperty key v obj = <[key := v]> obj.
Proof. intros H. unfold setProperty. now rewrite bool_decide_eq_false_2. Qed.

(** What [FormValidator.validateField] does on a configured field. *)
Lemma validateField_configured (fieldName : string) (r : rules) (m : messages)
    (raw : JsString.t) (w : world) :
  validation FORM_CONFIG !! fieldName = Some r ->
  errorMessages FORM_CONFIG !! fieldName = Some m ->
  FormValidator.validateField FORM_CONFIG fieldName raw w =
    match verdict r raw with
    | None => (Normal true, set_errors (delete fieldName (errors w)) w)
    | Some k =>
        (Normal false,
         set_errors
           (<[fieldName := messageFor m k]> (delete fieldName (errors w))) w)
    end.
Proof.
  intros Hr Hm. destruct (configured_sound _ _ _ Hr Hm) as (Hmax & Hp & _).
  rewrite (validateField_verdict _ _ r m); auto using getProperty_own.
  destruct (verdict r raw); [rewrite setProperty_insert by assumption | ];
    reflexivity.
Qed.

(** The scenarios of the field validator, on a blank page. *)

Example trim_both_ends :
  JsString.trim (JsString.of_ascii "  a b  ") = JsString.of_ascii "a b".
Proof. reflexivity. Qed.

Example name_too_short :
  let '(c, w) := FormValidator.validateField FORM_CONFIG "name"
                   (JsString.of_ascii "A") initialWorld in
  c = Normal false
  /\ errors w !! "name"
     = Some (Some "El nombre debe tener al menos 2 caracteres").
Proof. vm_compute. split; reflexivity. Qed.

Example name_with_accent_passes :
  fst (FormValidator.validateField FORM_CONFIG "name"
         [65; 110; 97; 32; 76; 243; 112; 101; 122]%N initialWorld)
  = Normal true.
Proof. vm_compute. reflexivity. Qed.

Example name_with_digit_fails_pattern :
  let '(c, w) := FormValidator.validateField FORM_CONFIG "name"
                   (JsString.of_ascii "R2D2") initialWorld in
  c = Normal false
  /\ errors w !! "name"
     = Some (Some "El nombre solo puede contener letras y espacios").
Proof. vm_compute. split; reflexivity. Qed.

Example email_well_formed_passes :
  fst (FormValidator.validateField FORM_CONFIG "email"
         (JsString.of_ascii "a@b.co") initialWorld) = Normal true.
Proof. vm_compute. reflexivity. Qed.

Example email_with_space_fails :
  fst (FormValidator.validateField FORM_CONFIG "email"
         (JsString.of_ascii "a b@c.de") initialWorld) = Normal false.
Proof. vm_compute. reflexivity. Qed.

Example unknown_field_raises :
  fst (FormValidator.validateField FORM_CONFIG "phone"
         (JsString.of_ascii "600 000 000") initialWorld) = Throw TypeError.
Proof. vm_compute. reflexivity. Qed.

End ValidatorFacts.

(** ** The whole form *)

Module FormFacts.
Import FormValidator.

(** One pass over a list of distinct known names that are not yet in the
    error map: the map is extended with exactly the verdicts of those
    names, nothing else of the page changes, and the captured flag stays
    true only if none of them failed. *)
Lemma forEachField_verdicts (names : list string) :
  NoDup names ->
  (forall n, n ∈ names -> n ∈ knownFields) ->
  forall (isValid : bool) (w : world),
  (forall n, n ∈ names -> errors w !! n = None) ->
  exists (b : bool) (e : gmap string (option string)),
    FormValidator.forEachField FORM_CONFIG names isValid w = (Normal b, set_errors e w)
    /\ (forall n, e !! n =
          if bool_decide (n ∈ names)
          then formVerdict FORM_CONFIG (fields w) n
          else errors w !! n)
    /\ (b = true <->
        isValid = true
        /\ forall n, n ∈ names -> formVerdict FORM_CONFIG (fields w) n = None).
Proof.
  induction names as [|name rest IH]; intros Hnd Hknown isValid w Hfresh.
  - exists isValid, (errors w). destruct w.
    split; [reflexivity | split].
    + intros n. rewrite bool_decide_eq_false_2 by apply not_elem_of_nil.
      reflexivity.
    + split; [ | tauto]. intros ->. split; [reflexivity | ].
      intros n Hn. inversion Hn.
  - apply NoDup_cons in Hnd as [Hnotin Hnd].
    assert (Hk : name ∈ knownFields) by (apply Hknown; left).
    destruct (ValidatorFacts.known_configured _ Hk) as (r & m & Hr & Hm).
    assert (Hfv : forall flds, formVerdict FORM_CONFIG flds name =
              match flds !! name with
              | Some f => messageFor m <$> verdict r (value f)
              | None => None
              end).
    { intros flds. unfold formVerdict.
      rewrite bool_decide_eq_true_2, Hr, Hm by assumption. reflexivity. }
    cbn [FormValidator.forEachField]. run_m.
    destruct (fields w !! name) as [f|] eqn:Hf.
    + rewrite (ValidatorFacts.validateField_configured _ _ _ _ _ Hr Hm).
      set (e1 := match verdict r (value f) with
                 | Some k => <[name := messageFor m k]> (delete name (errors w))
                 | None => delete name (errors w)
                 end).
      set (v1 := match verdict r (value f) with
                 | Some _ => if false then isValid else false
                 | None => isValid
                 end).
      assert (Hstep :
        (let (c, w') :=
           match verdict r (value f) with
           | Some k =>
               (Normal false,
                set_errors (<[name := messageFor m k]> (delete name (errors w))) w)
           | None => (Normal true, set_errors (delete name (errors w)) w)
           end in
         match c with
         | Normal a => FormValidator.forEachField FORM_CONFIG rest (if a then isValid else false) w'
         | Throw e => (Throw e, w')
         end) = FormValidator.forEachField FORM_CONFIG rest v1 (set_errors e1 w)).
      { unfold e1, v1. destruct (verdict r (value f)); reflexivity. }
      rewrite Hstep. clear Hstep.
      assert (He1 : forall n, e1 !! n =
                if decide (n = name)
                then messageFor m <$> verdict r (value f)
                else errors w !! n).
      { intros n. unfold e1. destruct (decide (n = name)) as [-> | Hne].
        - destruct (verdict r (value f)); simpl.
          + apply lookup_insert_eq.
          + apply lookup_delete_eq.
        - destruct (verdict r (value f)).
          + rewrite lookup_insert_ne, lookup_delete_ne by congruence. reflexivity.
          + rewrite lookup_delete_ne by congruence. reflexivity. }
      destruct (IH Hnd (fun n Hn => Hknown n (list_elem_of_further _ _ _ Hn))
                  v1 (set_errors e1 w)) as (b & e & Hrun & He & Hb).
      { intros n Hn. cbn [errors set_errors]. rewrite He1.
        destruct (decide (n = name)) as [-> | _]; [contradiction | ].
        apply Hfresh. now right. }
      exists b, e. split; [exact Hrun | split].
      * intros n. rewrite He. cbn [errors fields set_errors].
        destruct (decide (n = name)) as [-> | Hne].
        -- rewrite bool_decide_eq_false_2 by assumption.
           rewrite bool_decide_eq_true_2 by left.
           rewrite He1, Hfv, Hf. now destruct (decide (name = name)).
        -- rewrite He1. destruct (decide (n = name)); [contradiction | ].
           destruct (decide (n ∈ rest)).
           ++ rewrite !bool_decide_eq_true_2; auto. now right.
           ++ rewrite !bool_decide_eq_false_2; auto.
              rewrite elem_of_cons. tauto.
      * rewrite Hb. cbn [fields set_errors]. unfold v1. split.
        -- intros [Hv Hall]. destruct (verdict r (value f)) eqn:Hverd;
             [discriminate | ].
           split; [assumption | ]. intros n [-> | Hn]%elem_of_cons; auto.
           now rewrite Hfv, Hf, Hverd.
        -- intros [-> Hall]. pose proof (Hall name (list_elem_of_here _ _)) as Hn.
           rewrite Hfv, Hf in Hn.
           destruct (verdict r (value f)); [discriminate | ].
           split; [reflexivity | ]. intros n Hn'. apply Hall. now right.
    + destruct (IH Hnd (fun n Hn => Hknown n (list_elem_of_further _ _ _ Hn))
                  isValid w) as (b & e & Hrun & He & Hb).
      { intros n Hn. apply Hfresh. now right. }
      exists b, e. split; [exact Hrun | split].
      * intros n. rewrite He. destruct (decide (n = name)) as [-> | Hne].
        -- rewrite bool_decide_eq_false_2 by assumption.
           rewrite bool_decide_eq_true_2 by left.
           rewrite Hfv, Hf. apply Hfresh. left.
        -- destruct (decide (n ∈ rest)).
           ++ rewrite !bool_decide_eq_true_2; auto. now right.
           ++ rewrite !bool_decide_eq_false_2; auto.
              rewrite elem_of_cons. tauto.
      * rewrite Hb. split.
        -- intros [Hv Hall]. split; [assumption | ].
           intros n [-> | Hn]%elem_of_cons; auto. now rewrite Hfv, Hf.
        -- intros [Hv Hall]. split; [assumption | ].
           intros n Hn. apply Hall. now right.
Qed.

Lemma knownFields_NoDup : NoDup knownFields.
Proof.
  unfold knownFields. repeat (apply NoDup_cons; split);
    [ | | | | apply NoDup_nil_2 ];
    rewrite ?not_elem_of_cons, elem_of_nil; repeat split; try discriminate; tauto.
Qed.

(** [FormValidator.validateForm] computes the Validation Result from the
    field values alone. *)
Lemma validateForm_verdicts (w : world) :
  exists (b : bool) (e : gmap string (option string)),
    FormValidator.validateForm FORM_CONFIG w = (Normal b, set_errors e w)
    /\ (forall n, e !! n = formVerdict FORM_CONFIG (fields w) n)
    /\ (b = true <-> e = ∅).
Proof.
  destruct (forEachField_verdicts knownFields knownFields_NoDup
              (fun _ H => H) true (set_errors ∅ w))
    as (b & e & Hrun & He & Hb).
  { intros n _. apply lookup_empty. }
  assert (He' : forall n, e !! n = formVerdict FORM_CONFIG (fields w) n).
  { intros n. rewrite He. cbn [errors fields set_errors].
    destruct (decide (n ∈ knownFields)).
    - now rewrite bool_decide_eq_true_2.
    - rewrite bool_decide_eq_false_2, lookup_empty by assumption.
      unfold formVerdict. now rewrite bool_decide_eq_false_2. }
  exists b, e. split; [ | split; [exact He' | ]].
  - unfold FormValidator.validateForm. run_m. exact Hrun.
  - rewrite Hb. cbn [fields set_errors]. split.
    + intros [_ Hall]. apply map_eq. intros n. rewrite He', lookup_empty.
      destruct (decide (n ∈ knownFields)); [auto | ].
      unfold formVerdict. now rewrite bool_decide_eq_false_2.
    + intros ->. split; [reflexivity | ]. intros n _.
      rewrite <- He'. apply lookup_empty.
Qed.

End FormFacts.

(** ** The submission controller *)

Module ControllerFacts.

Lemma setSubmittingState_state (b : bool) (w : world) :
  exists btn, snd (setSubmittingState b w) = set_submitBtn btn (set_isSubmitting b w).
Proof.
  unfold setSubmittingState. run_m.
  destruct (submitBtn w) as [[d l [t|] [bl|]]|]; simpl; eexists; reflexivity.
Qed.

Lemma setSubmittingState_flag (b : bool) (w : world) :
  isSubmitting (snd (setSubmittingState b w)) = b.
Proof. destruct (setSubmittingState_state b w) as [btn ->]. reflexivity. Qed.

Lemma tryFinally_state {A : Type} (body : M A) (cleanup : M unit) (w : world) :
  snd (tryFinally body cleanup w) = snd (cleanup (snd (body w))).
Proof.
  unfold tryFinally. destruct (body w) as [c w1]. simpl.
  destruct (cleanup w1) as [[|] w2]; reflexivity.
Qed.

(** Whatever the [try] body does, the [finally] clause leaves the flag
    cleared. *)
Lemma guarded_flag {A : Type} (cfg : config) (dflt : A) (body : M A) (w : world) :
  isSubmitting (snd (guarded cfg dflt body w)) = false.
Proof.
  unfold guarded. rewrite tryFinally_state. apply setSubmittingState_flag.
Qed.


Lemma getTrimmed_state (fieldName : string) (w : world) :
  snd (getTrimmed fieldName w) = w.
Proof.
  unfold getTrimmed. run_m. destruct (fields w !! fieldName); reflexivity.
Qed.

Lemma getFormData_state (w : world) : snd (getFormData w) = w.
Proof.
  unfold getFormData, getTrimmed. run_m.
  destruct (fields w !! "name"); [ | reflexivity].
  destruct (fields w !! "email"); [ | reflexivity].
  destruct (fields w !! "subject"); [ | reflexivity].
  destruct (fields w !! "message"); reflexivity.
Qed.

Lemma sendEmailStart_flag (cfg : config) (data : formData) (w : world) :
  isSubmitting (snd (sendEmailStart cfg data w)) = isSubmitting w.
Proof.
  unfold sendEmailStart. run_m. destruct (emailjsInitialized w); reflexivity.
Qed.

Lemma bind_normal_inv {A B : Type} (m : M A) (f : A -> M B) (w w' : world)
    (b : B) :
  (m ≫= f) w = (Normal b, w') ->
  exists a w1, m w = (Normal a, w1) /\ f a w1 = (Normal b, w').
Proof.
  unfold mbind, M_bind. destruct (m w) as [[a|e] w1]; [eauto | discriminate].
Qed.

(** A suspension at the [await] happens with the flag set. *)
Lemma beforeAwait_suspended (cfg : config) (w w' : world) (k : pendingSend) :
  beforeAwait cfg w = (Normal (Some k), w') -> isSubmitting w' = true.
Proof.
  unfold beforeAwait. intros H.
  apply bind_normal_inv in H as (ok & w1 & _ & H).
  destruct ok; simpl in H.
  - apply bind_normal_inv in H as ([] & w2 & Hset & H).
    apply bind_normal_inv in H as (data & w3 & Hdata & H).
    apply bind_normal_inv in H as (p & w4 & Hsend & H).
    unfold mret, M_ret in H. injection H as _ <-.
    pose proof (sendEmailStart_flag cfg data w3) as Hflag.
    rewrite Hsend in Hflag. simpl in Hflag. rewrite Hflag.
    pose proof (getFormData_state w2) as Hsame. rewrite Hdata in Hsame.
    simpl in Hsame. subst w3.
    pose proof (setSubmittingState_flag true w1) as Hon. rewrite Hset in Hon.
    exact Hon.
  - apply bind_normal_inv in H as (w2 & w3 & _ & H).
    apply bind_normal_inv in H as ([] & w4 & _ & H). discriminate H.
Qed.

(** When the [try] body did not suspend, neither does the handler. *)
Lemma guarded_completes (cfg : config) (c : completion (option pendingSend))
    (w : world) (k : pendingSend) :
  c <> Normal (Some k) ->
  fst (guarded cfg None (fun w'' => (c, w'')) w) <> Normal (Some k).
Proof.
  intros Hc. unfold guarded, tryFinally, tryCatch.
  destruct c as [[k'|]|e]; run_m;
    match goal with
    | |- context [setSubmittingState false ?x] =>
        destruct (setSubmittingState false x) as [[[]|e'] w2]
    end; simpl; congruence.
Qed.

(** From an idle page the handler either suspends at the [await] with
    the flag set, or runs to its end and leaves the flag cleared. *)
Lemma handleFormSubmit_flag (cfg : config) (w : world) :
  isSubmitting w = false ->
  match handleFormSubmit cfg w with
  | (Normal (Some _), w') => isSubmitting w' = true
  | (_, w') => isSubmitting w' = false
  end.
Proof.
  intros Hidle. unfold handleFormSubmit. rewrite Hidle.
  destruct (beforeAwait cfg w) as [c w1] eqn:Hrun.
  assert (Hdone : forall c0 : completion (option pendingSend),
            (forall k, c0 <> Normal (Some k)) ->
            match guarded cfg None (fun w'' => (c0, w'')) w1 with
            | (Normal (Some _), w') => isSubmitting w' = true
            | (_, w') => isSubmitting w' = false
            end).
  { intros c0 Hc0.
    pose proof (guarded_flag cfg None (fun w'' => (c0, w'')) w1) as Hflag.
    pose proof (fun k => guarded_completes cfg c0 w1 k (Hc0 k)) as Hnot.
    destruct (guarded cfg None _ w1) as [[[k|]|e] w2]; simpl in *; auto.
    now destruct (Hnot k). }
  destruct c as [[k|]|e].
  - eapply beforeAwait_suspended; eauto.
  - apply Hdone. discriminate.
  - apply Hdone. discriminate.
Qed.

(** *** What the message helpers touch *)

Lemma showFormMessage_formMessage (cfg : config) (message type : string)
    (w : world) :
  formMessage (showFormMessage cfg message type w)
  = (fun _ => shownMessage message type) <$> formMessage w.
Proof.
  unfold showFormMessage. destruct (formMessage w) eqn:E; simpl; [ | rewrite E];
    reflexivity.
Qed.

Lemma showFormMessage_rest (cfg : config) (message type : string) (w : world) :
  fields (showFormMessage cfg message type w) = fields w
  /\ errorElements (showFormMessage cfg message type w) = errorElements w
  /\ localStorage (showFormMessage cfg message type w) = localStorage w
  /\ isSubmitting (showFormMessage cfg message type w) = isSubmitting w.
Proof.
  unfold showFormMessage. destruct (formMessage w); repeat split; reflexivity.
Qed.

Lemma scrollToFormMessage_rest (w : world) :
  fields (scrollToFormMessage w) = fields w
  /\ errorElements (scrollToFormMessage w) = errorElements w
  /\ formMessage (scrollToFormMessage w) = formMessage w
  /\ localStorage (scrollToFormMessage w) = localStorage w
  /\ isSubmitting (scrollToFormMessage w) = isSubmitting w.
Proof.
  unfold scrollToFormMessage. destruct (formMessage w) as [m|] eqn:E;
    [destruct (negb (display m =? "none")%string) | ];
    simpl; rewrite ?E; repeat split; reflexivity.
Qed.

Lemma hideFormMessage_formMessage (w : world) :
  formMessage (hideFormMessage w) = (fun _ => hiddenMessage) <$> formMessage w.
Proof.
  unfold hideFormMessage. destruct (formMessage w) eqn:E; simpl; [ | rewrite E];
    reflexivity.
Qed.

Lemma hideFormMessage_flag (w : world) :
  isSubmitting (hideFormMessage w) = isSubmitting w.
Proof. unfold hideFormMessage. destruct (formMessage w); reflexivity. Qed.

(** *** What clearing the field errors touches *)



Lemma clearFieldError_rest (fieldName : string) (w : world) :
  formMessage (clearFieldError fieldName w) = formMessage w
  /\ localStorage (clearFieldError fieldName w) = localStorage w
  /\ isSubmitting (clearFieldError fieldName w) = isSubmitting w.
Proof.
  unfold clearFieldError.
  destruct (errorElements w !! fieldName); repeat split; reflexivity.
Qed.





Lemma showFieldError_flag (fieldName : string) (message : option string)
    (w : world) :
  isSubmitting (showFieldError fieldName message w) = isSubmitting w.
Proof.
  unfold showFieldError. destruct (errorElements w !! fieldName); reflexivity.
Qed.

(** The validator method changes nothing but the error map. *)
Lemma validateField_method_frame (cfg : config) (fieldName : string)
    (raw : JsString.t) (w : world) :
  exists e, snd (FormValidator.validateField cfg fieldName raw w) = set_errors e w.
Proof.
  unfold FormValidator.validateField, FormValidator.fail. run_m.
  destruct (JsString.truthy (JsString.trim raw)); simpl.
  - destruct (getProperty inheritedRules (validation cfg) fieldName) as [r|];
      [ | eexists; reflexivity].
    destruct (FormValidator.belowMin r _);
      [destruct (getProperty inheritedMessages _ _); eexists; reflexivity | ].
    destruct (FormValidator.aboveMax r _);
      [destruct (getProperty inheritedMessages _ _); eexists; reflexivity | ].
    destruct (FormValidator.patternFails r _);
      [destruct (getProperty inheritedMessages _ _); eexists; reflexivity | ].
    eexists; reflexivity.
  - destruct (getProperty inheritedMessages _ _); eexists; reflexivity.
Qed.

Lemma validateField_flag (cfg : config) (fieldName : string) (raw : JsString.t)
    (w : world) :
  isSubmitting (snd (validateField cfg fieldName raw w)) = isSubmitting w.
Proof.
  unfold validateField. unfold mbind at 1. unfold M_bind.
  destruct (validateField_method_frame cfg fieldName raw w) as [e He].
  destruct (FormValidator.validateField cfg fieldName raw w) as [[ok|x] w1].
  - simpl in He. subst w1.
    destruct ok; unfold mbind, M_bind, modify, mret, M_ret, get;
      cbn [negb snd].
    + now destruct (clearFieldError_rest fieldName (set_errors e w))
        as (_ & _ & ->).
    + now rewrite showFieldError_flag.
  - simpl in He. now subst w1.
Qed.

(** *** The two handlers *)


Lemma handleSubmitError_spec (cfg : config) (message : string) (w : world) :
  fields (handleSubmitError cfg message w) = fields w
  /\ errorElements (handleSubmitError cfg message w) = errorElements w
  /\ formMessage (handleSubmitError cfg message w)
     = (fun _ => shownMessage message "error") <$> formMessage w
  /\ localStorage (handleSubmitError cfg message w) = localStorage w.
Proof.
  unfold handleSubmitError.
  destruct (scrollToFormMessage_rest (showFormMessage cfg message "error" w))
    as (-> & -> & -> & -> & _).
  destruct (showFormMessage_rest cfg message "error" w) as (-> & -> & -> & _).
  now rewrite showFormMessage_formMessage.
Qed.


(** *** The page machine keeps at most one submission in flight *)

Lemma removeFirst_single (k k' : pendingSend) (rest : list pendingSend) :
  removeFirst k [k'] = Some rest -> k = k' /\ rest = [].
Proof. destruct k, k'; simpl; intros [= <-]; auto. Qed.

Lemma resume_consistent (cfg : config) (k : pendingSend) (s : settlement)
    (w : world) (pend : list pendingSend) (p' : page) :
  (pend = [] \/ exists k', pend = [k']) ->
  resume cfg k s w pend = Some p' -> consistent p'.
Proof.
  unfold resume. intros Hpend.
  destruct (removeFirst k pend) as [rest|] eqn:Hrem; [ | discriminate].
  intros [= <-]. left. cbn [state pending]. split.
  - destruct Hpend as [-> | [k' ->]]; [discriminate | ].
    now apply removeFirst_single in Hrem as [_ ->].
  - apply guarded_flag.
Qed.

Lemma consistent_pending (p : page) :
  consistent p -> pending p = [] \/ exists k, pending p = [k].
Proof. intros [[H _] | [k [H _]]]; eauto. Qed.

(** A state change that keeps the flag keeps the page consistent. *)
Lemma consistent_same_flag (p : page) (w' : world) :
  consistent p -> isSubmitting w' = isSubmitting (state p) ->
  consistent {| state := w'; pending := pending p |}.
Proof.
  unfold consistent. cbn [state pending]. intros H ->. exact H.
Qed.

Lemma deliver_consistent (cfg : config) (e : event) (p p' : page) :
  consistent p -> deliver cfg e p = Some p' -> consistent p'.
Proof.
  intros Hp. destruct e as [ | i | s | | fieldName v | fieldName | dt];
    cbn [deliver].
  - destruct Hp as [[Hpend Hflag] | [k [Hpend Hflag]]].
    + pose proof (handleFormSubmit_flag cfg (state p) Hflag) as H.
      destruct (handleFormSubmit cfg (state p)) as [c w'].
      intros [= <-]. rewrite Hpend.
      destruct c as [[k|]|e]; [right; exists k | left | left];
        cbn [state pending]; auto.
    + unfold handleFormSubmit. rewrite Hflag. intros [= <-].
      right. exists k. destruct p; auto.
  - destruct (timers (state p) !! i) as [t|]; [ | discriminate].
    destruct (due t <=? now (state p))%Z; [ | discriminate].
    destruct (action t).
    + intros [= <-]. apply consistent_same_flag; [assumption | ].
      now rewrite hideFormMessage_flag.
    + intros [= <-]. now apply consistent_same_flag.
    + apply resume_consistent, consistent_pending, Hp.
  - destruct s; [discriminate | | ];
      apply resume_consistent, consistent_pending, Hp.
  - destruct (formMessage (state p)) as [m|]; [ | now intros [= <-]].
    destruct (negb (display m =? "none")%string); [ | now intros [= <-]].
    intros [= <-]. apply consistent_same_flag; [assumption | ].
    apply hideFormMessage_flag.
  - destruct (fields (state p) !! fieldName); [ | discriminate].
    intros [= <-]. apply consistent_same_flag; [assumption | ].
    now destruct (clearFieldError_rest fieldName
      (set_fields (<[fieldName := {| value := v; defaultValue := defaultValue f;
                                     hasErrorClass := hasErrorClass f;
                                     ariaInvalid := ariaInvalid f |}]>
                     (fields (state p))) (state p))) as (_ & _ & ->).
  - destruct (fields (state p) !! fieldName) as [f|]; [ | discriminate].
    intros [= <-]. apply consistent_same_flag; [assumption | ].
    apply validateField_flag.
  - destruct (0 <=? dt)%Z; [ | discriminate].
    intros [= <-]. now apply consistent_same_flag.
Qed.

Lemma run_consistent (cfg : config) (evs : list event) (p p' : page) :
  consistent p -> run cfg evs p = Some p' -> consistent p'.
Proof.
  revert p. induction evs as [|e evs IH]; intros p Hp; cbn [run].
  - now intros [= <-].
  - destruct (deliver cfg e p) as [p1|] eqn:He; [ | discriminate].
    apply IH. eapply deliver_consistent; eauto.
Qed.

(** *** Nothing throttles a submit attempt *)

Lemma bind_normal {A B : Type} (m : M A) (f : A -> M B) (w w1 : world) (a : A) :
  m w = (Normal a, w1) -> (m ≫= f) w = f a w1.
Proof. unfold mbind, M_bind. now intros ->. Qed.

Lemma getTrimmed_present (fieldName : string) (w : world) (f : field) :
  fields w !! fieldName = Some f ->
  getTrimmed fieldName w = (Normal (JsString.trim (value f)), w).
Proof. intros H. unfold getTrimmed. run_m. now rewrite H. Qed.

(** From an idle page whose values pass validation and whose button and
    four controls exist, a submit event always reaches the await: the
    flag is set and the send is started, with the message element and the
    storage as they were, whatever the storage holds. *)
Lemma handleFormSubmit_never_throttles (w : world) (b : submitButton)
    (t l : string) :
  isSubmitting w = false ->
  fst (FormValidator.validateForm FORM_CONFIG w) = Normal true ->
  submitBtn w = Some b -> btnText b = Some t -> btnLoading b = Some l ->
  (forall n, n ∈ FormValidator.knownFields -> is_Some (fields w !! n)) ->
  exists k w',
    handleFormSubmit FORM_CONFIG w = (Normal (Some k), w')
    /\ isSubmitting w' = true
    /\ formMessage w' = formMessage w
    /\ localStorage w' = localStorage w.
Proof.
  intros Hidle Hvalid Hbtn Htext Hload Hfields.
  destruct (FormFacts.validateForm_verdicts w) as (ok & e & Hrun & _ & _).
  rewrite Hrun in Hvalid. injection Hvalid as ->.
  set (w1 := set_errors e w) in *.
  set (w2 := set_submitBtn
               (Some {| disabled := true; loading := true;
                        btnText := Some "none";
                        btnLoading := Some "inline-flex" |})
               (set_isSubmitting true w1)).
  assert (Hset : setSubmittingState true w1 = (Normal tt, w2)).
  { unfold setSubmittingState. run_m. rewrite Hbtn. simpl.
    rewrite Htext. simpl. rewrite Hload. reflexivity. }
  assert (Hdata : exists data, getFormData w2 = (Normal data, w2)).
  { destruct (Hfields "name") as [f1 H1]; [set_solver | ].
    destruct (Hfields "email") as [f2 H2]; [set_solver | ].
    destruct (Hfields "subject") as [f3 H3]; [set_solver | ].
    destruct (Hfields "message") as [f4 H4]; [set_solver | ].
    unfold getFormData.
    rewrite (bind_normal _ _ _ _ _ (getTrimmed_present "name" w2 f1 H1)).
    rewrite (bind_normal _ _ _ _ _ (getTrimmed_present "email" w2 f2 H2)).
    rewrite (bind_normal _ _ _ _ _ (getTrimmed_present "subject" w2 f3 H3)).
    rewrite (bind_normal _ _ _ _ _ (getTrimmed_present "message" w2 f4 H4)).
    eexists. reflexivity. }
  destruct Hdata as [data Hdata].
  assert (Hsend : exists k w3,
            sendEmailStart FORM_CONFIG data w2 = (Normal k, w3)
            /\ isSubmitting w3 = true
            /\ formMessage w3 = formMessage w
            /\ localStorage w3 = localStorage w).
  { unfold sendEmailStart. run_m.
    destruct (emailjsInitialized w); simpl; eexists; eexists;
      repeat split; reflexivity. }
  destruct Hsend as (k & w3 & Hsend & Hflag & Hmsg & Hstore).
  exists k, w3. split; [ | auto].
  unfold handleFormSubmit. rewrite Hidle. unfold beforeAwait.
  rewrite (bind_normal _ _ _ _ _ Hrun). cbn [negb].
  rewrite (bind_normal _ _ _ _ _ Hset).
  rewrite (bind_normal _ _ _ _ _ Hdata).
  rewrite (bind_normal _ _ _ _ _ Hsend). reflexivity.
Qed.

End ControllerFacts.

(** ** What the handlers leave alone

    The handlers are built from a few state updates.  Any component of
    the state that those updates keep is kept by every handler; the two
    components of interest are the durable storage and the values of the
    controls. *)

Module FrameFacts.

Section Frame.

Context {A : Type} (proj : world -> A).

Hypothesis proj_isSubmitting : forall b w, proj (set_isSubmitting b w) = proj w.
Hypothesis proj_errors : forall e w, proj (set_errors e w) = proj w.
Hypothesis proj_errorElements :
  forall e w, proj (set_errorElements e w) = proj w.
Hypothesis proj_formMessage : forall m w, proj (set_formMessage m w) = proj w.
Hypothesis proj_submitBtn : forall b w, proj (set_submitBtn b w) = proj w.
Hypothesis proj_timers : forall t w, proj (set_timers t w) = proj w.
Hypothesis proj_sendCalls : forall c w, proj (set_sendCalls c w) = proj w.
Hypothesis proj_mark :
  forall b k w,
    proj (set_fields (alter (markField b) k (fields w)) w) = proj w.

Lemma keeps_ret {B : Type} (b : B) : keeps proj (mret b).
Proof. intros w. reflexivity. Qed.

Lemma keeps_throw {B : Type} (e : exn) : keeps proj (@throw B e).
Proof. intros w. reflexivity. Qed.

Lemma keeps_get : keeps proj get.
Proof. intros w. reflexivity. Qed.

Lemma keeps_replay {B : Type} (c : completion B) :
  keeps proj (fun w => (c, w)).
Proof. intros w. reflexivity. Qed.

Lemma keeps_modify (f : world -> world) :
  (forall w, proj (f w) = proj w) -> keeps proj (modify f).
Proof. intros Hf w. apply Hf. Qed.

Lemma keeps_bind {B C : Type} (m : M B) (f : B -> M C) :
  keeps proj m -> (forall b, keeps proj (f b)) -> keeps proj (m ≫= f).
Proof.
  intros Hm Hf w. unfold mbind, M_bind. specialize (Hm w).
  destruct (m w) as [[b|e] w1]; simpl in *.
  - now rewrite Hf.
  - assumption.
Qed.

Lemma keeps_tryCatch {B : Type} (body : M B) (handler : exn -> M B) :
  keeps proj body -> (forall e, keeps proj (handler e)) ->
  keeps proj (tryCatch body handler).
Proof.
  intros Hb Hh w. unfold tryCatch. specialize (Hb w).
  destruct (body w) as [[b|e] w1]; simpl in *.
  - assumption.
  - now rewrite Hh.
Qed.

Lemma keeps_tryFinally {B : Type} (body : M B) (cleanup : M unit) :
  keeps proj body -> keeps proj cleanup -> keeps proj (tryFinally body cleanup).
Proof.
  intros Hb Hc w. rewrite ControllerFacts.tryFinally_state.
  now rewrite Hc, Hb.
Qed.

Lemma setTimeout_kept (a : timerAction) (delay : Z) (w : world) :
  proj (setTimeout a delay w) = proj w.
Proof. apply proj_timers. Qed.

Lemma showFieldError_kept (k : string) (message : option string) (w : world) :
  proj (showFieldError k message w) = proj w.
Proof.
  unfold showFieldError. rewrite proj_mark.
  destruct (errorElements w !! k); [apply proj_errorElements | reflexivity].
Qed.

Lemma clearFieldError_kept (k : string) (w : world) :
  proj (clearFieldError k w) = proj w.
Proof.
  unfold clearFieldError. rewrite proj_mark.
  destruct (errorElements w !! k); [apply proj_errorElements | reflexivity].
Qed.

Lemma clearAllFieldErrors_kept (w : world) :
  proj (clearAllFieldErrors w) = proj w.
Proof.
  unfold clearAllFieldErrors.
  induction ((map_to_list (fields w)).*1) as [|k l IH]; cbn [foldr].
  - reflexivity.
  - now rewrite clearFieldError_kept.
Qed.

Lemma displayValidationErrors_kept (errs : gmap string (option string))
    (w : world) :
  proj (displayValidationErrors errs w) = proj w.
Proof.
  unfold displayValidationErrors.
  induction (map_to_list errs) as [|[k message] l IH]; cbn [foldr].
  - reflexivity.
  - destruct (fields _ !! k); [now rewrite showFieldError_kept | assumption].
Qed.

Lemma showFormMessage_kept (cfg : config) (message type : string) (w : world) :
  proj (showFormMessage cfg message type w) = proj w.
Proof.
  unfold showFormMessage. destruct (formMessage w); [ | reflexivity].
  now rewrite setTimeout_kept, proj_formMessage.
Qed.

Lemma hideFormMessage_kept (w : world) : proj (hideFormMessage w) = proj w.
Proof.
  unfold hideFormMessage.
  destruct (formMessage w); [apply proj_formMessage | reflexivity].
Qed.

Lemma scrollToFormMessage_kept (w : world) :
  proj (scrollToFormMessage w) = proj w.
Proof.
  unfold scrollToFormMessage. destruct (formMessage w) as [m|]; [ | reflexivity].
  destruct (negb (display m =? "none")%string);
    [apply setTimeout_kept | reflexivity].
Qed.

Lemma handleSubmitError_kept (cfg : config) (message : string) (w : world) :
  proj (handleSubmitError cfg message w) = proj w.
Proof.
  unfold handleSubmitError.
  now rewrite scrollToFormMessage_kept, showFormMessage_kept.
Qed.

Lemma setSubmittingState_keeps (b : bool) : keeps proj (setSubmittingState b).
Proof.
  intros w. destruct (ControllerFacts.setSubmittingState_state b w) as [btn ->].
  now rewrite proj_submitBtn, proj_isSubmitting.
Qed.

Lemma validateField_method_keeps (cfg : config) (k : string) (raw : JsString.t) :
  keeps proj (FormValidator.validateField cfg k raw).
Proof.
  intros w.
  destruct (ControllerFacts.validateField_method_frame cfg k raw w) as [e ->].
  apply proj_errors.
Qed.

Lemma forEachField_keeps (cfg : config) (names : list string) (isValid : bool) :
  keeps proj (FormValidator.forEachField cfg names isValid).
Proof.
  revert isValid. induction names as [|k names IH]; intros isValid;
    cbn [FormValidator.forEachField].
  - apply keeps_ret.
  - apply keeps_bind; [apply keeps_get | intros w0].
    destruct (fields w0 !! k); [ | apply IH].
    apply keeps_bind; [apply validateField_method_keeps | intros ok; apply IH].
Qed.

Lemma validateForm_keeps (cfg : config) :
  keeps proj (FormValidator.validateForm cfg).
Proof.
  unfold FormValidator.validateForm. apply keeps_bind.
  - apply keeps_modify. intros w. apply proj_errors.
  - intros _. apply forEachField_keeps.
Qed.

Lemma validateField_keeps (cfg : config) (k : string) (raw : JsString.t) :
  keeps proj (validateField cfg k raw).
Proof.
  unfold validateField. apply keeps_bind;
    [apply validateField_method_keeps | intros ok].
  destruct ok; cbn [negb].
  - apply keeps_bind; [ | intros _; apply keeps_ret].
    apply keeps_modify. intros w. apply clearFieldError_kept.
  - apply keeps_bind; [apply keeps_get | intros w0].
    apply keeps_bind; [ | intros _; apply keeps_ret].
    apply keeps_modify. intros w. apply showFieldError_kept.
Qed.

Lemma getFormData_keeps : keeps proj getFormData.
Proof. intros w. now rewrite ControllerFacts.getFormData_state. Qed.

Lemma sendEmailStart_keeps (cfg : config) (data : formData) :
  keeps proj (sendEmailStart cfg data).
Proof.
  unfold sendEmailStart. apply keeps_bind; [apply keeps_get | intros w0].
  destruct (negb (emailjsInitialized w0));
    (apply keeps_bind; [ | intros _; apply keeps_ret]); apply keeps_modify;
    intros w; [apply setTimeout_kept | apply proj_sendCalls].
Qed.

Lemma beforeAwait_keeps (cfg : config) : keeps proj (beforeAwait cfg).
Proof.
  unfold beforeAwait. apply keeps_bind; [apply validateForm_keeps | intros ok].
  destruct ok; cbn [negb].
  - apply keeps_bind; [apply setSubmittingState_keeps | intros _].
    apply keeps_bind; [apply getFormData_keeps | intros data].
    apply keeps_bind; [apply sendEmailStart_keeps | intros k].
    apply keeps_ret.
  - apply keeps_bind; [apply keeps_get | intros w0].
    apply keeps_bind; [ | intros _; apply keeps_ret].
    apply keeps_modify. intros w. apply displayValidationErrors_kept.
Qed.

Lemma guarded_keeps {B : Type} (cfg : config) (dflt : B) (body : M B) :
  keeps proj body -> keeps proj (guarded cfg dflt body).
Proof.
  intros Hbody. unfold guarded. apply keeps_tryFinally.
  - apply keeps_tryCatch; [assumption | intros _].
    apply keeps_bind; [ | intros _; apply keeps_ret].
    apply keeps_modify. intros w. apply handleSubmitError_kept.
  - apply setSubmittingState_keeps.
Qed.

(** Up to the await, and to its end when the await is not reached, the
    submit handler keeps the component. *)
Lemma handleFormSubmit_keeps (cfg : config) : keeps proj (handleFormSubmit cfg).
Proof.
  intros w. unfold handleFormSubmit.
  destruct (isSubmitting w); [reflexivity | ].
  pose proof (beforeAwait_keeps cfg w) as Hbefore.
  destruct (beforeAwait cfg w) as [c w1]. simpl in Hbefore.
  pose proof (guarded_keeps cfg None (fun w'' => (c, w'')) (keeps_replay c) w1)
    as Hg.
  destruct c as [[k|]|e]; simpl; congruence.
Qed.

(** So does the resumed handler when the send failed. *)
Lemma handleFormSubmitResume_failure_keeps (cfg : config) (s : settlement) :
  sendEmailResult s = false -> keeps proj (handleFormSubmitResume cfg s).
Proof.
  intros Hs. unfold handleFormSubmitResume, afterAwait. rewrite Hs.
  apply guarded_keeps, keeps_modify. intros w. apply handleSubmitError_kept.
Qed.

(** And, for a component that resetting the form keeps, in all cases. *)
Lemma handleFormSubmitResume_keeps (cfg : config) (s : settlement) :
  (forall w, proj (resetForm w) = proj w) ->
  keeps proj (handleFormSubmitResume cfg s).
Proof.
  intros Hreset. unfold handleFormSubmitResume, afterAwait.
  destruct (sendEmailResult s); apply guarded_keeps, keeps_modify; intros w.
  - unfold handleSubmitSuccess.
    now rewrite scrollToFormMessage_kept, clearAllFieldErrors_kept,
      showFormMessage_kept.
  - apply handleSubmitError_kept.
Qed.

End Frame.

(** No handler of the submission pipeline writes the durable storage. *)
Lemma handleFormSubmit_storage (cfg : config) (w : world) :
  localStorage (snd (handleFormSubmit cfg w)) = localStorage w.
Proof. apply (handleFormSubmit_keeps localStorage); reflexivity. Qed.

Lemma handleFormSubmitResume_storage (cfg : config) (s : settlement) (w : world) :
  localStorage (snd (handleFormSubmitResume cfg s w)) = localStorage w.
Proof. apply (handleFormSubmitResume_keeps localStorage); reflexivity. Qed.

(** No event of the page changes the durable storage. *)
Lemma deliver_storage (cfg : config) (e : event) (p p' : page) :
  deliver cfg e p = Some p' ->
  localStorage (state p') = localStorage (state p).
Proof.
  destruct e as [ | i | s | | k v | k | dt]; cbn [deliver].
  - pose proof (handleFormSubmit_storage cfg (state p)) as H.
    destruct (handleFormSubmit cfg (state p)) as [c w']. now intros [= <-].
  - destruct (timers (state p) !! i) as [t|]; [ | discriminate].
    destruct (due t <=? now (state p))%Z; [ | discriminate].
    destruct (action t).
    + intros [= <-]. cbn [state].
      now rewrite (hideFormMessage_kept localStorage) by reflexivity.
    + now intros [= <-].
    + unfold resume. destruct (removeFirst _ _); [ | discriminate].
      intros [= <-]. cbn [state]. now rewrite handleFormSubmitResume_storage.
  - destruct s; [discriminate | | ]; unfold resume;
      (destruct (removeFirst _ _); [ | discriminate]);
      intros [= <-]; cbn [state]; now rewrite handleFormSubmitResume_storage.
  - destruct (formMessage (state p)) as [m|]; [ | now intros [= <-]].
    destruct (negb (display m =? "none")%string); [ | now intros [= <-]].
    intros [= <-]. cbn [state].
    now rewrite (hideFormMessage_kept localStorage) by reflexivity.
  - destruct (fields (state p) !! k); [ | discriminate].
    intros [= <-]. cbn [state].
    now rewrite (clearFieldError_kept localStorage) by reflexivity.
  - destruct (fields (state p) !! k); [ | discriminate].
    intros [= <-]. cbn [state].
    now rewrite (validateField_keeps localStorage) by reflexivity.
  - destruct (0 <=? dt)%Z; [ | discriminate]. now intros [= <-].
Qed.

Lemma run_storage (cfg : config) (evs : list event) (p p' : page) :
  run cfg evs p = Some p' ->
  localStorage (state p') = localStorage (state p).
Proof.
  revert p. induction evs as [|e evs IH]; intros p; cbn [run].
  - now intros [= <-].
  - destruct (deliver cfg e p) as [p1|] eqn:He; [ | discriminate].
    intros Hrun. rewrite (IH _ Hrun). eapply deliver_storage; eauto.
Qed.

(** The values of the controls are kept by marking a control. *)
Lemma values_mark (b : bool) (k : string) (w : world) :
  value <$> fields (set_fields (alter (markField b) k (fields w)) w)
  = value <$> fields w.
Proof.
  cbn [fields set_fields]. apply map_eq. intros j.
  rewrite !lookup_fmap, lookup_alter.
  destruct (decide (k = j)) as [<- | ]; [ | reflexivity].
  now destruct (fields w !! k).
Qed.


Lemma handleFormSubmitResume_failure_values (cfg : config) (s : settlement)
    (w : world) :
  sendEmailResult s = false ->
  value <$> fields (snd (handleFormSubmitResume cfg s w)) = value <$> fields w.
Proof.
  intros Hs.
  apply (handleFormSubmitResume_failure_keeps (fun w => value <$> fields w));
    try reflexivity. assumption.
Qed.

End FrameFacts.

(** ** The rate limiter on its own *)

Module RateLimitFacts.

(** Called within 60000 ms of the stored time, [checkRateLimit] answers
    false, shows the throttling message and leaves the storage alone. *)
Lemma checkRateLimit_rejects (cfg : config) (w : world) (s : JsString.t)
    (t : Z) :
  localStorage w !! lastFormSubmit = Some s ->
  JsString.truthy s = true ->
  parseInt s = Some t ->
  (now w - t < 60000)%Z ->
  checkRateLimit cfg w = (false, showFormMessage cfg rateLimitText "error" w).
Proof.
  intros Hs Htruthy Hparse Hrecent. unfold checkRateLimit.
  rewrite Hs, Htruthy, Hparse. cbn [andb].
  destruct (Z.ltb_spec (now w - t) 60000); [reflexivity | lia].
Qed.

(** From 60000 ms on (the bound itself included) it answers true and
    stamps the storage with the current time. *)
Lemma checkRateLimit_lets_through (cfg : config) (w : world) (s : JsString.t)
    (t : Z) :
  localStorage w !! lastFormSubmit = Some s ->
  parseInt s = Some t ->
  (60000 <= now w - t)%Z ->
  checkRateLimit cfg w
  = (true,
     set_localStorage
       (<[lastFormSubmit := numberToString (now w)]> (localStorage w)) w).
Proof.
  intros Hs Hparse Hold. unfold checkRateLimit. rewrite Hs, Hparse.
  destruct (Z.ltb_spec (now w - t) 60000); [lia | ].
  now rewrite andb_false_r.
Qed.

Lemma checkRateLimit_first_time (cfg : config) (w : world) :
  localStorage w !! lastFormSubmit = None ->
  checkRateLimit cfg w
  = (true,
     set_localStorage
       (<[lastFormSubmit := numberToString (now w)]> (localStorage w)) w).
Proof. intros Hs. unfold checkRateLimit. now rewrite Hs. Qed.

Example parseInt_round_trip : parseInt (numberToString 1723456789012) = Some 1723456789012.
Proof. vm_compute. reflexivity. Qed.

Example parseInt_not_a_number : parseInt (JsString.of_ascii "soon") = None.
Proof. reflexivity. Qed.

(** One millisecond before the bound, at the bound, and after it. *)
Example checkRateLimit_boundary :
  let at_time t :=
    fst (checkRateLimit FORM_CONFIG
           (set_now t
              (set_localStorage (<[lastFormSubmit := numberToString 1000]> ∅)
                 initialWorld))) in
  at_time 60999 = false /\ at_time 61000 = true /\ at_time 61001 = true.
Proof. vm_compute. repeat split; reflexivity. Qed.

End RateLimitFacts.

(** ** The field validator *)

(** C2: for every configured field name and every raw value,
    [FormValidator.validateField] trims the value and reports the first
    violation in the fixed order required, minLength, maxLength, pattern,
    with the message configured for that violation, and succeeds when
    there is none.  In particular a value that is empty after trimming
    reports required whatever the other rules are (so also under a
    pattern rule, as for the email field), and [" ab "] passes the name
    field, whose minLength is 2, because the length is taken after
    trimming. *)
Theorem validateField_trims_then_checks_in_order
    (fieldName : string) (r : rules) (m : messages) (raw : JsString.t)
    (w : world) :
  validation FORM_CONFIG !! fieldName = Some r ->
  errorMessages FORM_CONFIG !! fieldName = Some m ->
  FormValidator.validateField FORM_CONFIG fieldName raw w =
    match verdict r raw with
    | None => (Normal true, set_errors (delete fieldName (errors w)) w)
    | Some k =>
        (Normal false,
         set_errors
           (<[fieldName := messageFor m k]> (delete fieldName (errors w))) w)
    end
  /\ (forall k, verdict r raw = Some k -> is_Some (messageFor m k))
  /\ (JsString.trim raw = [] -> verdict r raw = Some Required)
  /\ (let '(c, w') :=
         FormValidator.validateField FORM_CONFIG "email"
           (JsString.of_ascii "   ") w in
       c = Normal false
       /\ errors w' !! "email" = Some (Some "El email es obligatorio"))
  /\ fst (FormValidator.validateField FORM_CONFIG "name"
            (JsString.of_ascii " ab ") w)
     = Normal true.
Proof.
  intros Hr Hm. split; [ | split; [ | split; [ | split]]].
  - apply (ValidatorFacts.validateField_configured _ _ _ _ _ Hr Hm).
  - intros k. apply (ValidatorFacts.configured_sound _ _ _ Hr Hm).
  - unfold verdict. intros ->. reflexivity.
  - rewrite (ValidatorFacts.validateField_configured "email" _ _ _ _
               eq_refl eq_refl).
    split; [reflexivity | ]. cbn [errors set_errors].
    apply lookup_insert_eq.
  - now rewrite (ValidatorFacts.validateField_configured "name" _ _ _ _
                   eq_refl eq_refl).
Qed.

(** The email field of a blank page, given a value without an at sign:
    the pattern violation and its message. *)
Lemma validateField_trims_then_checks_in_order_witness :
  fst (FormValidator.validateField FORM_CONFIG "email"
         (JsString.of_ascii "bad-email") initialWorld) = Normal false
  /\ errors (snd (FormValidator.validateField FORM_CONFIG "email"
                    (JsString.of_ascii "bad-email") initialWorld)) !! "email"
     = Some (Some "Por favor ingresa un email válido").
Proof.
  pose proof (validateField_trims_then_checks_in_order "email"
    emailRules emailMessages (JsString.of_ascii "bad-email") initialWorld
    eq_refl eq_refl) as (H & _).
  rewrite H. split; vm_compute; reflexivity.
Defined.

(** C10, as the claim words it, fails: [constructor] is not a key of the
    rule table, yet [FormValidator.validateField] returns a verdict for a
    field of that name, because the lookups in the two tables find the
    property inherited from [Object.prototype] instead of [undefined]. *)
Lemma validateField_inherited_name_returns :
  validation FORM_CONFIG !! "constructor" = None
  /\ errorMessages FORM_CONFIG !! "constructor" = None
  /\ fst (FormValidator.validateField FORM_CONFIG "constructor" []
            initialWorld) = Normal false
  /\ fst (FormValidator.validateField FORM_CONFIG "constructor"
            (JsString.of_ascii "x") initialWorld) = Normal true
  /\ ~ (forall fieldName raw w,
          validation FORM_CONFIG !! fieldName = None ->
          fst (FormValidator.validateField FORM_CONFIG fieldName raw w)
          = Throw TypeError).
Proof.
  split; [reflexivity | split; [reflexivity | split; [reflexivity | ]]].
  split; [reflexivity | ].
  intros H. specialize (H "constructor" [] initialWorld eq_refl).
  discriminate H.
Qed.

(** C10, amended: [FormValidator.validateField] raises a TypeError, on the
    empty-value path and on the non-empty-value path alike, exactly for
    the field names that are neither one of the four configured names nor
    the name of a property inherited from [Object.prototype]; for every
    other name it returns a verdict. *)
Theorem validateField_throws_iff_unknown
    (fieldName : string) (raw : JsString.t) (w : world) :
  fst (FormValidator.validateField FORM_CONFIG fieldName raw w)
  = Throw TypeError
  <-> (fieldName ∉ FormValidator.knownFields)
      /\ (fieldName ∉ objectPrototypeKeys).
Proof.
  destruct (decide (fieldName ∈ FormValidator.knownFields)) as [Hk | Hk].
  - destruct (ValidatorFacts.known_configured _ Hk) as (r & m & Hr & Hm).
    rewrite (ValidatorFacts.validateField_configured _ _ _ _ _ Hr Hm).
    split; [ | tauto]. destruct (verdict r raw); discriminate.
  - destruct (ValidatorFacts.unknown_not_configured _ Hk) as [Hr Hm].
    destruct (decide (fieldName ∈ objectPrototypeKeys)) as [Hp | Hp].
    + rewrite (ValidatorFacts.validateField_verdict _ _ inheritedRules
                 inheritedMessages).
      * split; [ | tauto]. destruct (verdict inheritedRules raw); discriminate.
      * unfold getProperty. rewrite Hr. now rewrite bool_decide_eq_true_2.
      * unfold getProperty. rewrite Hm. now rewrite bool_decide_eq_true_2.
      * discriminate.
    + split; [auto | intros _].
      unfold FormValidator.validateField, getProperty. rewrite Hr, Hm.
      rewrite bool_decide_eq_false_2 by assumption.
      run_m. destruct (JsString.truthy (JsString.trim raw)); reflexivity.
Qed.

(** C9: [FormValidator.validateForm] resets the Validation Result (its
    outcome does not depend on the mapping it finds), re-validates every
    known field from its current value, returns true exactly when the
    resulting mapping is empty, touches nothing but the mapping, and a
    second call with no field mutation yields the same mapping and the
    same boolean. *)
Theorem validateForm_idempotent (w : world) :
  exists (b : bool) (w1 : world),
    FormValidator.validateForm FORM_CONFIG w = (Normal b, w1)
    /\ w1 = set_errors (errors w1) w
    /\ (forall n, errors w1 !! n = formVerdict FORM_CONFIG (fields w) n)
    /\ (forall e0,
          FormValidator.validateForm FORM_CONFIG (set_errors e0 w)
          = (Normal b, w1))
    /\ (b = true <-> errors w1 = ∅)
    /\ FormValidator.validateForm FORM_CONFIG w1 = (Normal b, w1).
Proof.
  destruct (FormFacts.validateForm_verdicts w) as (b & e & Hrun & He & Hb).
  exists b, (set_errors e w).
  assert (Hreset : forall e0,
            FormValidator.validateForm FORM_CONFIG (set_errors e0 w)
            = (Normal b, set_errors e w)).
  { intros e0. rewrite <- Hrun. reflexivity. }
  split; [exact Hrun | split; [reflexivity | split; [exact He | ]]].
  split; [exact Hreset | split; [exact Hb | apply Hreset]].
Qed.

(** ** The submission pipeline *)

(** C1, as evaluated on the code: the page holds valid values and a
    last-submit timestamp that is 1000 ms old.  [checkRateLimit] exists
    and would reject (throttling message, storage untouched), but
    [handleFormSubmit] never calls it: the attempt goes through, the
    in-flight flag is set, the demo send is started and no throttling
    message is shown. *)
Theorem submit_ignores_rate_limit :
  localStorage recentlySubmittedWorld !! lastFormSubmit
    = Some (numberToString 1000)
  /\ now recentlySubmittedWorld = 2000
  /\ fst (FormValidator.validateForm FORM_CONFIG recentlySubmittedWorld) = Normal true
  /\ fst (checkRateLimit FORM_CONFIG recentlySubmittedWorld) = false
  /\ formMessage (snd (checkRateLimit FORM_CONFIG recentlySubmittedWorld))
     = Some (shownMessage rateLimitText "error")
  /\ fst (handleFormSubmit FORM_CONFIG recentlySubmittedWorld)
     = Normal (Some DemoDelay)
  /\ isSubmitting (snd (handleFormSubmit FORM_CONFIG recentlySubmittedWorld))
     = true
  /\ formMessage (snd (handleFormSubmit FORM_CONFIG recentlySubmittedWorld))
     = Some hiddenMessage
  /\ timers (snd (handleFormSubmit FORM_CONFIG recentlySubmittedWorld))
     = [{| due := 4000; action := DemoSendDone |}]
  /\ localStorage (snd (handleFormSubmit FORM_CONFIG recentlySubmittedWorld))
     = localStorage recentlySubmittedWorld.
Proof.
  split; [vm_compute; reflexivity | ].
  split; [vm_compute; reflexivity | ].
  split; [vm_compute; reflexivity | ].
  split; [vm_compute; reflexivity | ].
  split; [vm_compute; reflexivity | ].
  split; [vm_compute; reflexivity | ].
  split; [vm_compute; reflexivity | ].
  split; [vm_compute; reflexivity | ].
  split; vm_compute; reflexivity.
Qed.

(** C3: once a submit cycle has run to its end the in-flight flag is
    false.  The resumed handler clears it whatever the settlement of the
    send (success, failure or exception) and whatever the handlers and
    the button do; a cycle that ends before the await (failed validation
    or an exception) clears it as well, and the only other way out of the
    handler is the suspension at the await, with the flag set. *)
Theorem in_flight_flag_released (w : world) :
  (forall s, isSubmitting (snd (handleFormSubmitResume FORM_CONFIG s w)) = false)
  /\ (isSubmitting w = false ->
      match handleFormSubmit FORM_CONFIG w with
      | (Normal (Some _), w') => isSubmitting w' = true
      | (_, w') => isSubmitting w' = false
      end).
Proof.
  split.
  - intros s. apply ControllerFacts.guarded_flag.
  - apply ControllerFacts.handleFormSubmit_flag.
Qed.

Lemma in_flight_flag_released_witness :
  isSubmitting initialWorld = false
  /\ isSubmitting (snd (handleFormSubmit FORM_CONFIG initialWorld)) = false
  /\ isSubmitting
       (snd (handleFormSubmitResume FORM_CONFIG Failed
               (snd (handleFormSubmit FORM_CONFIG filledWorld)))) = false.
Proof.
  split; [reflexivity | split].
  - pose proof (proj2 (in_flight_flag_released initialWorld) eq_refl) as H.
    destruct (handleFormSubmit FORM_CONFIG initialWorld) as [[[k|]|e] w'] eqn:E;
      [ | exact H | exact H].
    vm_compute in E. discriminate E.
  - apply (proj1 (in_flight_flag_released _)).
Defined.

(** C4: while the in-flight flag is true a submit event does nothing: the
    handler returns at once with the very same state (no validation, no
    rate check, no send, no change), and so does the page.  Along every
    run of the page that starts with at most one submission in flight,
    at most one submission stays in flight. *)
Theorem submit_while_in_flight_is_noop (p : page) :
  isSubmitting (state p) = true ->
  handleFormSubmit FORM_CONFIG (state p) = (Normal None, state p)
  /\ deliver FORM_CONFIG Submit p = Some p
  /\ (consistent p ->
      forall evs p', run FORM_CONFIG evs p = Some p' ->
        (length (pending p') <= 1)%nat
        /\ (isSubmitting (state p') = true <-> pending p' <> [])).
Proof.
  intros Hflag.
  assert (Hnoop : handleFormSubmit FORM_CONFIG (state p) = (Normal None, state p)).
  { unfold handleFormSubmit. now rewrite Hflag. }
  split; [exact Hnoop | split].
  - cbn [deliver]. rewrite Hnoop. now destruct p.
  - intros Hp evs p' Hrun.
    pose proof (ControllerFacts.run_consistent _ _ _ _ Hp Hrun)
      as [[Hpend Hidle] | [k [Hpend Hbusy]]];
      rewrite Hpend; cbn [length]; (split; [lia | ]).
    + rewrite Hidle. split; [discriminate | congruence].
    + rewrite Hbusy. split; [discriminate | reflexivity].
Qed.

(** The page whose demo submission is in flight, and three more submit
    events. *)
Lemma submit_while_in_flight_is_noop_witness :
  isSubmitting (state sendingPage) = true
  /\ consistent sendingPage
  /\ deliver FORM_CONFIG Submit sendingPage = Some sendingPage
  /\ run FORM_CONFIG [Submit; Submit; Submit] sendingPage = Some sendingPage
  /\ (length (pending sendingPage) <= 1)%nat.
Proof.
  assert (Hflag : isSubmitting (state sendingPage) = true)
    by (vm_compute; reflexivity).
  assert (Hcons : consistent sendingPage)
    by (right; exists DemoDelay; split; [reflexivity | exact Hflag]).
  destruct (submit_while_in_flight_is_noop sendingPage Hflag)
    as (_ & Hdeliver & Hrun).
  assert (Hthree : run FORM_CONFIG [Submit; Submit; Submit] sendingPage
                   = Some sendingPage).
  { do 3 (cbn [run]; rewrite Hdeliver). reflexivity. }
  split; [exact Hflag | split; [exact Hcons | split; [exact Hdeliver | ]]].
  split; [exact Hthree | ].
  exact (proj1 (Hrun Hcons _ _ Hthree)).
Defined.






(** C8: in demo mode (no collaborator initialised) [sendEmail], for any
    payload, calls no external send; it schedules one timer of 2000 ms,
    which cannot fire before the clock has advanced that far, and when
    the timer fires it reports success. *)
Theorem demo_mode_send (data : formData) (w : world) :
  emailjsInitialized w = false ->
  sendEmailStart FORM_CONFIG data w
    = (Normal DemoDelay, setTimeout DemoSendDone 2000 w)
  /\ timers (setTimeout DemoSendDone 2000 w)
     = (timers w ++ [{| due := now w + 2000; action := DemoSendDone |}])%list
  /\ sendCalls (setTimeout DemoSendDone 2000 w) = sendCalls w
  /\ sendEmailResult TimerFired = true
  /\ (forall (p : page) (i : nat) (t : timer),
        timers (state p) !! i = Some t ->
        (now (state p) < due t)%Z ->
        deliver FORM_CONFIG (TimerFires i) p = None).
Proof.
  intros Hdemo. split; [ | split; [ | split; [ | split]]]; try reflexivity.
  - unfold sendEmailStart. run_m. now rewrite Hdemo.
  - intros p i t Ht Hdue. cbn [deliver]. rewrite Ht.
    destruct (Z.leb_spec (due t) (now (state p))); [lia | reflexivity].
Qed.

Lemma demo_mode_send_witness :
  emailjsInitialized filledWorld = false
  /\ fst (sendEmailStart FORM_CONFIG
            {| fd_name := []; fd_email := []; fd_subject := [];
               fd_message := []; fd_timestamp := 0; fd_userAgent := "" |}
            filledWorld) = Normal DemoDelay
  /\ run FORM_CONFIG [Submit; Elapse 1999; TimerFires 0]
       {| state := filledWorld; pending := [] |} = None
  /\ (formMessage ∘ state)
       <$> run FORM_CONFIG [Submit; Elapse 2000; TimerFires 0]
             {| state := filledWorld; pending := [] |}
     = Some (Some (shownMessage successText "success")).
Proof.
  pose proof (demo_mode_send
    {| fd_name := []; fd_email := []; fd_subject := []; fd_message := [];
       fd_timestamp := 0; fd_userAgent := "" |} filledWorld eq_refl)
    as (Hstart & _).
  split; [reflexivity | split; [now rewrite Hstart | ]].
  split; vm_compute; reflexivity.
Defined.

(** C6, as the claim words it, fails.  With the collaborator
    initialised, a first send fails at time 0 (error message, to be
    dismissed at 7000) and a second one succeeds at time 3000 (success
    message, to be dismissed at 8000).  At time 7000 the timer of the
    error message fires: the success message is on display, its own timer
    is still pending, and the stale timer hides it. *)
Lemma stale_timer_hides_newer_message :
  (formMessage ∘ state) <$> run FORM_CONFIG supersedingEvents supersedingPage
    = Some (Some (shownMessage successText "success"))
  /\ (fun p => (now (state p), timers (state p)))
       <$> run FORM_CONFIG supersedingEvents supersedingPage
     = Some (7000,
             [ {| due := 7000; action := HideFormMessage |};
               {| due := 100; action := ScrollToFormMessage |};
               {| due := 8000; action := HideFormMessage |};
               {| due := 3100; action := ScrollToFormMessage |} ])
  /\ (formMessage ∘ state)
       <$> run FORM_CONFIG (supersedingEvents ++ [TimerFires 0]) supersedingPage
     = Some (Some hiddenMessage).
Proof.
  split; [vm_compute; reflexivity | ].
  split; vm_compute; reflexivity.
Qed.

(** C6, amended: an auto-dismiss timer that is due always fires, and it
    hides whatever message is on display at that moment, the newer
    message that superseded its own included: [hideFormMessage] looks at
    no identity or content, and nothing else of the page changes but the
    timer being consumed. *)
Theorem dismiss_timer_hides_current_message (p : page) (i : nat) (t : timer) :
  timers (state p) !! i = Some t ->
  action t = HideFormMessage ->
  (due t <= now (state p))%Z ->
  exists p',
    deliver FORM_CONFIG (TimerFires i) p = Some p'
    /\ formMessage (state p') = (fun _ => hiddenMessage) <$> formMessage (state p)
    /\ timers (state p') = delete i (timers (state p))
    /\ fields (state p') = fields (state p)
    /\ pending p' = pending p.
Proof.
  intros Ht Hact Hdue. cbn [deliver]. rewrite Ht, Hact.
  destruct (Z.leb_spec (due t) (now (state p))); [ | lia].
  eexists. split; [reflexivity | ]. cbn [state pending].
  rewrite ControllerFacts.hideFormMessage_formMessage.
  unfold hideFormMessage. cbn [formMessage set_timers].
  destruct (formMessage (state p)); repeat split; reflexivity.
Qed.

Lemma dismiss_timer_hides_current_message_witness :
  exists p1 p2,
    run FORM_CONFIG supersedingEvents supersedingPage = Some p1
    /\ formMessage (state p1) = Some (shownMessage successText "success")
    /\ deliver FORM_CONFIG (TimerFires 0) p1 = Some p2
    /\ formMessage (state p2) = Some hiddenMessage.
Proof.
  destruct (run FORM_CONFIG supersedingEvents supersedingPage) as [p1|] eqn:E;
    [ | vm_compute in E; discriminate E].
  assert (Hmsg : formMessage (state p1) = Some (shownMessage successText "success")).
  { vm_compute in E. injection E as <-. reflexivity. }
  assert (Ht : timers (state p1) !! 0%nat
               = Some {| due := 7000; action := HideFormMessage |}).
  { vm_compute in E. injection E as <-. reflexivity. }
  assert (Hnow : (7000 <= now (state p1))%Z).
  { vm_compute in E. injection E as <-. cbn. lia. }
  destruct (dismiss_timer_hides_current_message p1 0 _ Ht eq_refl Hnow)
    as (p2 & Hdel & Hhid & _).
  exists p1, p2. rewrite Hmsg in Hhid. auto.
Defined.

(** * Further properties of the two scripts *)

(** ** The rate limiter: what it stores, it reads back *)

Module RoundTripFacts.

Lemma readDigits_uint (d : Decimal.uint) (acc : N) :
  readDigits 10 (Some (Z.of_N acc))
    (JsString.of_ascii (NilEmpty.string_of_uint d))
  = Some (Z.of_N (Unsigned.of_lu (Decimal.rev d)
                  + acc * 10 ^ Unsigned.usize d)%N).
Proof.
  revert acc.
  induction d; intros acc; cbn [NilEmpty.string_of_uint JsString.of_ascii];
    [ cbn; f_equal; lia | .. ];
    cbn [readDigits];
    match goal with
    | |- context [digitValue 10 (N_of_ascii ?a)] =>
        let v := eval vm_compute in (digitValue 10 (N_of_ascii a)) in
        change (digitValue 10 (N_of_ascii a)) with v
    end;
    cbv beta iota; cbn [default]; unfold id;
    match goal with
    | |- readDigits 10 (Some (10 * Z.of_N acc + ?k)) _ = _ =>
        replace (10 * Z.of_N acc + k) with (Z.of_N (Z.to_N k + 10 * acc)%N)
          by lia
    end;
    rewrite IHd; f_equal; f_equal;
    match goal with
    | |- context [Decimal.rev (?D d)] =>
        change (Decimal.rev (D d)) with (Decimal.revapp d (D Decimal.Nil));
        rewrite (Unsigned.of_lu_revapp d (D Decimal.Nil))
    end;
    cbn [Unsigned.of_lu Unsigned.usize Z.to_N];
    rewrite N.pow_succ_r'; ring.
Qed.

Lemma string_of_uint_head (d : Decimal.uint) :
  d <> Decimal.Nil ->
  exists c rest,
    JsString.of_ascii (NilEmpty.string_of_uint d) = c :: rest
    /\ (48 <= c <= 57)%N
    /\ (rest = [] \/ exists c' rest', rest = c' :: rest' /\ (48 <= c' <= 57)%N).
Proof.
  intros Hd. destruct d as [|d|d|d|d|d|d|d|d|d|d]; [congruence | ..];
    destruct d as [|d|d|d|d|d|d|d|d|d|d];
    cbn [NilEmpty.string_of_uint JsString.of_ascii];
    eexists; eexists;
    (split; [reflexivity | ]);
    (split; [vm_compute; split; discriminate | ]);
    first [ left; reflexivity
          | right; eexists; eexists;
            split; [reflexivity | vm_compute; split; discriminate] ].
Qed.

Lemma digit_cases (c : N) :
  (48 <= c <= 57)%N ->
  c = 48%N \/ c = 49%N \/ c = 50%N \/ c = 51%N \/ c = 52%N \/ c = 53%N
  \/ c = 54%N \/ c = 55%N \/ c = 56%N \/ c = 57%N.
Proof. lia. Qed.

Lemma isWhiteSpace_digit (c : N) :
  (48 <= c <= 57)%N -> JsString.isWhiteSpace c = false.
Proof.
  intros Hc.
  destruct (digit_cases c Hc)
    as [-> | [-> | [-> | [-> | [-> | [-> | [-> | [-> | [-> | ->]]]]]]]]];
    reflexivity.
Qed.

Lemma digitValue_digit (c : N) :
  (48 <= c <= 57)%N -> digitValue 10 c = Some (Z.of_N c - 48).
Proof.
  intros Hc. unfold digitValue, inRange.
  destruct (N.leb_spec 48 c); [ | lia].
  destruct (N.leb_spec c 57); [ | lia]. cbn [andb].
  destruct (Z.ltb_spec (Z.of_N c - 48) 10); [reflexivity | lia].
Qed.

Lemma fmap_mul_1 (x : option Z) : (fun n => 1 * n) <$> x = x.
Proof. destruct x as [n|]; [ | reflexivity]. cbn. f_equal. lia. Qed.

(** [parseInt] on a text that starts with a decimal digit followed by
    nothing or by another decimal digit reads it in radix 10. *)
Lemma parseInt_decimal (c : N) (rest : JsString.t) :
  (48 <= c <= 57)%N ->
  (rest = [] \/ exists c' rest', rest = c' :: rest' /\ (48 <= c' <= 57)%N) ->
  parseInt (c :: rest) = readDigits 10 (Some 0) (c :: rest).
Proof.
  intros Hc Hrest.
  destruct (digit_cases c Hc)
    as [-> | [-> | [-> | [-> | [-> | [-> | [-> | [-> | [-> | ->]]]]]]]]];
    try (unfold parseInt; cbn -[Z.mul Z.add]; apply fmap_mul_1).
  destruct Hrest as [-> | (c' & rest' & -> & Hc')]; [reflexivity | ].
  destruct (digit_cases c' Hc')
    as [-> | [-> | [-> | [-> | [-> | [-> | [-> | [-> | [-> | ->]]]]]]]]];
    unfold parseInt; cbn -[Z.mul Z.add]; apply fmap_mul_1.
Qed.

Lemma parseInt_negative (c : N) (rest : JsString.t) :
  (48 <= c <= 57)%N ->
  (rest = [] \/ exists c' rest', rest = c' :: rest' /\ (48 <= c' <= 57)%N) ->
  parseInt (45%N :: c :: rest)
  = (fun n => -1 * n) <$> readDigits 10 (Some 0) (c :: rest).
Proof.
  intros Hc Hrest.
  destruct (digit_cases c Hc)
    as [-> | [-> | [-> | [-> | [-> | [-> | [-> | [-> | [-> | ->]]]]]]]]];
    try reflexivity.
  destruct Hrest as [-> | (c' & rest' & -> & Hc')]; [reflexivity | ].
  destruct (digit_cases c' Hc')
    as [-> | [-> | [-> | [-> | [-> | [-> | [-> | [-> | [-> | ->]]]]]]]]];
    reflexivity.
Qed.

Lemma readDigits_to_uint (p : positive) :
  readDigits 10 (Some 0)
    (JsString.of_ascii (NilEmpty.string_of_uint (Pos.to_uint p)))
  = Some (Z.pos p).
Proof.
  change (Some 0) with (Some (Z.of_N 0)).
  rewrite (readDigits_uint (Pos.to_uint p) 0).
  rewrite N.mul_0_l, N.add_0_r, <- Unsigned.of_uint_alt, Unsigned.of_to.
  reflexivity.
Qed.

Lemma round_trip (n : Z) :
  parseInt (numberToString n) = Some n
  /\ JsString.truthy (numberToString n) = true.
Proof.
  unfold numberToString. destruct n as [|p|p].
  - split; reflexivity.
  - cbn [Z.to_int NilEmpty.string_of_int].
    destruct (string_of_uint_head (Pos.to_uint p) (Unsigned.to_uint_nonnil p))
      as (c & rest & E & Hc & Hrest).
    rewrite E. split; [ | reflexivity].
    rewrite (parseInt_decimal c rest Hc Hrest), <- E.
    apply readDigits_to_uint.
  - cbn [Z.to_int NilEmpty.string_of_int JsString.of_ascii].
    destruct (string_of_uint_head (Pos.to_uint p) (Unsigned.to_uint_nonnil p))
      as (c & rest & E & Hc & Hrest).
    rewrite E. split; [ | reflexivity].
    change (N_of_ascii "-") with 45%N.
    rewrite (parseInt_negative c rest Hc Hrest), <- E.
    now rewrite readDigits_to_uint.
Qed.

End RoundTripFacts.

(** ** The rate limiter *)

(** X1: the text that [checkRateLimit] stores, [toString] of an integer
    clock value, is read back by [parseInt] as that same integer, and is
    never the empty (falsy) text.  The bound is the range in which a
    Number holds every integer exactly, where [numberToString] and
    [parseInt] are the conversions of the language. *)
Theorem parseInt_numberToString (n : Z) :
  (Z.abs n < 2 ^ 53)%Z ->
  parseInt (numberToString n) = Some n
  /\ JsString.truthy (numberToString n) = true.
Proof. intros _. apply RoundTripFacts.round_trip. Qed.

Lemma parseInt_numberToString_witness :
  parseInt (numberToString 1723456789012) = Some 1723456789012
  /\ parseInt (numberToString (-42)) = Some (-42).
Proof.
  split.
  - apply (parseInt_numberToString 1723456789012). reflexivity.
  - apply (parseInt_numberToString (-42)). reflexivity.
Defined.

(** X2: once [checkRateLimit] has let a call through at time [now w],
    the next call, on any page whose storage still holds what that call
    stored, is refused exactly when less than 60000 ms have passed (at
    60000 ms it goes through again); a refused call shows the throttling
    message and leaves the storage as it was, so it does not move the
    window. *)
Theorem checkRateLimit_window (cfg : config) (w w2 : world) :
  fst (checkRateLimit cfg w) = true ->
  localStorage w2 !! lastFormSubmit
  = localStorage (snd (checkRateLimit cfg w)) !! lastFormSubmit ->
  fst (checkRateLimit cfg w2) = (60000 <=? now w2 - now w)%Z
  /\ (fst (checkRateLimit cfg w2) = false ->
      snd (checkRateLimit cfg w2) = showFormMessage cfg rateLimitText "error" w2
      /\ localStorage (snd (checkRateLimit cfg w2)) = localStorage w2)
  /\ (fst (checkRateLimit cfg w2) = true ->
      localStorage (snd (checkRateLimit cfg w2)) !! lastFormSubmit
      = Some (numberToString (now w2))).
Proof.
  intros Hfirst Hsame.
  assert (Hstored : localStorage w2 !! lastFormSubmit
                    = Some (numberToString (now w))).
  { rewrite Hsame. revert Hfirst. unfold checkRateLimit.
    destruct (match localStorage w !! lastFormSubmit with
              | Some s => _ | None => false end); [discriminate | ].
    intros _. cbn [snd localStorage set_localStorage]. apply lookup_insert_eq. }
  destruct (RoundTripFacts.round_trip (now w)) as [Hparse Htruthy].
  unfold checkRateLimit. rewrite Hstored, Hparse, Htruthy. cbn [andb].
  destruct (Z.ltb_spec (now w2 - now w) 60000) as [Hlt | Hge];
    destruct (Z.leb_spec 60000 (now w2 - now w)); try lia;
    cbn [fst snd]; (split; [reflexivity | split]); try discriminate; intros _.
  - split; [reflexivity | ].
    now destruct (ControllerFacts.showFormMessage_rest cfg rateLimitText "error" w2)
      as (_ & _ & -> & _).
  - cbn [localStorage set_localStorage]. apply lookup_insert_eq.
Qed.

(** A first call at time 1000 on an empty storage, then calls 59999 and
    60000 ms later. *)
Lemma checkRateLimit_window_witness :
  fst (checkRateLimit FORM_CONFIG (set_now 1000 initialWorld)) = true
  /\ fst (checkRateLimit FORM_CONFIG
            (set_now 60999
               (snd (checkRateLimit FORM_CONFIG (set_now 1000 initialWorld)))))
     = false
  /\ fst (checkRateLimit FORM_CONFIG
            (set_now 61000
               (snd (checkRateLimit FORM_CONFIG (set_now 1000 initialWorld)))))
     = true.
Proof.
  assert (H1 : fst (checkRateLimit FORM_CONFIG (set_now 1000 initialWorld)) = true)
    by reflexivity.
  split; [exact H1 | split].
  - destruct (checkRateLimit_window FORM_CONFIG (set_now 1000 initialWorld)
                (set_now 60999
                   (snd (checkRateLimit FORM_CONFIG (set_now 1000 initialWorld))))
                H1 eq_refl) as (-> & _). reflexivity.
  - destruct (checkRateLimit_window FORM_CONFIG (set_now 1000 initialWorld)
                (set_now 61000
                   (snd (checkRateLimit FORM_CONFIG (set_now 1000 initialWorld))))
                H1 eq_refl) as (-> & _). reflexivity.
Defined.

(** ** Showing the validation errors *)

Module DisplayFacts.

Lemma markField_idem (b : bool) (f : field) :
  markField b (markField b f) = markField b f.
Proof. reflexivity. Qed.

Lemma showFieldError_fields (k : string) (message : option string) (w : world) :
  fields (showFieldError k message w) = alter (markField true) k (fields w).
Proof.
  unfold showFieldError. destruct (errorElements w !! k); reflexivity.
Qed.

Lemma showFieldError_errorElements (k : string) (message : option string)
    (w : world) :
  errorElements (showFieldError k message w)
  = alter (fun _ => shownError message) k (errorElements w).
Proof.
  unfold showFieldError.
  destruct (errorElements w !! k) as [e|] eqn:He; cbn [errorElements set_fields];
    apply map_eq; intros j; rewrite lookup_alter;
    [cbn [errorElements set_errorElements]; rewrite lookup_insert | ];
    (destruct (decide (k = j)) as [<- | ]; [now rewrite He | reflexivity]).
Qed.

(** What one pass of [displayValidationErrors] over a list of entries does
    to the control and to the error element of a given name; a later
    entry for the same name is overridden by an earlier one, as in the
    map the list comes from. *)
Lemma foldr_show_lookup (l : list (string * option string)) (w : world)
    (k : string) :
  let step := fun '(fieldName, message) w' =>
                match fields w' !! fieldName with
                | Some _ => showFieldError fieldName message w'
                | None => w'
                end in
  let m : gmap string (option string) := list_to_map l in
  fields (foldr step w l) !! k
  = match m !! k with
    | Some _ => markField true <$> fields w !! k
    | None => fields w !! k
    end
  /\ errorElements (foldr step w l) !! k
     = match m !! k, fields w !! k with
       | Some message, Some _ =>
           (fun _ => shownError message) <$> errorElements w !! k
       | _, _ => errorElements w !! k
       end.
Proof.
  intros step m. subst m. induction l as [|[a v] l [IHf IHe]].
  - cbn [foldr list_to_map]. rewrite lookup_empty. split; reflexivity.
  - cbn [foldr list_to_map]. set (w1 := foldr step w l) in *.
    assert (Hdom : forall j, fields w1 !! j = None <-> fields w !! j = None).
    { intros j. clear IHf IHe. subst w1.
      induction l as [|[a' v'] l IH]; cbn [foldr]; [reflexivity | ].
      change (step (a', v') (foldr step w l))
        with (match fields (foldr step w l) !! a' with
              | Some _ => showFieldError a' v' (foldr step w l)
              | None => foldr step w l
              end).
      destruct (fields (foldr step w l) !! a'); [ | exact IH].
      rewrite showFieldError_fields, lookup_alter.
      destruct (decide (a' = j)) as [<- | ]; [ | exact IH].
      rewrite fmap_None. exact IH. }
    change (step (a, v) w1)
      with (match fields w1 !! a with
            | Some _ => showFieldError a v w1
            | None => w1
            end).
    destruct (decide (a = k)) as [-> | Hne].
    + rewrite lookup_insert_eq.
      cbn [snd].
      destruct (fields w1 !! k) as [f1|] eqn:Hf1.
      * rewrite showFieldError_fields, showFieldError_errorElements,
          !lookup_alter_eq, Hf1, IHe.
        assert (Hsome : exists f, fields w !! k = Some f
                                  /\ markField true f1 = markField true f).
        { destruct (fields w !! k) as [f|] eqn:E.
          - exists f. split; [reflexivity | ].
            destruct (list_to_map l !! k); cbn in IHf;
              injection IHf as ->; reflexivity.
          - apply Hdom in E. congruence. }
        destruct Hsome as (f & Hf & Hmark). rewrite Hf. cbn. rewrite Hmark.
        split; [reflexivity | ].
        destruct (list_to_map l !! k); destruct (errorElements w !! k);
          reflexivity.
      * apply Hdom in Hf1 as Hf. rewrite Hf. cbn. split; [exact Hf1 | ].
        rewrite IHe, Hf. now destruct (list_to_map l !! k).
    + rewrite lookup_insert_ne by assumption.
      destruct (fields w1 !! a).
      * rewrite showFieldError_fields, showFieldError_errorElements,
          !lookup_alter_ne by assumption. split; assumption.
      * split; assumption.
Qed.

(** [displayValidationErrors] marks the control of every entry of the
    error object that has a control, shows the entry's message in the
    error element of that control, and leaves every other control and
    error element as it was. *)
Lemma displayValidationErrors_lookup (errs : gmap string (option string))
    (w : world) (k : string) :
  fields (displayValidationErrors errs w) !! k
  = match errs !! k with
    | Some _ => markField true <$> fields w !! k
    | None => fields w !! k
    end
  /\ errorElements (displayValidationErrors errs w) !! k
     = match errs !! k, fields w !! k with
       | Some message, Some _ =>
           (fun _ => shownError message) <$> errorElements w !! k
       | _, _ => errorElements w !! k
       end.
Proof.
  pose proof (foldr_show_lookup (map_to_list errs) w k) as H.
  cbv zeta in H. rewrite list_to_map_to_list in H. exact H.
Qed.

(** [displayValidationErrors(errors)] marks the control of every
    entry of the error object that has a control and shows the entry's
    message in its error element; a control with no entry keeps whatever
    marks and error text it had (they are not cleared); no value, message
    element, timer or flag changes. *)
Lemma displayValidationErrors_spec
    (errs : gmap string (option string)) (w : world) :
  let w' := displayValidationErrors errs w in
  (forall k message f,
     errs !! k = Some message -> fields w !! k = Some f ->
     fields w' !! k = Some (markField true f)
     /\ errorElements w' !! k
        = (fun _ => shownError message) <$> errorElements w !! k)
  /\ (forall k, errs !! k = None ->
        fields w' !! k = fields w !! k
        /\ errorElements w' !! k = errorElements w !! k)
  /\ value <$> fields w' = value <$> fields w
  /\ formMessage w' = formMessage w
  /\ timers w' = timers w
  /\ isSubmitting w' = isSubmitting w.
Proof.
  intros w'. subst w'. split; [ | split; [ | split; [ | split; [ | split]]]].
  - intros k message f Hk Hf.
    destruct (displayValidationErrors_lookup errs w k) as [-> ->].
    now rewrite Hk, Hf.
  - intros k Hk.
    destruct (displayValidationErrors_lookup errs w k) as [-> ->].
    now rewrite Hk.
  - apply (FrameFacts.displayValidationErrors_kept (fun w => value <$> fields w));
      try reflexivity. apply FrameFacts.values_mark.
  - apply (FrameFacts.displayValidationErrors_kept formMessage); reflexivity.
  - apply (FrameFacts.displayValidationErrors_kept timers); reflexivity.
  - apply (FrameFacts.displayValidationErrors_kept isSubmitting); reflexivity.
Qed.

End DisplayFacts.


(** ** A submit event on a form that does not validate *)

Module InvalidSubmitFacts.

Lemma beforeAwait_invalid (cfg : config) (w : world)
    (e : gmap string (option string)) :
  FormValidator.validateForm cfg w = (Normal false, set_errors e w) ->
  beforeAwait cfg w
  = (Normal None, displayValidationErrors e (set_errors e w)).
Proof.
  intros Hrun. unfold beforeAwait.
  rewrite (ControllerFacts.bind_normal _ _ _ _ _ Hrun). reflexivity.
Qed.

Lemma guarded_replay_state {A : Type} (cfg : config) (dflt a : A) (w : world) :
  exists btn,
    snd (guarded cfg dflt (fun w'' => (Normal a, w'')) w)
    = set_submitBtn btn (set_isSubmitting false w).
Proof.
  unfold guarded. rewrite ControllerFacts.tryFinally_state.
  unfold tryCatch. cbn [snd]. apply ControllerFacts.setSubmittingState_state.
Qed.

End InvalidSubmitFacts.

(** X4: a submit event on an idle page whose values do not validate
    never reaches the send: the handler does not suspend, no call is
    made, no timer is registered, the message element and the values are
    untouched, the flag ends false, and every failing known control that
    exists is marked, with the message of its violation in its error
    element. *)
Theorem invalid_submit_sends_nothing (w : world) :
  isSubmitting w = false ->
  fst (FormValidator.validateForm FORM_CONFIG w) = Normal false ->
  let w' := snd (handleFormSubmit FORM_CONFIG w) in
  (forall p, fst (handleFormSubmit FORM_CONFIG w) <> Normal (Some p))
  /\ isSubmitting w' = false
  /\ sendCalls w' = sendCalls w
  /\ timers w' = timers w
  /\ formMessage w' = formMessage w
  /\ value <$> fields w' = value <$> fields w
  /\ (forall k f message,
        fields w !! k = Some f ->
        formVerdict FORM_CONFIG (fields w) k = Some message ->
        fields w' !! k = Some (markField true f)
        /\ errorElements w' !! k
           = (fun _ => shownError message) <$> errorElements w !! k).
Proof.
  intros Hidle Hinvalid w'.
  destruct (FormFacts.validateForm_verdicts w) as (b & e & Hrun & He & _).
  rewrite Hrun in Hinvalid. injection Hinvalid as ->.
  pose proof (InvalidSubmitFacts.beforeAwait_invalid _ _ _ Hrun) as Hbefore.
  set (w1 := displayValidationErrors e (set_errors e w)) in *.
  assert (Hsubmit : handleFormSubmit FORM_CONFIG w
                    = guarded FORM_CONFIG None (fun w'' => (Normal None, w'')) w1).
  { unfold handleFormSubmit. now rewrite Hidle, Hbefore. }
  destruct (InvalidSubmitFacts.guarded_replay_state FORM_CONFIG
              (@None pendingSend) None w1)
    as [btn Hstate].
  subst w'. rewrite Hsubmit, Hstate.
  destruct (DisplayFacts.displayValidationErrors_spec e (set_errors e w))
    as (Hmark & _ & Hval & Hmsg & Htim & _).
  cbn [isSubmitting sendCalls timers formMessage fields errorElements
       set_submitBtn set_isSubmitting].
  split; [ | split; [reflexivity | split; [ | split; [ | split; [ | split]]]]].
  - intros p. apply ControllerFacts.guarded_completes. discriminate.
  - transitivity (sendCalls (set_errors e w)); [ | reflexivity].
    apply (FrameFacts.displayValidationErrors_kept sendCalls); reflexivity.
  - exact Htim.
  - exact Hmsg.
  - exact Hval.
  - intros k f message Hf Hv. apply (Hmark k message f); [ | exact Hf].
    now rewrite He.
Qed.

Lemma invalid_submit_sends_nothing_witness :
  isSubmitting initialWorld = false
  /\ sendCalls (snd (handleFormSubmit FORM_CONFIG initialWorld)) = []
  /\ timers (snd (handleFormSubmit FORM_CONFIG initialWorld)) = []
  /\ fields (snd (handleFormSubmit FORM_CONFIG initialWorld)) !! "email"
     = Some (markField true blankField).
Proof.
  assert (Hinvalid : fst (FormValidator.validateForm FORM_CONFIG initialWorld)
                     = Normal false) by (vm_compute; reflexivity).
  destruct (invalid_submit_sends_nothing initialWorld eq_refl Hinvalid)
    as (_ & _ & Hcalls & Htimers & _ & _ & Hmark).
  split; [reflexivity | split; [exact Hcalls | split; [exact Htimers | ]]].
  apply (Hmark "email" blankField (Some "El email es obligatorio")).
  - reflexivity.
  - vm_compute. reflexivity.
Defined.

(** ** Validation of one control when it loses focus *)



(** ** The busy state of the submit button *)

Module ButtonFacts.

Lemma setSubmittingState_complete (submitting : bool) (w : world)
    (btn : submitButton) (t l : string) :
  submitBtn w = Some btn -> btnText btn = Some t -> btnLoading btn = Some l ->
  setSubmittingState submitting w
  = (Normal tt,
     set_submitBtn
       (Some {| disabled := submitting; loading := submitting;
                btnText := Some (if submitting then "none" else "inline");
                btnLoading :=
                  Some (if submitting then "inline-flex" else "none") |})
       (set_isSubmitting submitting w)).
Proof.
  intros Hbtn Ht Hl. unfold setSubmittingState. run_m.
  rewrite Hbtn. simpl. rewrite Ht. simpl. rewrite Hl. reflexivity.
Qed.

End ButtonFacts.

(** X6: [setSubmittingState(submitting)] assigns the flag before it
    touches the page, so the flag takes the new value even when the call
    raises; it raises a TypeError exactly when the button or one of its
    two children is missing; on a complete button it returns normally and
    leaves the button in a state that depends on [submitting] alone
    (disabled and loading with the busy child shown, or enabled with the
    idle child shown). *)
Theorem setSubmittingState_button (submitting : bool) (w : world) :
  isSubmitting (snd (setSubmittingState submitting w)) = submitting
  /\ (fst (setSubmittingState submitting w) = Throw TypeError
      <-> submitBtn w = None
          \/ exists btn, submitBtn w = Some btn
                         /\ (btnText btn = None \/ btnLoading btn = None))
  /\ (forall btn t l,
        submitBtn w = Some btn -> btnText btn = Some t ->
        btnLoading btn = Some l ->
        setSubmittingState submitting w
        = (Normal tt,
           set_submitBtn
             (Some {| disabled := submitting; loading := submitting;
                      btnText := Some (if submitting then "none" else "inline");
                      btnLoading :=
                        Some (if submitting then "inline-flex" else "none") |})
             (set_isSubmitting submitting w))).
Proof.
  split; [apply ControllerFacts.setSubmittingState_flag | split].
  - unfold setSubmittingState. run_m.
    destruct (submitBtn w) as [[d lo [t|] [l|]]|]; simpl; split;
      try discriminate;
      try (intros [H | (btn & [= <-] & [H | H])]; discriminate);
      intros _; try reflexivity; try (now left); right; eexists;
      (split; [reflexivity | ]); simpl; first [now left | now right].
  - intros btn t l. apply ButtonFacts.setSubmittingState_complete.
Qed.

(** ** A form that lacks one of the four controls *)

Module MissingControlFacts.

Lemma getFormData_missing (k : string) (w : world) :
  k ∈ FormValidator.knownFields -> fields w !! k = None ->
  getFormData w = (Throw TypeError, w).
Proof.
  intros Hk Hnone. unfold getFormData, getTrimmed. run_m.
  destruct (ValidatorFacts.knownFields_cases k Hk) as [-> | [-> | [-> | ->]]];
    repeat match goal with
      | |- context [fields w !! ?n] =>
          lazymatch goal with
          | H : fields w !! n = None |- _ => rewrite H
          | _ => destruct (fields w !! n) eqn:?
          end
      end; try reflexivity; congruence.
Qed.

Lemma guarded_throw_state {A : Type} (cfg : config) (dflt : A) (e : exn)
    (w : world) :
  exists btn,
    snd (guarded cfg dflt (fun w'' => (Throw e, w'')) w)
    = set_submitBtn btn
        (set_isSubmitting false (handleSubmitError cfg unexpectedText w)).
Proof.
  unfold guarded. rewrite ControllerFacts.tryFinally_state.
  unfold tryCatch. cbn [snd]. unfold mbind, M_bind, modify, mret, M_ret.
  cbn [snd]. apply ControllerFacts.setSubmittingState_state.
Qed.

(** When validation passes on a form that lacks a known control, the
    part of the handler before the await ends with an exception, in a
    state that differs from the validated one by the flag and the
    button. *)
Lemma beforeAwait_missing (k : string) (w : world)
    (e : gmap string (option string)) :
  k ∈ FormValidator.knownFields -> fields w !! k = None ->
  FormValidator.validateForm FORM_CONFIG w = (Normal true, set_errors e w) ->
  exists btn,
    beforeAwait FORM_CONFIG w
    = (Throw TypeError,
       set_submitBtn btn (set_isSubmitting true (set_errors e w))).
Proof.
  intros Hk Hnone Hrun. unfold beforeAwait.
  rewrite (ControllerFacts.bind_normal _ _ _ _ _ Hrun). cbn [negb].
  destruct (ControllerFacts.setSubmittingState_state true (set_errors e w))
    as [btn Hstate].
  exists btn. unfold mbind at 1. unfold M_bind.
  destruct (setSubmittingState true (set_errors e w)) as [[[]|[]] w2];
    cbn [snd] in Hstate; subst w2; [ | reflexivity].
  unfold mbind at 1. unfold M_bind.
  now rewrite (getFormData_missing k).
Qed.

End MissingControlFacts.

(** X7: a form that lacks one of the four known controls is never sent.
    A submit event on it, from an idle page, does not reach the await and
    makes no call; when the controls that exist validate, the handler
    ends in its catch clause: the unexpected-error message is shown and
    the flag is released. *)
Theorem missing_control_never_sends (k : string) (w : world) :
  isSubmitting w = false ->
  k ∈ FormValidator.knownFields ->
  fields w !! k = None ->
  let w' := snd (handleFormSubmit FORM_CONFIG w) in
  (forall p, fst (handleFormSubmit FORM_CONFIG w) <> Normal (Some p))
  /\ isSubmitting w' = false
  /\ sendCalls w' = sendCalls w
  /\ (fst (FormValidator.validateForm FORM_CONFIG w) = Normal true ->
      formMessage w'
      = (fun _ => shownMessage unexpectedText "error") <$> formMessage w).
Proof.
  intros Hidle Hk Hnone w'. subst w'.
  destruct (FormFacts.validateForm_verdicts w) as (b & e & Hrun & _ & _).
  destruct b.
  - destruct (MissingControlFacts.beforeAwait_missing k w e Hk Hnone Hrun)
      as [btn Hbefore].
    set (w2 := set_submitBtn btn (set_isSubmitting true (set_errors e w))) in *.
    assert (Hsubmit : handleFormSubmit FORM_CONFIG w
              = guarded FORM_CONFIG None (fun w'' => (Throw TypeError, w'')) w2).
    { unfold handleFormSubmit. now rewrite Hidle, Hbefore. }
    destruct (MissingControlFacts.guarded_throw_state FORM_CONFIG
                (@None pendingSend) TypeError w2) as [btn' Hstate].
    rewrite Hsubmit, Hstate.
    cbn [isSubmitting sendCalls formMessage set_submitBtn set_isSubmitting].
    destruct (ControllerFacts.handleSubmitError_spec FORM_CONFIG
                unexpectedText w2) as (_ & _ & Hmsg & _).
    split; [ | split; [reflexivity | split]].
    + intros p. apply ControllerFacts.guarded_completes. discriminate.
    + transitivity (sendCalls w2); [ | reflexivity].
      apply (FrameFacts.handleSubmitError_kept sendCalls); reflexivity.
    + intros _. exact Hmsg.
  - pose proof (InvalidSubmitFacts.beforeAwait_invalid _ _ _ Hrun) as Hbefore.
    set (w1 := displayValidationErrors e (set_errors e w)) in *.
    assert (Hsubmit : handleFormSubmit FORM_CONFIG w
              = guarded FORM_CONFIG None (fun w'' => (Normal None, w'')) w1).
    { unfold handleFormSubmit. now rewrite Hidle, Hbefore. }
    destruct (InvalidSubmitFacts.guarded_replay_state FORM_CONFIG
                (@None pendingSend) None w1) as [btn Hstate].
    rewrite Hsubmit, Hstate, Hrun.
    cbn [isSubmitting sendCalls formMessage set_submitBtn set_isSubmitting fst].
    split; [ | split; [reflexivity | split; [ | discriminate]]].
    + intros p. apply ControllerFacts.guarded_completes. discriminate.
    + transitivity (sendCalls (set_errors e w)); [ | reflexivity].
      apply (FrameFacts.displayValidationErrors_kept sendCalls); reflexivity.
Qed.

(** A form without a message control, otherwise filled with valid
    values. *)
Lemma missing_control_never_sends_witness :
  sendCalls (snd (handleFormSubmit FORM_CONFIG noMessageWorld)) = []
  /\ isSubmitting (snd (handleFormSubmit FORM_CONFIG noMessageWorld)) = false.
Proof.
  assert (Hk : "message" ∈ FormValidator.knownFields) by set_solver.
  assert (Hnone : fields noMessageWorld !! "message" = None)
    by apply lookup_delete_eq.
  destruct (missing_control_never_sends "message" noMessageWorld eq_refl Hk
              Hnone)
    as (_ & Hflag & Hcalls & _).
  split; [exact Hcalls | exact Hflag].
Defined.

(** ** What is handed to the mail collaborator *)

(** X8: with the collaborator initialised, a submit event on an idle,
    complete page whose values pass validation makes exactly one call of
    [emailjs.send], appended to the calls made so far, with the configured
    service and template and with the trimmed values of the four controls
    as template parameters; [reply_to] repeats the sender's address and
    [timestamp] is the current time; no timer is registered and the
    handler is left waiting for that call. *)
Theorem send_payload (w : world) (b : submitButton) (t l : string)
    (fn fe fs fm : field) :
  isSubmitting w = false ->
  emailjsInitialized w = true ->
  fst (FormValidator.validateForm FORM_CONFIG w) = Normal true ->
  submitBtn w = Some b -> btnText b = Some t -> btnLoading b = Some l ->
  fields w !! "name" = Some fn -> fields w !! "email" = Some fe ->
  fields w !! "subject" = Some fs -> fields w !! "message" = Some fm ->
  let w' := snd (handleFormSubmit FORM_CONFIG w) in
  fst (handleFormSubmit FORM_CONFIG w) = Normal (Some EmailjsSend)
  /\ sendCalls w'
     = (sendCalls w ++
          [{| call_serviceId := "service_rocha_portfolio";
              call_templateId := "template_contact_form";
              call_params :=
                {| from_name := JsString.trim (value fn);
                   from_email := JsString.trim (value fe);
                   subject := JsString.trim (value fs);
                   message := JsString.trim (value fm);
                   timestamp := now w;
                   reply_to := JsString.trim (value fe) |} |}])%list
  /\ timers w' = timers w
  /\ fields w' = fields w.
Proof.
  intros Hidle Hinit Hvalid Hbtn Htext Hload H1 H2 H3 H4 w'. subst w'.
  destruct (FormFacts.validateForm_verdicts w) as (ok & e & Hrun & _ & _).
  rewrite Hrun in Hvalid. injection Hvalid as ->.
  set (w1 := set_errors e w) in *.
  pose proof (ButtonFacts.setSubmittingState_complete true w1 b t l Hbtn Htext
                Hload) as Hset.
  set (w2 := set_submitBtn _ (set_isSubmitting true w1)) in Hset.
  assert (Hdata : getFormData w2
            = (Normal {| fd_name := JsString.trim (value fn);
                         fd_email := JsString.trim (value fe);
                         fd_subject := JsString.trim (value fs);
                         fd_message := JsString.trim (value fm);
                         fd_timestamp := now w;
                         fd_userAgent := userAgent w |}, w2)).
  { unfold getFormData.
    rewrite (ControllerFacts.bind_normal _ _ _ _ _
               (ControllerFacts.getTrimmed_present "name" w2 fn H1)).
    rewrite (ControllerFacts.bind_normal _ _ _ _ _
               (ControllerFacts.getTrimmed_present "email" w2 fe H2)).
    rewrite (ControllerFacts.bind_normal _ _ _ _ _
               (ControllerFacts.getTrimmed_present "subject" w2 fs H3)).
    rewrite (ControllerFacts.bind_normal _ _ _ _ _
               (ControllerFacts.getTrimmed_present "message" w2 fm H4)).
    reflexivity. }
  unfold handleFormSubmit. rewrite Hidle. unfold beforeAwait.
  rewrite (ControllerFacts.bind_normal _ _ _ _ _ Hrun). cbn [negb].
  rewrite (ControllerFacts.bind_normal _ _ _ _ _ Hset).
  rewrite (ControllerFacts.bind_normal _ _ _ _ _ Hdata).
  unfold sendEmailStart. run_m. rewrite Hinit. simpl.
  repeat split; reflexivity.
Qed.

(** The filled page with the collaborator initialised. *)
Lemma send_payload_witness :
  fst (handleFormSubmit FORM_CONFIG (state supersedingPage))
  = Normal (Some EmailjsSend)
  /\ length (sendCalls (snd (handleFormSubmit FORM_CONFIG
                                (state supersedingPage)))) = 1%nat.
Proof.
  assert (Hvalid : fst (FormValidator.validateForm FORM_CONFIG
                          (state supersedingPage)) = Normal true)
    by (vm_compute; reflexivity).
  assert (H1 : fields (state supersedingPage) !! "name"
               = Some (withValue [65; 110; 97; 32; 76; 243; 112; 101; 122]%N))
    by apply lookup_insert_eq.
  assert (H2 : fields (state supersedingPage) !! "email"
               = Some (withValue (JsString.of_ascii "ana@example.com")))
    by (vm_compute; reflexivity).
  assert (H3 : fields (state supersedingPage) !! "subject"
               = Some (withValue (JsString.of_ascii "Consulta")))
    by (vm_compute; reflexivity).
  assert (H4 : fields (state supersedingPage) !! "message"
               = Some (withValue
                         (JsString.of_ascii "Hola, quisiera un presupuesto.")))
    by (vm_compute; reflexivity).
  destruct (send_payload (state supersedingPage) _ "inline" "none" _ _ _ _
              eq_refl eq_refl Hvalid eq_refl eq_refl eq_refl H1 H2 H3 H4)
    as (Hres & Hcalls & _).
  split; [exact Hres | ]. rewrite Hcalls. reflexivity.
Defined.

(** ** The durable storage and the statistics *)

(** X9: the events of the page never touch the durable storage, so the
    statistics that [getFormStats] reports are the same after any run of
    events (submits, settled sends, timers, input, blur, clicks) as
    before it: no submission is ever counted or stamped. *)
Theorem getFormStats_unchanged_by_events (evs : list event) (p p' : page) :
  run FORM_CONFIG evs p = Some p' ->
  getFormStats (state p') = getFormStats (state p).
Proof.
  intros Hrun. unfold getFormStats.
  now rewrite (FrameFacts.run_storage _ _ _ _ Hrun).
Qed.

(** Two complete submissions, one failed and one successful. *)
Lemma getFormStats_unchanged_by_events_witness :
  exists p',
    run FORM_CONFIG supersedingEvents supersedingPage = Some p'
    /\ getFormStats (state p')
       = {| submissionsToday := StatZero; lastSubmission := None;
            totalSubmissions := StatZero |}.
Proof.
  destruct (run FORM_CONFIG supersedingEvents supersedingPage) as [p'|] eqn:Hrun.
  - exists p'. split; [reflexivity | ].
    now rewrite (getFormStats_unchanged_by_events _ _ _ Hrun).
  - exfalso. vm_compute in Hrun. discriminate.
Defined.

(** ** The validator's two views of its result *)

(** X10: right after [validateForm()], [hasErrors()] is the negation of
    the boolean it returned, and it is true exactly when [getErrors()] has
    an entry for one of the four known fields. *)
Theorem hasErrors_after_validateForm (w : world) :
  let w' := snd (FormValidator.validateForm FORM_CONFIG w) in
  exists b : bool,
    fst (FormValidator.validateForm FORM_CONFIG w) = Normal b
    /\ FormValidator.hasErrors w' = negb b
    /\ (FormValidator.hasErrors w' = true
        <-> exists n, n ∈ FormValidator.knownFields
                      /\ is_Some (FormValidator.getErrors w' !! n)).
Proof.
  intros w'. subst w'.
  destruct (FormFacts.validateForm_verdicts w) as (b & e & Hrun & He & Hb).
  exists b. rewrite Hrun. cbn [fst snd].
  unfold FormValidator.hasErrors, FormValidator.getErrors.
  cbn [errors set_errors].
  assert (Hsize : bool_decide (0 < size e)%nat = negb b).
  { destruct b.
    - rewrite (proj1 Hb eq_refl). reflexivity.
    - apply bool_decide_eq_true_2.
      destruct (decide (e = ∅)) as [Hempty | Hne].
      + apply Hb in Hempty. discriminate.
      + apply map_size_non_empty_iff in Hne. lia. }
  split; [reflexivity | split; [exact Hsize | ]].
  rewrite Hsize. split.
  - intros Hnb. destruct b; [discriminate | ].
    destruct (decide (e = ∅)) as [Hempty | Hne].
    + apply Hb in Hempty. discriminate.
    + apply map_choose in Hne. destruct Hne as (n & m & Hn).
      exists n. split; [ | now rewrite Hn].
      destruct (decide (n ∈ FormValidator.knownFields)) as [ | Hout]; [easy | ].
      rewrite He in Hn. unfold formVerdict in Hn.
      now rewrite bool_decide_eq_false_2 in Hn.
  - intros (n & _ & m & Hn). destruct b; [ | reflexivity].
    rewrite (proj1 Hb eq_refl) in Hn. now rewrite lookup_empty in Hn.
Qed.

(** ** What the two patterns accept *)

Module PatternFacts.
Import Regex.

Lemma class_inv (p : N -> bool) (w : JsString.t) :
  lang (Class p) w -> exists c, w = [c] /\ p c = true.
Proof. intros H. inversion H; subst. eauto. Qed.

Lemma star_class_forallb (p : N -> bool) (s : JsString.t) :
  lang (Star (Class p)) s <-> forallb p s = true.
Proof.
  split.
  - intros H. remember (Star (Class p)) as r eqn:Hr.
    induction H as [ | | | | | r' | r' u v Hu _ Hv IH]; try discriminate.
    + reflexivity.
    + injection Hr as ->. apply class_inv in Hu. destruct Hu as (c & -> & Hc).
      simpl. rewrite Hc. now apply IH.
  - induction s as [|c s IH]; simpl; intros H.
    + constructor.
    + apply andb_prop in H. destruct H as [Hc Hs].
      change (c :: s) with ([c] ++ s)%list.
      constructor; [now constructor | auto].
Qed.

Lemma plus_class_forallb (p : N -> bool) (s : JsString.t) :
  lang (Plus (Class p)) s <-> s <> [] /\ forallb p s = true.
Proof.
  unfold Plus. split.
  - intros H. apply RegexFacts.cat_inv in H.
    destruct H as (u & v & -> & Hu & Hv).
    apply class_inv in Hu. destruct Hu as (c & -> & Hc).
    apply star_class_forallb in Hv. simpl. rewrite Hc, Hv. now split.
  - intros [Hne H]. destruct s as [|c s]; [congruence | ].
    simpl in H. apply andb_prop in H. destruct H as [Hc Hs].
    change (c :: s) with ([c] ++ s)%list.
    constructor; [now constructor | now apply star_class_forallb].
Qed.

End PatternFacts.


(** X12: the pattern of the email field accepts exactly the values of
    the form [local@domain.tail] whose three parts are non-empty and hold
    neither white space nor an at sign; an accepted value therefore has
    exactly one at sign and no white space. *)
Theorem emailPattern_accepts (s : JsString.t) :
  (Regex.test emailPattern s = true
   <-> exists a b c,
         s = (a ++ [64%N] ++ b ++ [46%N] ++ c)%list
         /\ a <> [] /\ b <> [] /\ c <> []
         /\ forallb emailChar a = true /\ forallb emailChar b = true
         /\ forallb emailChar c = true)
  /\ (Regex.test emailPattern s = true ->
      List.length (List.filter (N.eqb 64) s) = 1%nat
      /\ forallb (fun c => negb (JsString.isWhiteSpace c)) s = true).
Proof.
  assert (Hshape :
    Regex.test emailPattern s = true
    <-> exists a b c,
          s = (a ++ [64%N] ++ b ++ [46%N] ++ c)%list
          /\ a <> [] /\ b <> [] /\ c <> []
          /\ forallb emailChar a = true /\ forallb emailChar b = true
          /\ forallb emailChar c = true).
  { rewrite RegexFacts.test_lang. unfold emailPattern. split.
    - intros H.
      apply RegexFacts.cat_inv in H. destruct H as (a & r1 & -> & Ha & H).
      apply RegexFacts.cat_inv in H. destruct H as (x & r2 & -> & Hx & H).
      apply RegexFacts.cat_inv in H. destruct H as (b & r3 & -> & Hb & H).
      apply RegexFacts.cat_inv in H. destruct H as (y & c & -> & Hy & Hc).
      apply PatternFacts.class_inv in Hx. destruct Hx as (x0 & -> & Hx).
      apply PatternFacts.class_inv in Hy. destruct Hy as (y0 & -> & Hy).
      apply N.eqb_eq in Hx, Hy. subst x0 y0.
      apply PatternFacts.plus_class_forallb in Ha, Hb, Hc.
      exists a, b, c. tauto.
    - intros (a & b & c & -> & Ha & Hb & Hc & Fa & Fb & Fc).
      constructor; [now apply PatternFacts.plus_class_forallb | ].
      constructor; [now constructor | ].
      constructor; [now apply PatternFacts.plus_class_forallb | ].
      constructor; [now constructor | ].
      now apply PatternFacts.plus_class_forallb. }
  split; [exact Hshape | ].
  intros H. apply Hshape in H.
  destruct H as (a & b & c & -> & _ & _ & _ & Fa & Fb & Fc).
  assert (Hno : forall u, forallb emailChar u = true ->
                  List.filter (N.eqb 64) u = []
                  /\ forallb (fun c => negb (JsString.isWhiteSpace c)) u = true).
  { induction u as [|x u IH]; cbn [List.filter forallb]; [auto | ].
    intros Hu. apply andb_prop in Hu. destruct Hu as [Hx Hu].
    destruct (IH Hu) as [IH1 IH2]. unfold emailChar in Hx.
    apply negb_true_iff, orb_false_iff in Hx. destruct Hx as [Hws Hat].
    rewrite N.eqb_sym in Hat. rewrite Hat, Hws, IH2. auto. }
  destruct (Hno a Fa) as [A1 A2]. destruct (Hno b Fb) as [B1 B2].
  destruct (Hno c Fc) as [C1 C2].
  split.
  - rewrite !List.filter_app, A1, B1, C1. reflexivity.
  - rewrite !forallb_app, A2, B2, C2. reflexivity.
Qed.


Lemma emailPattern_accepts_witness :
  List.length (List.filter (N.eqb 64) (JsString.of_ascii "ana@example.com"))
  = 1%nat.
Proof.
  assert (Htest : Regex.test emailPattern (JsString.of_ascii "ana@example.com")
                  = true) by (vm_compute; reflexivity).
  exact (proj1 (proj2 (emailPattern_accepts _) Htest)).
Defined.

(** ** [sanitizeInput] *)

Module SanitizeFacts.

Lemma trimStart_suffix (s : JsString.t) :
  exists p, s = (p ++ JsString.trimStart s)%list.
Proof.
  induction s as [|c s [p IH]]; simpl.
  - now exists [].
  - destruct (JsString.isWhiteSpace c).
    + exists (c :: p). simpl. now f_equal.
    + now exists [].
Qed.

Lemma trimEnd_prefix (s : JsString.t) :
  exists q, s = (JsString.trimEnd s ++ q)%list.
Proof.
  unfold JsString.trimEnd. destruct (trimStart_suffix (rev s)) as [p Hp].
  exists (rev p). rewrite <- rev_app_distr, <- Hp. now rewrite rev_involutive.
Qed.

Lemma trim_infix (s : JsString.t) :
  exists p q, s = (p ++ JsString.trim s ++ q)%list.
Proof.
  unfold JsString.trim. destruct (trimStart_suffix s) as [p Hp].
  destruct (trimEnd_prefix (JsString.trimStart s)) as [q Hq].
  exists p, q. now rewrite <- Hq.
Qed.

Lemma trim_sublist (s : JsString.t) : JsString.trim s `sublist_of` s.
Proof.
  destruct (trim_infix s) as (p & q & Hs). rewrite Hs at 2.
  apply sublist_inserts_l, sublist_inserts_r. reflexivity.
Qed.

Lemma trim_length_eq (s : JsString.t) :
  List.length (JsString.trim s) = List.length s -> JsString.trim s = s.
Proof.
  destruct (trim_infix s) as (p & q & Hs). intros Hlen.
  rewrite Hs in Hlen at 2. rewrite !length_app in Hlen.
  destruct p; [ | simpl in Hlen; lia]. destruct q; [ | simpl in Hlen; lia].
  rewrite Hs at 2. simpl. now rewrite app_nil_r.
Qed.

Lemma filter_sublist (f : N -> bool) (s : JsString.t) :
  List.filter f s `sublist_of` s.
Proof.
  induction s as [|c s IH]; simpl; [constructor | ].
  destruct (f c); now constructor.
Qed.

Lemma filter_length_eq (f : N -> bool) (s : JsString.t) :
  List.length (List.filter f s) = List.length s -> forallb f s = true.
Proof.
  induction s as [|c s IH]; simpl; [reflexivity | ].
  destruct (f c); simpl; intros H.
  - apply IH. lia.
  - pose proof (sublist_length _ _ (filter_sublist f s)). lia.
Qed.

Lemma filter_all (f : N -> bool) (s : JsString.t) :
  forallb f s = true -> List.filter f s = s.
Proof.
  induction s as [|c s IH]; simpl; [reflexivity | ].
  intros H. apply andb_prop in H. destruct H as [Hc Hs].
  rewrite Hc. now f_equal; apply IH.
Qed.

Lemma notAngle_spec (c : N) :
  notAngle c = true <-> c <> 60%N /\ c <> 62%N.
Proof.
  unfold notAngle. rewrite negb_true_iff, orb_false_iff, !N.eqb_neq.
  reflexivity.
Qed.

Lemma sanitizeInput_sublist (s : JsString.t) : sanitizeInput s `sublist_of` s.
Proof.
  unfold sanitizeInput.
  etransitivity; [apply sublist_take | ].
  etransitivity; [apply filter_sublist | apply trim_sublist].
Qed.

End SanitizeFacts.

(** X13: the result of [sanitizeInput] holds neither [<] nor [>], has at
    most 1000 code units, and is made of code units of the input in their
    order (nothing is added, replaced or reordered). *)
Theorem sanitizeInput_safe (input : JsString.t) :
  (forall c, c ∈ sanitizeInput input -> c <> 60%N /\ c <> 62%N)
  /\ (List.length (sanitizeInput input) <= 1000)%nat
  /\ sanitizeInput input `sublist_of` input.
Proof.
  split; [ | split].
  - intros c Hc. unfold sanitizeInput in Hc.
    eapply elem_of_sublist in Hc; [ | apply sublist_take].
    apply list_elem_of_In, List.filter_In in Hc.
    destruct Hc as [_ Hc]. now apply SanitizeFacts.notAngle_spec.
  - unfold sanitizeInput. rewrite length_take. lia.
  - apply SanitizeFacts.sanitizeInput_sublist.
Qed.

(** X14: [sanitizeInput] leaves a value as it is exactly when the value
    is already trimmed, holds neither [<] nor [>] and has at most 1000
    code units. *)
Theorem sanitizeInput_fixed_points (input : JsString.t) :
  sanitizeInput input = input
  <-> JsString.trim input = input
      /\ (forall c, c ∈ input -> c <> 60%N /\ c <> 62%N)
      /\ (List.length input <= 1000)%nat.
Proof.
  split.
  - intros Hfix.
    pose proof (sublist_length _ _ (SanitizeFacts.trim_sublist input)) as L1.
    pose proof (sublist_length _ _
                  (SanitizeFacts.filter_sublist notAngle
                     (JsString.trim input))) as L2.
    assert (L3 : List.length (sanitizeInput input) = List.length input)
      by now rewrite Hfix.
    unfold sanitizeInput in L3. rewrite length_take in L3.
    assert (Htrim : JsString.trim input = input)
      by (apply SanitizeFacts.trim_length_eq; lia).
    split; [exact Htrim | split; [ | lia]].
    intros c Hc.
    assert (Hall : forallb notAngle (JsString.trim input) = true)
      by (apply SanitizeFacts.filter_length_eq; lia).
    rewrite Htrim, forallb_forall in Hall.
    apply list_elem_of_In, Hall in Hc.
    now apply SanitizeFacts.notAngle_spec.
  - intros (Htrim & Hall & Hlen). unfold sanitizeInput. rewrite Htrim.
    rewrite SanitizeFacts.filter_all.
    + apply take_ge. lia.
    + apply forallb_forall. intros c Hc. apply list_elem_of_In, Hall in Hc.
      now apply SanitizeFacts.notAngle_spec.
Qed.

Lemma sanitizeInput_fixed_points_witness :
  sanitizeInput (JsString.of_ascii "Hola, quisiera un presupuesto.")
  = JsString.of_ascii "Hola, quisiera un presupuesto.".
Proof.
  apply (proj2 (sanitizeInput_fixed_points _)).
  split; [vm_compute; reflexivity | split].
  - assert (Hall : forallb notAngle
                      (JsString.of_ascii "Hola, quisiera un presupuesto.")
                    = true) by (vm_compute; reflexivity).
    rewrite forallb_forall in Hall.
    intros c Hc. apply list_elem_of_In, Hall in Hc.
    now apply SanitizeFacts.notAngle_spec.
  - vm_compute. lia.
Defined.

(** ** [isValidEmailDomain] *)

Module DomainFacts.

Lemma splitOn_inv (sep : N) (s p : JsString.t) (ps : list JsString.t) :
  splitOn sep s = p :: ps ->
  (sep ∉ p)
  /\ (ps = [] /\ s = p
      \/ exists r, s = (p ++ sep :: r)%list /\ splitOn sep r = ps /\ ps <> []).
Proof.
  revert p ps. induction s as [|c s IH]; intros p ps; cbn [splitOn].
  - intros [= <- <-]. split; [apply not_elem_of_nil | now left].
  - destruct (N.eqb_spec c sep) as [-> | Hne].
    + intros [= <- <-]. split; [apply not_elem_of_nil | right].
      exists s. split; [reflexivity | split; [reflexivity | ]].
      destruct s; cbn [splitOn]; [discriminate | ].
      destruct (n =? sep)%N; [discriminate | ].
      destruct (splitOn sep s); discriminate.
    + destruct (splitOn sep s) as [|q qs] eqn:Hs.
      * destruct s; cbn [splitOn] in Hs; [discriminate | ].
        destruct (n =? sep)%N; [discriminate | ].
        destruct (splitOn sep s); discriminate.
      * intros [= <- <-]. destruct (IH q qs eq_refl) as [Hq Hcases].
        split; [rewrite not_elem_of_cons; now split | ].
        destruct Hcases as [[-> ->] | (r & -> & Hr & Hqs)].
        -- now left.
        -- right. exists r. now split.
Qed.

Lemma splitOn_no_sep (sep : N) (s : JsString.t) :
  sep ∉ s -> splitOn sep s = [s].
Proof.
  induction s as [|c s IH]; cbn [splitOn]; [reflexivity | ].
  rewrite not_elem_of_cons. intros [Hne Hs].
  destruct (N.eqb_spec c sep) as [-> | _]; [congruence | ].
  now rewrite (IH Hs).
Qed.

Lemma splitOn_app (sep : N) (a r : JsString.t) :
  sep ∉ a -> splitOn sep (a ++ sep :: r)%list = a :: splitOn sep r.
Proof.
  induction a as [|c a IH]; cbn [splitOn app].
  - intros _. now rewrite N.eqb_refl.
  - rewrite not_elem_of_cons. intros [Hne Ha].
    destruct (N.eqb_spec c sep) as [-> | _]; [congruence | ].
    now rewrite (IH Ha).
Qed.

(** The piece that [split('@')[1]] reads: the text between the first at
    sign and the second one, or the end. *)
Lemma second_piece (s d : JsString.t) :
  splitOn 64 s !! 1%nat = Some d
  <-> exists a rest,
        s = (a ++ [64%N] ++ d ++ rest)%list
        /\ (64%N ∉ a) /\ (64%N ∉ d)
        /\ (rest = [] \/ exists r, rest = 64%N :: r).
Proof.
  split.
  - destruct (splitOn 64 s) as [|a ps] eqn:Hs; [discriminate | ].
    destruct ps as [|d' ps]; [discriminate | ]. intros [= ->].
    apply splitOn_inv in Hs.
    destruct Hs as [Ha [[? _] | (r & -> & Hr & _)]]; [discriminate | ].
    apply splitOn_inv in Hr.
    destruct Hr as [Hd [[_ ->] | (r' & -> & _ & _)]].
    + exists a, []. rewrite app_nil_r. auto.
    + exists a, (64%N :: r'). split; [reflexivity | ]. eauto.
  - intros (a & rest & -> & Ha & Hd & Hrest).
    cbn [app]. rewrite (splitOn_app _ _ _ Ha).
    destruct Hrest as [-> | [r ->]].
    + rewrite app_nil_r, (splitOn_no_sep _ _ Hd). reflexivity.
    + rewrite (splitOn_app _ _ _ Hd). reflexivity.
Qed.

End DomainFacts.

(** X15: [isValidEmailDomain] rejects an address exactly when the text
    between its first at sign and its second one (or its end) is,
    letter for letter, one of the four listed domains; in particular an
    address with no at sign is accepted. *)
Theorem isValidEmailDomain_rejects (email : JsString.t) :
  (isValidEmailDomain email = false
   <-> exists a d rest,
         email = (a ++ [64%N] ++ d ++ rest)%list
         /\ (64%N ∉ a)
         /\ d ∈ tempDomains
         /\ (rest = [] \/ exists r, rest = 64%N :: r))
  /\ (64%N ∉ email -> isValidEmailDomain email = true).
Proof.
  split.
  - unfold isValidEmailDomain. split.
    + destruct (splitOn 64 email !! 1%nat) as [d|] eqn:Hd; [ | discriminate].
      intros Hneg. apply negb_false_iff, bool_decide_eq_true_1 in Hneg.
      apply DomainFacts.second_piece in Hd.
      destruct Hd as (a & rest & -> & Ha & _ & Hrest).
      exists a, d, rest. auto.
    + intros (a & d & rest & -> & Ha & Hd & Hrest).
      assert (Hno : 64%N ∉ d).
      { unfold tempDomains in Hd. rewrite !elem_of_cons, elem_of_nil in Hd.
        destruct Hd as [-> | [-> | [-> | [-> | []]]]];
          (intros Hin; apply list_elem_of_In in Hin; revert Hin;
           vm_compute; intuition discriminate). }
      rewrite (proj2 (DomainFacts.second_piece _ d)) by eauto 10.
      now rewrite bool_decide_eq_true_2.
  - intros Hno. unfold isValidEmailDomain.
    now rewrite (DomainFacts.splitOn_no_sep _ _ Hno).
Qed.

Lemma isValidEmailDomain_rejects_witness :
  isValidEmailDomain (JsString.of_ascii "bot@mailinator.com") = false
  /\ isValidEmailDomain (JsString.of_ascii "sin arroba") = true.
Proof.
  split.
  - apply (proj2 (proj1 (isValidEmailDomain_rejects _))).
    exists (JsString.of_ascii "bot"), (JsString.of_ascii "mailinator.com"), [].
    split; [reflexivity | split; [ | split; [ | now left]]].
    + intros Hin. apply list_elem_of_In in Hin. revert Hin.
      vm_compute. intuition discriminate.
    + unfold tempDomains. set_solver.
  - apply (proj2 (isValidEmailDomain_rejects _)).
    intros Hin. apply list_elem_of_In in Hin. revert Hin.
    vm_compute. intuition discriminate.
Defined.


(** ** [throttle] and [debounce] *)

Module ThrottleFacts.
Import Throttle.
Section Wrapper.
Context {A T : Type}.
Variable func : A -> T -> completion unit * T.
Variable limit : Z.





End Wrapper.
End ThrottleFacts.



Module DebounceFacts.
Import Debounce.
Section Wrapper.
Context {A T : Type}.
Variable func : A -> T -> completion unit * T.
Variable wait : Z.

Lemma debounce_created_invariant (t0 : Z) (x : T) :
  invariant (A := A) wait (created t0 x).
Proof. unfold invariant, created. cbn. auto. Qed.

Lemma clearTimeout_pending (st : state (A := A) (T := T)) :
  invariant wait st -> clearTimeout (timeout st) (calls st) = [].
Proof.
  intros (_ & [Hnone | (c & t & rest & Hc & Ht & _)]).
  - rewrite Hnone. unfold clearTimeout. now destruct (timeout st).
  - rewrite Hc, Ht. cbn. now rewrite Nat.eqb_refl.
Qed.

Lemma debounce_deliver_invariant (e : event) (st st' : state (A := A) (T := T)) :
  invariant wait st -> deliver func wait e st = Some st' -> invariant wait st'.
Proof.
  intros Hinv. pose proof Hinv as (Hhist & Hcalls).
  destruct e as [a | i | dt]; cbn [deliver].
  - intros [= <-]. unfold invoke, invariant.
    cbn [history calls timeout]. rewrite (clearTimeout_pending st Hinv).
    split; [exact Hhist | right]. eexists _, _, _. cbn. eauto.
  - destruct (calls st !! i) as [c|] eqn:Hc; [ | discriminate].
    destruct (Z.leb_spec (fireAt c) (clock st)) as [Hdue | ]; [ | discriminate].
    intros [= <-]. unfold later. cbn [target timeout calls history clock].
    destruct (func (args c) (target st)) as [r x]. cbn [snd]. unfold invariant.
    cbn [history calls timeout].
    destruct Hcalls as [Hnone | (c0 & t & rest & Hc0 & Ht & Hh & Hfire)].
    + rewrite Hnone in Hc. discriminate.
    + rewrite Hc0 in Hc |- *. destruct i as [|i]; [ | discriminate].
      injection Hc as <-.
      change (delete 0%nat [c0]) with (@nil (pendingCall (A := A))). split.
      * rewrite Hh in Hhist |- *. cbn [settled]. split; [ | exact Hhist].
        split; [reflexivity | lia].
      * left. unfold clearTimeout. now destruct (timeout st).
  - destruct (Z.leb_spec 0 dt) as [Hdt | ]; [ | discriminate].
    intros [= <-]. exact Hinv.
Qed.

Lemma debounce_run_invariant (evs : list event) (st st' : state (A := A) (T := T)) :
  invariant wait st -> run func wait evs st = Some st' -> invariant wait st'.
Proof.
  revert st. induction evs as [|e evs IH]; intros st Hinv; cbn [run].
  - now intros [= <-].
  - destruct (deliver func wait e st) as [st1|] eqn:He; [ | discriminate].
    apply IH. eapply debounce_deliver_invariant; eauto.
Qed.

End Wrapper.
End DebounceFacts.

(** X17: a function wrapped by [debounce(func, wait)] is executed only
    with the arguments of the latest call of the wrapper, at least [wait]
    ms after that call and with no call in between, and at most once per
    call; at most one timer of the wrapper is pending at any time. *)
Theorem debounce_settled {A T : Type} (func : A -> T -> completion unit * T)
    (wait t0 : Z) (x : T) (evs : list (Debounce.event (A := A)))
    (st : Debounce.state) :
  Debounce.run func wait evs (Debounce.created t0 x) = Some st ->
  Debounce.settled wait (Debounce.history st)
  /\ (List.length (Debounce.calls st) <= 1)%nat.
Proof.
  intros Hrun.
  destruct (DebounceFacts.debounce_run_invariant func wait evs _ _
              (DebounceFacts.debounce_created_invariant wait t0 x) Hrun)
    as (Hhist & Hcalls).
  split; [exact Hhist | ].
  destruct Hcalls as [-> | (c & _ & _ & -> & _)]; cbn; lia.
Qed.

(** Three calls within 250 ms of one another on a wrapper that waits
    250 ms, then the timer: one execution. *)
Lemma debounce_settled_witness :
  exists st,
    Debounce.run countCall 250
      [Debounce.Invoke tt; Debounce.Elapse 100; Debounce.Invoke tt;
       Debounce.Elapse 249; Debounce.Invoke tt; Debounce.Elapse 250;
       Debounce.TimerFires 0]
      (Debounce.created 0 0%nat) = Some st
    /\ Debounce.target st = 1%nat
    /\ Debounce.settled 250 (Debounce.history st).
Proof.
  assert (H : exists st,
            Debounce.run countCall 250
              [Debounce.Invoke tt; Debounce.Elapse 100; Debounce.Invoke tt;
               Debounce.Elapse 249; Debounce.Invoke tt; Debounce.Elapse 250;
               Debounce.TimerFires 0]
              (Debounce.created 0 0%nat) = Some st
            /\ Debounce.target st = 1%nat)
    by (vm_compute; eexists; split; reflexivity).
  destruct H as (st & Hrun & Htarget). exists st.
  split; [exact Hrun | split; [exact Htarget | ]].
  apply (debounce_settled countCall 250 0 0%nat _ st Hrun).
Defined.


(** ** The mobile menu and the project modal *)

Module MainPageFacts.
Import MainPage.

Lemma menuInSync_part (st st' : state) :
  menuPart st' = menuPart st -> menuInSync st -> menuInSync st'.
Proof.
  unfold menuPart, menuInSync. now intros [= -> -> ->].
Qed.

Lemma toggleMobileMenu_sync (st : state) :
  menuInSync st -> menuInSync (toggleMobileMenu st).
Proof.
  unfold toggleMobileMenu, menuInSync.
  destruct (hamburger st) as [h|] eqn:Hh, (navbarMenu st) as [n|] eqn:Hn;
    cbn; try rewrite Hh; try rewrite Hn; auto.
Qed.

Lemma toggleMobileMenu_present (st : state) (h n : bool) :
  hamburger st = Some h -> navbarMenu st = Some n ->
  toggleMobileMenu st
  = set_menu (negb (isMenuOpen st))
      (if negb (isMenuOpen st) then "hidden" else "") st.
Proof. intros Hh Hn. unfold toggleMobileMenu. now rewrite Hh, Hn. Qed.

Lemma openProjectModal_menu (projectId : option string) (st : state) :
  menuPart (openProjectModal projectId st) = menuPart st.
Proof.
  unfold openProjectModal.
  destruct (modal st), (modalBody st); try reflexivity.
  destruct (getProjectContent projectId); reflexivity.
Qed.

Lemma closeModal_menu (st : state) : menuPart (closeModal st) = menuPart st.
Proof. unfold closeModal. destruct (modal st); reflexivity. Qed.

Lemma fire_menu (a : timerAction) (st : state) :
  menuPart (fire a st) = menuPart st.
Proof. unfold fire. destruct (modal st), a; reflexivity. Qed.

Lemma elementListener_sync (c : clicked) (st : state) :
  menuInSync st -> menuInSync (elementListener c st).
Proof.
  intros Hsync. destruct c; cbn [elementListener];
    repeat split_if;
    auto using toggleMobileMenu_sync;
    first [ apply (menuInSync_part st _ (openProjectModal_menu _ _) Hsync)
          | apply (menuInSync_part st _ (closeModal_menu _) Hsync) ].
Qed.

Lemma documentClick_sync (c : clicked) (st : state) :
  menuInSync st -> menuInSync (documentClick c st).
Proof.
  intros Hsync. unfold documentClick.
  split_if; auto using toggleMobileMenu_sync.
Qed.

Lemma keydown_sync (key : string) (st : state) :
  menuInSync st -> menuInSync (keydown key st).
Proof.
  intros Hsync. unfold keydown.
  name_between st st1.
  assert (H1 : menuInSync st1).
  { subst st1. split_if; [ | exact Hsync].
    apply (menuInSync_part st _ (closeModal_menu _) Hsync). }
  split_if; auto using toggleMobileMenu_sync.
Qed.

Lemma deliver_sync (e : event) (st st' : state) :
  menuInSync st -> deliver e st = Some st' -> menuInSync st'.
Proof.
  intros Hsync. destruct e as [c | key | i | dt]; cbn [deliver].
  - intros [= <-]. now apply documentClick_sync, elementListener_sync.
  - intros [= <-]. now apply keydown_sync.
  - destruct (timers st !! i) as [t|]; [ | discriminate].
    destruct (due t <=? clock st)%Z; [ | discriminate].
    intros [= <-]. eapply menuInSync_part; [apply fire_menu | exact Hsync].
  - destruct (0 <=? dt)%Z; [ | discriminate]. now intros [= <-].
Qed.

Lemma toggleMobileMenu_lock (st : state) :
  lockFollowsMenu st -> lockFollowsMenu (toggleMobileMenu st).
Proof.
  unfold toggleMobileMenu, lockFollowsMenu.
  destruct (hamburger st), (navbarMenu st); auto.
Qed.

Lemma deliver_lock (e : event) (st st' : state) :
  menuEvent e = true -> lockFollowsMenu st -> deliver e st = Some st' ->
  lockFollowsMenu st'.
Proof.
  intros He Hlock. destruct e as [c | key | i | dt]; cbn [deliver].
  - intros [= <-]. unfold documentClick.
    assert (H1 : lockFollowsMenu (elementListener c st)).
    { destruct c; try discriminate; cbn [elementListener];
        repeat split_if; auto using toggleMobileMenu_lock. }
    split_if; auto using toggleMobileMenu_lock.
  - intros [= <-]. unfold keydown.
    name_between st st1.
    assert (H1 : lockFollowsMenu st1).
    { subst st1. split_if; [ | exact Hlock].
      unfold closeModal. destruct (modal st); exact Hlock. }
    split_if; auto using toggleMobileMenu_lock.
  - discriminate.
  - destruct (0 <=? dt)%Z; [ | discriminate]. now intros [= <-].
Qed.

Lemma toggleMobileMenu_modal (st : state) :
  modal (toggleMobileMenu st) = modal st
  /\ timers (toggleMobileMenu st) = timers st
  /\ clock (toggleMobileMenu st) = clock st.
Proof.
  unfold toggleMobileMenu. destruct (hamburger st), (navbarMenu st); auto.
Qed.

Lemma toggleMobileMenu_closing (st : state) :
  closingEnds st -> closingEnds (toggleMobileMenu st).
Proof.
  unfold closingEnds.
  destruct (toggleMobileMenu_modal st) as (-> & -> & ->). auto.
Qed.

Lemma openProjectModal_closing (projectId : option string) (st : state) :
  closingEnds st -> closingEnds (openProjectModal projectId st).
Proof.
  intros H. unfold openProjectModal.
  destruct (modal st) as [m|] eqn:Hm; [ | exact H].
  destruct (modalBody st); [ | exact H].
  destruct (getProjectContent projectId); [ | exact H].
  intros m' [= <-] Hclosing. cbn in Hclosing.
  destruct (H m Hm Hclosing) as (t & Ht & Ha & Hd).
  exists t. cbn. split; [set_solver | auto].
Qed.

Lemma closeModal_closing (st : state) : closingEnds (closeModal st).
Proof.
  unfold closeModal. destruct (modal st) as [m|] eqn:Hm.
  - intros m' _ _.
    exists {| due := clock st + 300; action := FinishClose |}. cbn.
    split; [ | split; [reflexivity | lia]].
    apply elem_of_app. right. apply list_elem_of_here.
  - intros m'. congruence.
Qed.

Lemma elem_of_delete_other {X : Type} (l : list X) (i : nat) (x y : X) :
  l !! i = Some y -> x ∈ l -> x <> y -> x ∈ delete i l.
Proof.
  revert i. induction l as [|z l IH]; intros i Hi Hx Hne.
  - now apply elem_of_nil in Hx.
  - destruct i as [|i]; cbn in *.
    + injection Hi as ->. apply elem_of_cons in Hx.
      destruct Hx as [-> | Hx]; [congruence | exact Hx].
    + apply elem_of_cons in Hx. destruct Hx as [-> | Hx].
      * apply list_elem_of_here.
      * apply list_elem_of_further. eauto.
Qed.

Lemma deliver_closing (e : event) (st st' : state) :
  closingEnds st -> deliver e st = Some st' -> closingEnds st'.
Proof.
  intros H. destruct e as [c | key | i | dt]; cbn [deliver].
  - intros [= <-]. unfold documentClick.
    assert (H1 : closingEnds (elementListener c st)).
    { destruct c; cbn [elementListener];
        repeat split_if;
        auto using toggleMobileMenu_closing, openProjectModal_closing,
          closeModal_closing. }
    split_if; auto using toggleMobileMenu_closing.
  - intros [= <-]. unfold keydown.
    name_between st st1.
    assert (H1 : closingEnds st1).
    { subst st1. split_if; auto using closeModal_closing. }
    split_if; auto using toggleMobileMenu_closing.
  - destruct (timers st !! i) as [t|] eqn:Ht; [ | discriminate].
    destruct (due t <=? clock st)%Z; [ | discriminate].
    intros [= <-]. unfold fire. cbn [modal].
    destruct (modal st) as [m|] eqn:Hm.
    + destruct (action t) eqn:Ha.
      * intros m' [= <-] Hclosing. cbn in Hclosing.
        destruct (H m Hm Hclosing) as (t' & Hin & Ha' & Hd).
        exists t'. cbn. split; [ | auto].
        apply (elem_of_delete_other _ _ _ t Ht Hin). congruence.
      * intros m' [= <-]. discriminate.
    + intros m'. cbn. congruence.
  - destruct (Z.leb_spec 0 dt); [ | discriminate].
    intros [= <-] m Hm Hclosing. cbn in *.
    destruct (H m Hm Hclosing) as (t & Hin & Ha & Hd).
    exists t. split; [exact Hin | split; [exact Ha | lia]].
Qed.

End MainPageFacts.

(** X18: the classes of the hamburger button and of the navigation menu
    always say what [isMenuOpen] says: whatever clicks, keys and timers
    follow a page on which they agree, they agree afterwards, the events
    of the project modal included.  As long as only events of the menu
    occur, the body is locked against scrolling exactly while the menu is
    open. *)
Theorem menu_stays_in_sync (evs : list MainPage.event)
    (st st' : MainPage.state) :
  MainPage.menuInSync st ->
  MainPage.run evs st = Some st' ->
  MainPage.menuInSync st'
  /\ (forallb MainPage.menuEvent evs = true ->
      MainPage.bodyOverflow st
      = (if MainPage.isMenuOpen st then "hidden" else "") ->
      MainPage.bodyOverflow st'
      = (if MainPage.isMenuOpen st' then "hidden" else "")).
Proof.
  revert st. induction evs as [|e evs IH]; intros st Hsync; cbn [MainPage.run].
  - intros [= <-]. auto.
  - destruct (MainPage.deliver e st) as [st1|] eqn:He; [ | discriminate].
    intros Hrun.
    destruct (IH st1 (MainPageFacts.deliver_sync _ _ _ Hsync He) Hrun)
      as [Hsync' Hlock'].
    split; [exact Hsync' | ].
    cbn [forallb]. intros Hall Hlock. apply andb_prop in Hall.
    destruct Hall as [Hmenu Hall]. apply (Hlock' Hall).
    exact (MainPageFacts.deliver_lock _ _ _ Hmenu Hlock He).
Qed.

(** The menu is opened, a project is viewed, and Escape is pressed. *)
Lemma menu_stays_in_sync_witness :
  exists st',
    MainPage.run
      [MainPage.Click MainPage.HamburgerButton;
       MainPage.Click (MainPage.ViewProject (Some "flask-app") true);
       MainPage.Key "Escape"]
      MainPage.loaded = Some st'
    /\ MainPage.menuInSync st'.
Proof.
  assert (H : exists st',
            MainPage.run
              [MainPage.Click MainPage.HamburgerButton;
               MainPage.Click (MainPage.ViewProject (Some "flask-app") true);
               MainPage.Key "Escape"]
              MainPage.loaded = Some st')
    by (vm_compute; eexists; reflexivity).
  destruct H as (st' & Hrun). exists st'. split; [exact Hrun | ].
  assert (Hsync : MainPage.menuInSync MainPage.loaded) by (split; reflexivity).
  exact (proj1 (menu_stays_in_sync _ MainPage.loaded st' Hsync Hrun)).
Defined.

(** X19: on a page with both menu elements and the menu in sync, the
    hamburger button toggles the menu once per click; the Escape key, a
    click outside the menu and the button, and a click on a navigation
    link whose section exists leave the menu closed, with both classes
    removed, and release the scroll lock if the menu was open; any other
    key and a click inside the menu that is not such a link leave the
    menu as it was. *)
Theorem menu_transitions (st : MainPage.state) (h n : bool) :
  MainPage.hamburger st = Some h -> MainPage.navbarMenu st = Some n ->
  MainPage.menuInSync st ->
  let after e := MainPage.deliver e st in
  let closed st' :=
    MainPage.isMenuOpen st' = false
    /\ MainPage.hamburger st' = Some false
    /\ MainPage.navbarMenu st' = Some false
    /\ (MainPage.isMenuOpen st = true -> MainPage.bodyOverflow st' = "") in
  (exists st', after (MainPage.Click MainPage.HamburgerButton) = Some st'
               /\ MainPage.isMenuOpen st' = negb (MainPage.isMenuOpen st)
               /\ MainPage.hamburger st' = Some (negb (MainPage.isMenuOpen st))
               /\ MainPage.navbarMenu st' = Some (negb (MainPage.isMenuOpen st)))
  /\ (exists st', after (MainPage.Key "Escape") = Some st' /\ closed st')
  /\ (exists st', after (MainPage.Click (MainPage.Other false)) = Some st'
                  /\ closed st')
  /\ (forall inMenu,
        exists st', after (MainPage.Click (MainPage.NavLink true inMenu))
                    = Some st' /\ closed st')
  /\ (forall key, key <> "Escape" -> after (MainPage.Key key) = Some st)
  /\ after (MainPage.Click (MainPage.Other true)) = Some st
  /\ after (MainPage.Click (MainPage.NavLink false true)) = Some st.
Proof.
  intros Hh Hn Hsync after closed. subst after closed.
  unfold MainPage.menuInSync in Hsync. rewrite Hh, Hn in Hsync.
  destruct Hsync as [-> ->].
  assert (Hlisten : MainPage.menuListening st = true).
  { unfold MainPage.menuListening. rewrite Hh, Hn. reflexivity. }
  assert (Hkeep : forall st1,
            MainPage.menuPart st1 = MainPage.menuPart st ->
            MainPage.menuListening st1 = true
            /\ MainPage.isMenuOpen st1 = MainPage.isMenuOpen st
            /\ MainPage.hamburger st1 = Some (MainPage.isMenuOpen st)
            /\ MainPage.navbarMenu st1 = Some (MainPage.isMenuOpen st)).
  { intros st1 [= H1 H2 H3]. unfold MainPage.menuListening.
    rewrite H1, H2, H3, Hh, Hn. auto. }
  cbn [MainPage.deliver].
  unfold MainPage.documentClick, MainPage.keydown.
  cbn [MainPage.elementListener MainPage.insideMenuOrHamburger negb].
  split; [ | split; [ | split; [ | split; [ | split; [ | split]]]]].
  - rewrite Hlisten, (MainPageFacts.toggleMobileMenu_present st _ _ Hh Hn).
    cbn [MainPage.menuListening MainPage.set_menu MainPage.hamburger
         MainPage.navbarMenu MainPage.isMenuOpen].
    rewrite andb_false_r. eexists. split; [reflexivity | ]. cbn. auto.
  - name_between st st1.
    assert (H1 : MainPage.menuPart st1 = MainPage.menuPart st).
    { subst st1. split_if; [ | reflexivity].
      apply MainPageFacts.closeModal_menu. }
    destruct (Hkeep st1 H1) as (L1 & O1 & Hh1 & Hn1).
    rewrite L1, O1. change ("Escape" =? "Escape")%string with true.
    cbn [andb].
    destruct (MainPage.isMenuOpen st) eqn:Hopen.
    + eexists. split; [reflexivity | ].
      rewrite (MainPageFacts.toggleMobileMenu_present st1 _ _ Hh1 Hn1), O1.
      cbn. auto.
    + eexists. split; [reflexivity | ]. rewrite O1, Hh1, Hn1.
      split; [reflexivity | split; [reflexivity | split; [reflexivity | ]]].
      discriminate.
  - rewrite Hlisten. cbn [andb].
    destruct (MainPage.isMenuOpen st) eqn:Hopen; cbn [andb].
    + eexists. split; [reflexivity | ].
      rewrite (MainPageFacts.toggleMobileMenu_present st _ _ Hh Hn), Hopen.
      cbn. auto.
    + eexists. split; [reflexivity | ]. rewrite Hh, Hn, Hopen.
      split; [reflexivity | split; [reflexivity | split; [reflexivity | ]]].
      discriminate.
  - intros inMenu. cbn [andb].
    destruct (MainPage.isMenuOpen st) eqn:Hopen.
    + rewrite (MainPageFacts.toggleMobileMenu_present st _ _ Hh Hn), Hopen.
      cbn [negb MainPage.set_menu MainPage.isMenuOpen MainPage.menuListening
           MainPage.hamburger MainPage.navbarMenu].
      rewrite andb_false_r. cbn [andb].
      eexists. split; [reflexivity | ]. cbn. auto.
    + rewrite Hopen, andb_false_r. cbn [andb].
      eexists. split; [reflexivity | ]. rewrite Hh, Hn, Hopen.
      split; [reflexivity | split; [reflexivity | split; [reflexivity | ]]].
      discriminate.
  - intros key Hkey.
    assert (Hne : (key =? "Escape")%string = false)
      by now apply String.eqb_neq.
    rewrite Hne, !andb_false_r. reflexivity.
  - now rewrite andb_false_r.
  - cbn [andb]. now rewrite andb_false_r.
Qed.

Lemma menu_transitions_witness :
  exists st',
    MainPage.deliver (MainPage.Click MainPage.HamburgerButton) MainPage.loaded
    = Some st'
    /\ MainPage.isMenuOpen st' = true.
Proof.
  assert (Hsync : MainPage.menuInSync MainPage.loaded) by (split; reflexivity).
  destruct (menu_transitions MainPage.loaded false false eq_refl eq_refl Hsync)
    as ((st' & Hstep & Hopen & _) & _).
  exists st'. split; [exact Hstep | exact Hopen].
Defined.

(** X20: on a page with the modal and its body, [openProjectModal]
    shows the modal, locks the scroll and registers the 10 ms timer for
    every project id but the names that the [projects] literal inherits
    from [Object.prototype]: for those, rendering throws and the call
    changes nothing.  The body receives the page of the project for the
    six ids of the literal and the not-found paragraph otherwise, a
    missing [data-project] attribute included. *)
Theorem openProjectModal_by_id (projectId : option string)
    (st : MainPage.state) (m : MainPage.modalElement)
    (body : option MainPage.html) :
  MainPage.modal st = Some m -> MainPage.modalBody st = Some body ->
  let key := default "null" projectId in
  let st' := MainPage.openProjectModal projectId st in
  (key ∈ objectPrototypeKeys -> st' = st)
  /\ (key ∉ objectPrototypeKeys ->
      MainPage.modal st'
      = Some {| MainPage.modalDisplay := "block";
                MainPage.modalActive := MainPage.modalActive m;
                MainPage.modalClosing := MainPage.modalClosing m |}
      /\ MainPage.bodyOverflow st' = "hidden"
      /\ MainPage.timers st'
         = (MainPage.timers st
            ++ [{| MainPage.due := MainPage.clock st + 10;
                   MainPage.action := MainPage.AddActive |}])%list
      /\ MainPage.modalBody st'
         = Some (Some (if bool_decide (key ∈ MainPage.projectIds)
                       then MainPage.ProjectHtml key
                       else MainPage.NotFoundHtml))).
Proof.
  intros Hm Hbody key st'. subst st'.
  unfold MainPage.openProjectModal, MainPage.getProjectContent.
  rewrite Hm, Hbody. fold key. split.
  - intros Hin.
    assert (Hout : key ∉ MainPage.projectIds).
    { intros Hp. revert Hin. unfold MainPage.projectIds in Hp.
      rewrite !elem_of_cons, elem_of_nil in Hp.
      destruct Hp as [-> | [-> | [-> | [-> | [-> | [-> | []]]]]]];
        apply (bool_decide_eq_false_1 _); vm_compute; reflexivity. }
    rewrite (bool_decide_eq_false_2 _ Hout), (bool_decide_eq_true_2 _ Hin).
    reflexivity.
  - intros Hout. destruct (bool_decide (key ∈ MainPage.projectIds)).
    + cbn. auto.
    + rewrite (bool_decide_eq_false_2 _ Hout). cbn. auto.
Qed.

Lemma openProjectModal_by_id_witness :
  MainPage.openProjectModal (Some "constructor") MainPage.loaded
  = MainPage.loaded
  /\ MainPage.modalBody (MainPage.openProjectModal None MainPage.loaded)
     = Some (Some MainPage.NotFoundHtml).
Proof.
  split.
  - apply (openProjectModal_by_id (Some "constructor") MainPage.loaded _ None
             eq_refl eq_refl).
    cbn. set_solver.
  - destruct (openProjectModal_by_id None MainPage.loaded _ None eq_refl
                eq_refl) as [_ H].
    destruct H as (_ & _ & _ & H).
    + cbn. apply (bool_decide_eq_false_1 _). vm_compute. reflexivity.
    + exact H.
Defined.

(** X21: the class [closing] never sticks to the modal: from a page on
    which the modal is not closing, after any clicks, keys and timers,
    whenever the modal carries the class a timer that ends the closing
    (hides the modal, removes both classes, releases the scroll lock) is
    pending and due within 300 ms. *)
Theorem closing_always_ends (evs : list MainPage.event)
    (st st' : MainPage.state) (m : MainPage.modalElement) :
  (forall m0, MainPage.modal st = Some m0 ->
              MainPage.modalClosing m0 = false) ->
  MainPage.run evs st = Some st' ->
  MainPage.modal st' = Some m -> MainPage.modalClosing m = true ->
  exists i t,
    MainPage.timers st' !! i = Some t
    /\ MainPage.action t = MainPage.FinishClose
    /\ MainPage.due t <= MainPage.clock st' + 300
    /\ forall st'', MainPage.deliver (MainPage.TimerFires i) st' = Some st'' ->
         MainPage.modal st''
         = Some {| MainPage.modalDisplay := "none";
                   MainPage.modalActive := false;
                   MainPage.modalClosing := false |}
         /\ MainPage.bodyOverflow st'' = "".
Proof.
  intros Hstart Hrun Hm Hclosing.
  assert (Hinv : MainPage.closingEnds st').
  { assert (H0 : MainPage.closingEnds st).
    { intros m0 Hm0 Hc. rewrite (Hstart m0 Hm0) in Hc. discriminate. }
    clear Hstart Hm Hclosing. revert st H0 Hrun.
    induction evs as [|e evs IH]; intros st H0; cbn [MainPage.run].
    - now intros [= <-].
    - destruct (MainPage.deliver e st) as [st1|] eqn:He; [ | discriminate].
      apply IH. eapply MainPageFacts.deliver_closing; eauto. }
  destruct (Hinv m Hm Hclosing) as (t & Hin & Ha & Hd).
  apply list_elem_of_lookup in Hin. destruct Hin as [i Hi].
  exists i, t. split; [exact Hi | split; [exact Ha | split; [exact Hd | ]]].
  intros st''. cbn [MainPage.deliver]. rewrite Hi.
  destruct (MainPage.due t <=? MainPage.clock st')%Z; [ | discriminate].
  intros [= <-]. unfold MainPage.fire. cbn [MainPage.modal].
  rewrite Hm, Ha. cbn. auto.
Qed.

(** A project is opened and closed with the button of the modal. *)
Lemma closing_always_ends_witness :
  exists st' i t,
    MainPage.run
      [MainPage.Click (MainPage.ViewProject (Some "ml-project") false);
       MainPage.Elapse 10; MainPage.TimerFires 0;
       MainPage.Click MainPage.ModalCloseButton]
      MainPage.loaded = Some st'
    /\ MainPage.timers st' !! i = Some t
    /\ MainPage.action t = MainPage.FinishClose.
Proof.
  assert (H : exists st' m,
            MainPage.run
              [MainPage.Click (MainPage.ViewProject (Some "ml-project") false);
               MainPage.Elapse 10; MainPage.TimerFires 0;
               MainPage.Click MainPage.ModalCloseButton]
              MainPage.loaded = Some st'
            /\ MainPage.modal st' = Some m
            /\ MainPage.modalClosing m = true)
    by (vm_compute; eexists; eexists; repeat split; reflexivity).
  destruct H as (st' & m & Hrun & Hm & Hclosing).
  assert (Hstart : forall m0, MainPage.modal MainPage.loaded = Some m0 ->
                     MainPage.modalClosing m0 = false)
    by (intros m0 [= <-]; reflexivity).
  destruct (closing_always_ends _ MainPage.loaded st' m Hstart Hrun Hm Hclosing)
    as (i & t & Hi & Ha & _).
  exists st', i, t. split; [exact Hrun | split; [exact Hi | exact Ha]].
Defined.


(** ** The project filters *)

Module FilterFacts.
Import Filters.

Lemma lastSettle_app (k : nat) (l1 l2 : list timer) :
  lastSettle k (l1 ++ l2)
  = match lastSettle k l2 with
    | Some b => Some b
    | None => lastSettle k l1
    end.
Proof.
  induction l1 as [|t l1 IH]; cbn [app lastSettle].
  - now destruct (lastSettle k l2).
  - rewrite IH. now destruct (lastSettle k l2).
Qed.

Lemma lastSettle_settleTimers (filter : option string) (t : Z) (k k0 : nat)
    (cs : list card) (c : card) :
  cs !! k = Some c ->
  lastSettle (k0 + k) (settleTimers filter t k0 cs)
  = Some (shows filter (category c)).
Proof.
  revert k k0. induction cs as [|c0 cs IH]; intros k k0 Hk; [discriminate | ].
  cbn [settleTimers lastSettle action]. destruct k as [|k]; cbn in Hk.
  - injection Hk as ->.
    assert (Hnone : forall n l, (k0 < n)%nat ->
              lastSettle k0 (settleTimers filter t n l) = None).
    { intros n l. revert n. induction l as [|c1 l IHl]; intros n Hn;
        cbn [settleTimers lastSettle action]; [reflexivity | ].
      rewrite IHl by lia. destruct (Nat.eqb_spec n k0); [lia | reflexivity]. }
    rewrite Nat.add_0_r, Hnone by lia. now rewrite Nat.eqb_refl.
  - replace (k0 + S k)%nat with (S k0 + k)%nat by lia.
    now rewrite (IH k (S k0) Hk).
Qed.

Lemma lastSettle_delete_reveal (k i index : nat) (l : list timer) (t : timer) :
  l !! i = Some t -> action t = Reveal index ->
  lastSettle k (delete i l) = lastSettle k l.
Proof.
  revert i. induction l as [|t0 l IH]; intros i Hi Ha; [discriminate | ].
  destruct i as [|i]; cbn in Hi.
  - injection Hi as ->. cbn [lastSettle]. rewrite Ha.
    change (delete 0%nat (t :: l)) with l. now destruct (lastSettle k l).
  - change (delete (S i) (t0 :: l)) with (t0 :: delete i l).
    cbn [lastSettle]. now rewrite (IH i Hi Ha).
Qed.

(** An outer timer fires only from the head of the queue. *)
Lemma settle_fires_first (i index : nat) (b : bool) (t : timer)
    (l : list timer) :
  l !! i = Some t -> action t = Settle index b -> mayFire i t l = true ->
  i = 0%nat.
Proof.
  intros Hi Ha Hmay. destruct i as [|i]; [reflexivity | ].
  destruct l as [|t0 l]; [discriminate | ].
  unfold mayFire in Hmay. cbn [take forallb] in Hmay.
  apply andb_prop in Hmay. destruct Hmay as [H0 _].
  rewrite Ha in H0. cbn [delayOf] in H0.
  destruct (action t0); cbn in H0; discriminate.
Qed.

Lemma filter_click_invariant (target : nat) (st st' : state) :
  handleFilterClick target st = Some st' -> invariant st'.
Proof.
  unfold handleFilterClick.
  destruct (buttons st !! target) as [b|]; [ | discriminate].
  intros [= <-] k c. cbn [cards timers currentFilter filterProjects].
  rewrite list_lookup_fmap. destruct (cards st !! k) as [c0|] eqn:Hk;
    [ | discriminate].
  intros [= <-]. rewrite lastSettle_app.
  now rewrite (lastSettle_settleTimers _ _ k 0 _ c0 Hk).
Qed.

Lemma filter_fire_invariant (i : nat) (t : timer) (st : state) :
  invariant st -> timers st !! i = Some t ->
  mayFire i t (timers st) = true ->
  invariant
    (fire (action t)
       {| currentFilter := currentFilter st; buttons := buttons st;
          cards := cards st; clock := clock st;
          timers := delete i (timers st) |}).
Proof.
  intros Hinv Hi Hmay. destruct (action t) as [index b | index] eqn:Ha.
  - assert (i = 0%nat) by (eapply settle_fires_first; eauto). subst i.
    destruct (timers st) as [|t0 rest] eqn:Ht; [discriminate | ].
    injection Hi as ->. change (delete 0%nat (t :: rest)) with rest.
    assert (Hlast : forall k,
              lastSettle k (t :: rest)
              = match lastSettle k rest with
                | Some b' => Some b'
                | None => if (index =? k)%nat then Some b else None
                end).
    { intros k. cbn [lastSettle]. now rewrite Ha. }
    assert (Hgoal : forall (f : card -> card) pending,
              (forall c, category (f c) = category c) ->
              (forall c, onDisplay (f c) = b) ->
              (forall k, lastSettle k pending = lastSettle k rest) ->
              invariant
                {| currentFilter := currentFilter st; buttons := buttons st;
                   cards := alter f index (cards st); clock := clock st;
                   timers := pending |}).
    { intros f pending Hcat Hdisp Hpending k c.
      cbn [cards timers currentFilter]. rewrite Hpending.
      destruct (decide (index = k)) as [-> | Hne].
      - rewrite list_lookup_alter_eq.
        destruct (cards st !! k) as [c0|] eqn:Hk; [ | discriminate].
        cbn. intros [= <-]. specialize (Hinv k c0 Hk). rewrite Ht, Hlast in Hinv.
        rewrite Hcat, Hdisp. destruct (lastSettle k rest); [exact Hinv | ].
        now rewrite Nat.eqb_refl in Hinv.
      - rewrite list_lookup_alter_ne by exact Hne. intros Hk.
        specialize (Hinv k c Hk). rewrite Ht, Hlast in Hinv.
        destruct (lastSettle k rest); [exact Hinv | ].
        destruct (Nat.eqb_spec index k); [contradiction | exact Hinv]. }
    destruct b; cbn [fire cards timers clock currentFilter buttons].
    + apply Hgoal; [reflexivity | reflexivity | ].
      intros k. rewrite lastSettle_app. cbn [lastSettle action].
      now destruct (lastSettle k rest).
    + apply Hgoal; reflexivity.
  - cbn [fire]. intros k c. cbn [cards timers currentFilter].
    rewrite (lastSettle_delete_reveal k i index _ t Hi Ha).
    destruct (decide (index = k)) as [-> | Hne].
    + rewrite list_lookup_alter_eq.
      destruct (cards st !! k) as [c0|] eqn:Hk; [ | discriminate].
      cbn. intros [= <-]. exact (Hinv k c0 Hk).
    + rewrite list_lookup_alter_ne by exact Hne. apply Hinv.
Qed.

Lemma filter_deliver_invariant (e : event) (st st' : state) :
  invariant st -> deliver e st = Some st' -> invariant st'.
Proof.
  intros Hinv. destruct e as [target | i | dt]; cbn [deliver].
  - apply filter_click_invariant.
  - destruct (timers st !! i) as [t|] eqn:Hi; [ | discriminate].
    destruct (due t <=? clock st)%Z; [ | discriminate]. cbn [andb].
    destruct (mayFire i t (timers st)) eqn:Hmay; [ | discriminate].
    intros [= <-]. now apply filter_fire_invariant.
  - destruct (0 <=? dt)%Z; [ | discriminate]. now intros [= <-].
Qed.

Lemma deliver_categories (e : event) (st st' : state) :
  deliver e st = Some st' ->
  category <$> cards st' = category <$> cards st.
Proof.
  assert (Halter : forall (f : card -> card) (k : nat) (l : list card),
            (forall c, category (f c) = category c) ->
            category <$> alter f k l = category <$> l).
  { intros f k l Hf. revert k. induction l as [|c l IH]; intros k;
      [reflexivity | ].
    destruct k as [|k]; cbn; [now rewrite Hf | now rewrite IH]. }
  destruct e as [target | i | dt]; cbn [deliver].
  - unfold handleFilterClick.
    destruct (buttons st !! target); [ | discriminate].
    intros [= <-]. cbn [cards filterProjects].
    rewrite <- list_fmap_compose. reflexivity.
  - destruct (timers st !! i) as [t|]; [ | discriminate].
    destruct (_ && _); [ | discriminate].
    intros [= <-]. destruct (action t) as [index [] | index];
      cbn [fire cards]; now apply Halter.
  - destruct (0 <=? dt)%Z; [ | discriminate]. now intros [= <-].
Qed.

Lemma lastSettle_none (k : nat) (l : list timer) :
  forallb (fun t => negb (settlePending t)) l = true -> lastSettle k l = None.
Proof.
  induction l as [|t l IH]; cbn [forallb lastSettle]; [reflexivity | ].
  intros H. apply andb_prop in H. destruct H as [Ht Hl].
  rewrite (IH Hl). unfold settlePending in Ht. now destruct (action t).
Qed.

End FilterFacts.

(** X22: what is on display follows the last filter clicked.  From a
    page where the cards on display are those of the current filter and
    no timer is pending, after any clicks on filter buttons, however
    fast, and any firing of timers that the timer queue permits, once no
    outer timer of [filterProjects] is pending the cards on display are
    exactly those that the filter clicked last selects; the cards and
    their categories are those of the start. *)
Theorem display_follows_last_filter (evs : list Filters.event)
    (st st' : Filters.state) :
  Filters.displayFollowsFilter st ->
  Filters.timers st = [] ->
  Filters.run evs st = Some st' ->
  forallb (fun t => negb (Filters.settlePending t)) (Filters.timers st') = true ->
  Filters.displayFollowsFilter st'
  /\ Filters.category <$> Filters.cards st'
     = Filters.category <$> Filters.cards st.
Proof.
  intros Hstart Hnone Hrun Hquiet.
  assert (H0 : Filters.invariant st).
  { intros k c Hk. rewrite Hnone. cbn. exact (Hstart k c Hk). }
  assert (Hinv : Filters.invariant st'
                 /\ Filters.category <$> Filters.cards st'
                    = Filters.category <$> Filters.cards st).
  { clear Hstart Hnone Hquiet. revert st H0 Hrun.
    induction evs as [|e evs IH]; intros st H0; cbn [Filters.run].
    - intros [= <-]. auto.
    - destruct (Filters.deliver e st) as [st1|] eqn:He; [ | discriminate].
      intros Hrun.
      destruct (IH st1 (FilterFacts.filter_deliver_invariant _ _ _ H0 He) Hrun)
        as [H1 H2].
      split; [exact H1 | ].
      now rewrite H2, (FilterFacts.deliver_categories _ _ _ He). }
  destruct Hinv as [Hinv Hcat]. split; [ | exact Hcat].
  intros k c Hk. specialize (Hinv k c Hk).
  now rewrite (FilterFacts.lastSettle_none k _ Hquiet) in Hinv.
Qed.

(** Two clicks 10 ms apart, on [web] and then on [data]; all timers
    fire. *)
Lemma display_follows_last_filter_witness :
  exists st',
    Filters.run
      [Filters.ClickFilter 1; Filters.Elapse 10; Filters.ClickFilter 2;
       Filters.Elapse 290; Filters.TimerFires 0; Filters.TimerFires 0;
       Filters.TimerFires 0; Filters.Elapse 10; Filters.TimerFires 0;
       Filters.TimerFires 0; Filters.TimerFires 0; Filters.Elapse 50;
       Filters.TimerFires 0; Filters.TimerFires 0; Filters.TimerFires 0]
      Filters.gallery = Some st'
    /\ Filters.display <$> Filters.cards st' = ["none"; "block"; "none"]
    /\ Filters.displayFollowsFilter st'.
Proof.
  assert (H : exists st',
            Filters.run
              [Filters.ClickFilter 1; Filters.Elapse 10; Filters.ClickFilter 2;
               Filters.Elapse 290; Filters.TimerFires 0; Filters.TimerFires 0;
               Filters.TimerFires 0; Filters.Elapse 10; Filters.TimerFires 0;
               Filters.TimerFires 0; Filters.TimerFires 0; Filters.Elapse 50;
               Filters.TimerFires 0; Filters.TimerFires 0; Filters.TimerFires 0]
              Filters.gallery = Some st'
            /\ Filters.display <$> Filters.cards st' = ["none"; "block"; "none"]
            /\ forallb (fun t => negb (Filters.settlePending t))
                 (Filters.timers st') = true)
    by (vm_compute; eexists; repeat split; reflexivity).
  destruct H as (st' & Hrun & Hdisplay & Hquiet).
  assert (Hstart : Filters.displayFollowsFilter Filters.gallery).
  { intros k c. destruct k as [|[|[|k]]]; cbn; intros [= <-]; reflexivity. }
  exists st'. split; [exact Hrun | split; [exact Hdisplay | ]].
  exact (proj1 (display_follows_last_filter _ Filters.gallery st' Hstart
                  eq_refl Hrun Hquiet)).
Defined.
